(** * Graph view: identities, merge engine and interaction state machine

    A shallow embedding of [viz/visualization.ts]: the [VizId] identity
    scheme, the operations of [AdvancedGraphView] that fetch, merge, expand,
    hide and select, and the hover-preview timers.  The graph library the
    view drives is modelled by the small store of [Module Cy]. *)

From Stdlib Require Import Ascii String.
From stdpp Require Import base strings gmap list.

Open Scope string_scope.

Set Warnings "-clear-no-such-hyp".

(** ** JavaScript string helpers used by [VizId] *)

Module Js.

(** [s.split(sep)] for a one-character separator: every occurrence of [sep]
    ends a piece, so the result is never empty and [""] splits to [[""]]. *)
Fixpoint split (sep : ascii) (s : string) : list string :=
  match s with
  | EmptyString => [EmptyString]
  | String c s' =>
      if Ascii.eqb c sep then EmptyString :: split sep s'
      else match split sep s' with
           | [] => [String c EmptyString]
           | piece :: pieces => String c piece :: pieces
           end
  end.

(** [pieces.join(sep)]. *)
Fixpoint join (sep : string) (pieces : list string) : string :=
  match pieces with
  | [] => EmptyString
  | [piece] => piece
  | piece :: rest => piece ++ sep ++ join sep rest
  end.

(** [pieces.slice(1)]. *)
Definition slice1 (pieces : list string) : list string := drop 1 pieces.

(** [s.includes(c)] for a character. *)
Fixpoint includes (c : ascii) (s : string) : bool :=
  match s with
  | EmptyString => false
  | String d s' => Ascii.eqb d c || includes c s'
  end.

(** A string is kept as the bytes of its UTF-8 encoding.  [s.length] counts
    UTF-16 code units: a character of one, two or three bytes is one code
    unit, a character of four bytes is a surrogate pair.  [units c] is what
    the byte [c] contributes: nothing for a continuation byte, the code
    units of the character for the byte that starts it. *)
Definition units (c : ascii) : nat :=
  let b := nat_of_ascii c in
  if (b <? 128)%nat then 1
  else if (b <? 192)%nat then 0
  else if (b <? 240)%nat then 1
  else 2.

Fixpoint length (s : string) : nat :=
  match s with
  | EmptyString => 0
  | String c s' => units c + length s'
  end.

End Js.

(** ** The identity scheme *)

Module VizId.

Record t : Type := mk { id : string; storeId : string }.

Definition sep : ascii := ":"%char.

(** [toString(): `${this.storeId}:${this.id}`]. *)
Definition toString (v : t) : string :=
  storeId v ++ String sep EmptyString ++ id v.

Definition toId (v : t) : string := toString v.

(** [static fromId(id)]: [split[0]] is the store, the remaining pieces are
    joined again with the separator. *)
Definition fromId (s : string) : t :=
  let split := Js.split sep s in
  let storeId := hd EmptyString split in
  let _id := Js.join (String sep EmptyString) (Js.slice1 split) in
  mk _id storeId.

(** [static toId(id, storeId)]. *)
Definition toId' (i : string) (store : string) : string := toId (mk i store).

End VizId.

(** ** The graph store

    The view keeps its graph in a cytoscape [Core].  The store below models
    the part of that library the view relies on: elements with an identity,
    a data object, a set of classes and a selection flag, kept in insertion
    order.  Rendering, layout, batching ([startBatch]/[endBatch]) and event
    emission do not change the store and are left out. *)

Module Cy.

(** Values of data fields.  A field that is absent reads as [undefined]. *)
Inductive JsVal : Type :=
  | JNull
  | JBool (b : bool)
  | JNum (z : Z)
  | JStr (s : string).

#[global] Instance JsVal_eq_dec : EqDecision JsVal.
Proof. solve_decision. Defined.

(** Why the library refuses to create an element: the [Error] thrown by
    [restore] for an identity that is the empty string, an identity that is
    taken, an edge with an end point left empty, an edge with an end point
    that is not in the graph. *)
Inductive AddError : Type :=
  | InvalidId
  | SecondId (i : string)
  | UnspecifiedEnd (edge : string)
  | NonexistentEnd (edge missing : string).

(** What an operation can fail with: a [TypeError] raised by the view's own
    code, the rejection of a data store's promise, or the [Error] of the
    library that could not create an element. *)
Inductive Error : Type :=
  | TypeError
  | Rejected (reason : string)
  | CannotCreate (why : AddError).

Inductive Outcome (A : Type) : Type :=
  | Ok (a : A)
  | Thrown (err : Error).
Arguments Ok {A} a.
Arguments Thrown {A} err.

(** An [ElementDefinition] as the data stores produce it.  [data.id] is
    [def_id]; [data.source]/[data.target] are present on edge records
    ([EdgeDataDefinition]); [def_data] holds the remaining data fields;
    [classes] is optional, and given as the list of class names. *)
Record ElementDefinition : Type := mkDef {
  def_id : string;
  def_ends : option (string * string);
  def_data : gmap string JsVal;
  def_classes : option (list string) }.

(** A live element of the graph. *)
Record Ele : Type := mkEle {
  e_id : string;
  e_ends : option (string * string);
  e_data : gmap string JsVal;
  e_classes : gset string;
  e_selected : bool }.

#[global] Instance Ele_eq_dec : EqDecision Ele.
Proof. solve_decision. Defined.

(** The elements of the graph, oldest first. *)
Abbreviation Core := (list Ele).

(** A collection is a list of identities of elements of the graph. *)
Abbreviation Collection := (list string).

Definition isNode (e : Ele) : bool := bool_decide (e_ends e = None).
Definition isEdge (e : Ele) : bool := negb (isNode e).
Definition defIsNode (d : ElementDefinition) : bool :=
  bool_decide (def_ends d = None).

Definition set_classes (c : gset string) (e : Ele) : Ele :=
  mkEle (e_id e) (e_ends e) (e_data e) c (e_selected e).
Definition set_data (m : gmap string JsVal) (e : Ele) : Ele :=
  mkEle (e_id e) (e_ends e) m (e_classes e) (e_selected e).
Definition set_selected (b : bool) (e : Ele) : Ele :=
  mkEle (e_id e) (e_ends e) (e_data e) (e_classes e) b.

(** [cy.elements()], [cy.nodes()], [cy.edges()] as collections. *)
Definition elements (cy : Core) : Collection := e_id <$> cy.
Definition nodes (cy : Core) : Collection := e_id <$> filter (λ e, isNode e = true) cy.
Definition edges (cy : Core) : Collection := e_id <$> filter (λ e, isEdge e = true) cy.

(** [cy.$id(i)]: the element with that identity, if there is one. *)
Definition getElementById (i : string) (cy : Core) : option Ele :=
  find (λ e, bool_decide (e_id e = i)) cy.

Definition hasElementWithId (i : string) (cy : Core) : bool :=
  bool_decide (i ∈ elements cy).

Definition hasNodeWithId (i : string) (cy : Core) : bool :=
  bool_decide (i ∈ nodes cy).

(** Apply [f] to every element of the collection, in place. *)
Definition update (coll : Collection) (f : Ele → Ele) (cy : Core) : Core :=
  (λ e, if decide (e_id e ∈ coll) then f e else e) <$> cy.

(** [ele.hasClass(c)]. *)
Definition hasClass (c : string) (e : Ele) : bool := bool_decide (c ∈ e_classes e).

(** [cy.nodes('.c')]: the nodes carrying class [c]. *)
Definition nodesWithClass (c : string) (cy : Core) : Collection :=
  e_id <$> filter (λ e, isNode e = true ∧ hasClass c e = true) cy.

(** [eles.addClass(c)], [eles.removeClass(cs)]. *)
Definition addClass (coll : Collection) (c : string) (cy : Core) : Core :=
  update coll (λ e, set_classes (e_classes e ∪ {[c]}) e) cy.
Definition removeClass (coll : Collection) (cs : list string) (cy : Core) : Core :=
  update coll (λ e, set_classes (e_classes e ∖ list_to_set cs) e) cy.

(** [eles.classes(cs)] on one element.  The library replaces the class set
    by the set of the listed names when the element lacks a listed name or
    has another number of classes than the list has entries, and leaves the
    element alone otherwise; the two differ only for a list that repeats a
    name. *)
Definition classesChanged (l : list string) (e : Ele) : bool :=
  existsb (λ c, negb (bool_decide (c ∈ e_classes e))) l
  || negb (bool_decide (size (e_classes e) = length l)).

Definition classesAfter (l : list string) (e : Ele) : gset string :=
  if classesChanged l e then list_to_set l else e_classes e.

(** [eles.classes(cs)]; called with [undefined] it is the getter and changes
    nothing. *)
Definition classes (coll : Collection) (cs : option (list string)) (cy : Core) : Core :=
  match cs with
  | None => cy
  | Some l => update coll (λ e, set_classes (classesAfter l e) e) cy
  end.

(** The keys [eles.data(...)] refuses to change. *)
Definition immutableKeys : list string := ["id"; "source"; "target"; "parent"].

(** [eles.data(obj)]: every field of [obj] is written over the element's
    data; fields the object does not mention stay as they are. *)
Definition data_obj (coll : Collection) (obj : gmap string JsVal) (cy : Core) : Core :=
  update coll
    (λ e, set_data (filter (λ kv, kv.1 ∉ immutableKeys) obj ∪ e_data e) e) cy.

(** [ele.data(k, v)]: with [v] undefined it is the getter. *)
Definition data_set (coll : Collection) (k : string) (v : option JsVal) (cy : Core) : Core :=
  match v with
  | None => cy
  | Some v =>
      if decide (k ∈ immutableKeys) then cy
      else update coll (λ e, set_data (<[k := v]> (e_data e)) e) cy
  end.

(** [eles.select()], [eles.unselect()]. *)
Definition select (coll : Collection) (cy : Core) : Core :=
  update coll (set_selected true) cy.
Definition unselect (coll : Collection) (cy : Core) : Core :=
  update coll (set_selected false) cy.

(** [cy.$(':selected')] and [cy.nodes(':selected')]. *)
Definition selected (cy : Core) : Collection :=
  e_id <$> filter (λ e, e_selected e = true) cy.
Definition selectedNodes (cy : Core) : Collection :=
  e_id <$> filter (λ e, isNode e = true ∧ e_selected e = true) cy.

(** [eles.absoluteComplement()]: the elements of the graph not in [coll]. *)
Definition absoluteComplement (coll : Collection) (cy : Core) : Collection :=
  filter (λ i, i ∉ coll) (elements cy).

(** Collection algebra: [a.merge(b)]/[a.union(b)], [a.intersection(b)],
    [a.difference(b)]. *)
Definition merge (a b : Collection) : Collection :=
  (a ++ filter (λ i, i ∉ a) (remove_dups b))%list.
Definition intersection (a b : Collection) : Collection := filter (λ i, i ∈ b) a.
Definition difference (a b : Collection) : Collection := filter (λ i, i ∉ b) a.

(** Whether edge [e] touches the element [i]. *)
Definition touches (i : string) (e : Ele) : bool :=
  match e_ends e with
  | Some (s, t) => bool_decide (s = i) || bool_decide (t = i)
  | None => false
  end.

Definition isLoop (e : Ele) : bool :=
  match e_ends e with
  | Some (s, t) => bool_decide (s = t)
  | None => false
  end.

(** [eles.connectedEdges()]. *)
Definition connectedEdges (coll : Collection) (cy : Core) : Collection :=
  e_id <$> filter (λ e, existsb (λ i, touches i e) coll = true) cy.

(** [eles.neighborhood()]: for every node of the collection and every edge
    connected to it, the node at the other end and the edge itself. *)
Definition otherEnd (i : string) (e : Ele) : list string :=
  match e_ends e with
  | Some (s, t) => [if decide (i = s) then t else s]
  | None => []
  end.

Definition neighborhood (coll : Collection) (cy : Core) : Collection :=
  remove_dups
    (i ← filter (λ i, hasNodeWithId i cy = true) coll;
     e ← filter (λ e, touches i e = true) cy;
     (filter (λ o, hasElementWithId o cy = true) (otherEnd i e) ++ [e_id e])%list).

Definition openNeighborhood := neighborhood.

(** [eles.closedNeighborhood()]: the neighbourhood and the elements
    themselves. *)
Definition closedNeighborhood (coll : Collection) (cy : Core) : Collection :=
  merge (neighborhood coll cy) coll.

(** [edges.connectedNodes()]: the end points of the edges of the
    collection. *)
Definition connectedNodes (coll : Collection) (cy : Core) : Collection :=
  remove_dups
    (e ← filter (λ e, e_id e ∈ coll) cy;
     match e_ends e with
     | Some (s, t) => filter (λ o, hasElementWithId o cy = true) [s; t]
     | None => []
     end).

(** [node.degree(false)]: the edges connected to the node, loops left out. *)
Definition degree (i : string) (cy : Core) : Z :=
  Z.of_nat (length (filter (λ e, touches i e = true ∧ isLoop e = false) cy)).

(** The element a definition creates: its classes, its data, not selected. *)
Definition ele_of_def (d : ElementDefinition) : Ele :=
  mkEle (def_id d) (def_ends d) (def_data d)
        (list_to_set (default [] (def_classes d))) false.

(** [cy.add(defs)], first pass: a definition whose identity is taken, by the
    graph or by an earlier definition of the same call, creates nothing. *)
Fixpoint created (seen : list string) (defs : list ElementDefinition)
  : list ElementDefinition :=
  match defs with
  | [] => []
  | d :: ds =>
      if decide (def_id d ∈ seen) then created seen ds
      else d :: created (def_id d :: seen) ds
  end.

(** Second pass, [restore], on one element: the library throws when the
    identity is the empty string or is taken, and for an edge when an end
    point is empty or is not the identity of an element of the graph; the
    source is tested before the target. *)
Definition restoreError (cy : Core) (d : ElementDefinition) : option AddError :=
  if bool_decide (def_id d = "") then Some InvalidId
  else if hasElementWithId (def_id d) cy then Some (SecondId (def_id d))
  else match def_ends d with
       | None => None
       | Some (s, t) =>
           if bool_decide (s = "") then Some (UnspecifiedEnd (def_id d))
           else if negb (hasElementWithId s cy)
             then Some (NonexistentEnd (def_id d) s)
           else if bool_decide (t = "") then Some (UnspecifiedEnd (def_id d))
           else if negb (hasElementWithId t cy)
             then Some (NonexistentEnd (def_id d) t)
           else None
       end.

(** One turn of the loop of [restore]: once an element has been refused
    nothing more is restored, and what was restored before stays in the
    graph. *)
Definition restore1 (acc : Core * Outcome Collection) (d : ElementDefinition)
  : Core * Outcome Collection :=
  match acc.2 with
  | Thrown err => acc
  | Ok added =>
      match restoreError acc.1 d with
      | Some why => (acc.1, Thrown (CannotCreate why))
      | None => ((acc.1 ++ [ele_of_def d])%list, Ok (added ++ [def_id d])%list)
      end
  end.

(** The order in which [restore] takes the created elements:
    [nodes.concat(edges)]. *)
Definition nodesFirst (eles : list ElementDefinition) : list ElementDefinition :=
  (filter (λ d, defIsNode d = true) eles
   ++ filter (λ d, defIsNode d = false) eles)%list.

(** [cy.add(defs)]: the created elements are restored nodes first, then
    edges; the result is the graph and the collection of added elements, or
    the error of the first element that could not be restored. *)
Definition add (defs : list ElementDefinition) (cy : Core)
  : Core * Outcome Collection :=
  foldl restore1 (cy, Ok []) (nodesFirst (created (elements cy) defs)).

(** [eles.remove()], first pass: the list of what leaves the graph.  An
    element of the collection that is in the graph and not yet listed is
    listed, a node at the end and an edge at the front; a node brings the
    edges connected to it, each put at the front unless it is listed. *)
Definition addConnectedEdges (toRemove : Collection) (edges : list Ele)
  : Collection :=
  foldl (λ acc edge, if decide (e_id edge ∈ acc) then acc else e_id edge :: acc)
        toRemove edges.

Definition addToRemove (cy : Core) (toRemove : Collection) (i : string)
  : Collection :=
  match getElementById i cy with
  | None => toRemove
  | Some ele =>
      if decide (i ∈ toRemove) then toRemove
      else if isNode ele then
        addConnectedEdges (toRemove ++ [i])%list
                          (filter (λ e, touches i e = true) cy)
      else i :: toRemove
  end.

Definition elesToRemove (coll : Collection) (cy : Core) : Collection :=
  foldl (addToRemove cy) [] coll.

(** [eles.remove()]: the listed elements leave the graph; the call returns
    them ([elesToRemove]). *)
Definition remove (coll : Collection) (cy : Core) : Core :=
  filter (λ e, e_id e ∉ elesToRemove coll cy) cy.

End Cy.

(** ** The view: [AdvancedGraphView] *)

Module View.

Import Cy.

Definition CLASS_PINNED : string := "pinned".
Definition CLASS_EXPANDED : string := "expanded".

(** Operations run against the one mutable graph: what they changed before
    failing stays changed. *)
Definition M (A : Type) : Type := Core → Core * Outcome A.

Definition ret {A} (a : A) : M A := λ cy, (cy, Ok a).
Definition throw {A} (err : Error) : M A := λ cy, (cy, Thrown err).
Definition bind {A B} (m : M A) (k : A → M B) : M B := λ cy,
  match m cy with
  | (cy', Ok a) => k a cy'
  | (cy', Thrown err) => (cy', Thrown err)
  end.
Definition get : M Core := λ cy, (cy, Ok cy).
Definition modify (f : Core → Core) : M unit := λ cy, (f cy, Ok tt).
(** [await p]. *)
Definition await {A} (p : Outcome A) : M A := λ cy, (cy, p).

Declare Scope view_scope.
Delimit Scope view_scope with view.
Notation "x <~ m ;> k" := (bind m (λ x, k))
  (at level 200, m at level 99, right associativity) : view_scope.
Notation "m ;> k" := (bind m (λ _, k))
  (at level 200, right associativity) : view_scope.
Open Scope view_scope.

Fixpoint forEach {A} (f : A → M unit) (l : list A) : M unit :=
  match l with
  | [] => ret tt
  | x :: xs => f x ;> forEach f xs
  end.

(** The data stores ([IDataStore]): their promises either resolve to records
    or reject. *)
Record IDataStore : Type := mkStore {
  storeId : string;
  getNeighbourhood : list VizId.t → Outcome (list ElementDefinition);
  connectNodes : list Ele → list Ele → Outcome (list ElementDefinition) }.

Section WithStores.

Variable datastores : list IDataStore.

Definition getPinned (cy : Core) : Collection := nodesWithClass CLASS_PINNED cy.
Definition getExpanded (cy : Core) : Collection := nodesWithClass CLASS_EXPANDED cy.

(** [x.length] for a data value [x]: reading it off [undefined] or [null]
    throws, a string has its number of code units, a boolean or a number has
    no such property. *)
Definition jsLength (v : option JsVal) : Outcome (option JsVal) :=
  match v with
  | None | Some JNull => Thrown TypeError
  | Some (JStr s) => Ok (Some (JNum (Z.of_nat (Js.length s))))
  | Some _ => Ok None
  end.

(** The body of the loop of [onGraphChanged]. *)
Definition onGraphChanged_node (i : string) : M unit := λ cy,
  let cy1 := data_set [i] "degree" (Some (JNum (degree i cy))) cy in
  match getElementById i cy1 with
  | None => (cy1, Ok tt)
  | Some node =>
      match jsLength (e_data node !! "name") with
      | Thrown err => (cy1, Thrown err)
      | Ok len => (data_set [i] "nameLength" len cy1, Ok tt)
      end
  end.

Definition onGraphChanged : M unit := λ cy,
  forEach onGraphChanged_node (nodes cy) cy.

(** The body of the loop of [mergeToGraph], on the graph, the staged
    additions and the merged collection. *)
Definition merge_element
  (st : Core * list ElementDefinition * Collection) (n : ElementDefinition)
  : Core * list ElementDefinition * Collection :=
  let '(cy, addElements, mergedCollection) := st in
  match getElementById (def_id n) cy with
  | None => (cy, (addElements ++ [n])%list, mergedCollection)
  | Some gElement =>
      let g := [def_id n] in
      let extraClasses :=
        ((if hasClass CLASS_EXPANDED gElement then [CLASS_EXPANDED] else [])
         ++ (if hasClass CLASS_PINNED gElement then [CLASS_PINNED] else []))%list in
      let cy := classes g (def_classes n) cy in
      let cy := foldl (λ cy clazz, addClass g clazz cy) cy extraClasses in
      let cy := data_obj g (def_data n) cy in
      let mergedCollection := merge mergedCollection g in
      let cy :=
        if decide (def_id n ∈ getExpanded cy) then addClass g "expanded" cy
        else cy in
      (cy, addElements, mergedCollection)
  end.

Definition mergeToGraph (elements : list ElementDefinition) : M Collection := λ cy,
  let '(cy, addElements, mergedCollection) :=
    foldl merge_element (cy, [], []) elements in
  (added <~ add addElements ;>
   let mergedCollection := merge mergedCollection added in
   onGraphChanged ;> ret mergedCollection) cy.

(** [neighbourhood] and [buildEdges]: the stores are asked one after the
    other, each promise awaited before the next store is asked. *)
Fixpoint neighbourhood_from (stores : list IDataStore) (toExpand : list VizId.t)
  (nodes : list ElementDefinition) : M (list ElementDefinition) :=
  match stores with
  | [] => ret nodes
  | store :: rest =>
      got <~ await (getNeighbourhood store toExpand) ;>
      neighbourhood_from rest toExpand (nodes ++ got)%list
  end.

Definition neighbourhood (toExpand : list VizId.t) : M (list ElementDefinition) :=
  neighbourhood_from datastores toExpand [].

Definition eles_of (coll : Collection) (cy : Core) : list Ele :=
  filter (λ e, e_id e ∈ coll) cy.

Fixpoint buildEdges_from (stores : list IDataStore) (newNodes : Collection)
  (edges : list ElementDefinition) : M (list ElementDefinition) :=
  match stores with
  | [] => ret edges
  | store :: rest =>
      cy <~ get ;>
      got <~ await (connectNodes store (eles_of (nodes cy) cy) (eles_of newNodes cy)) ;>
      buildEdges_from rest newNodes (edges ++ got)%list
  end.

Definition buildEdges (newNodes : Collection) : M (list ElementDefinition) :=
  buildEdges_from datastores newNodes [].

(** [updateActiveFile]: the class changes; the viewport animation and the
    one-shot tap listener it registers are not part of the store. *)
Definition updateActiveFile (node : Collection) (followImmediate : bool) : M unit :=
  modify (λ cy,
    let cy := removeClass (elements cy)
                ["connected-active-file"; "active-file"; "inactive-file"] cy in
    let cy := addClass (difference (elements cy) (closedNeighborhood node cy))
                "inactive-file" cy in
    let cy := addClass node "active-file" cy in
    let cy := addClass (connectedEdges node cy) "connected-active-file" cy in
    addClass (connectedNodes (connectedEdges node cy) cy) "connected-active-file" cy).

(** The collection [expand] builds from the fetched records:
    [nodes.merge(this.viz.$id(n.data.id))] for each of them. *)
Definition fetchedNodes (neighbourhood : list ElementDefinition) (cy : Core)
  : Collection :=
  foldl (λ nodes n,
           merge nodes (if hasElementWithId (def_id n) cy then [def_id n] else []))
        [] neighbourhood.

(** [expand]. *)
Definition expand (toExpand : Collection) : M Collection :=
  let expandedIds := VizId.fromId <$> toExpand in
  neighbourhood <~ neighbourhood expandedIds ;>
  mergeToGraph neighbourhood ;>
  cy <~ get ;>
  let nodes := fetchedNodes neighbourhood cy in
  edges <~ buildEdges nodes ;>
  edgesInGraph <~ mergeToGraph edges ;>
  modify (addClass toExpand CLASS_EXPANDED) ;>
  updateActiveFile toExpand false ;>
  ret edgesInGraph.

(** [removeNodes]: the result is what [nodes.remove()] returns. *)
Definition removeNodes (nodes : Collection) : M Collection :=
  cy <~ get ;>
  modify (removeClass (intersection (getExpanded cy) (neighborhood nodes cy))
                      ["expanded"]) ;>
  cy <~ get ;>
  modify (remove nodes) ;>
  ret (elesToRemove nodes cy).

(** [selectAll], [invertSelection], [selectNeighbourhood]. *)
Definition selectAll : M unit :=
  modify (λ cy, select (nodes cy) cy).

Definition invertSelection : M unit :=
  modify (λ cy,
    let sel := selected cy in
    let cy := unselect sel cy in
    select (absoluteComplement sel cy) cy).

Definition selectNeighbourhood : M unit :=
  modify (λ cy,
    let sel := selectedNodes cy in
    let cy := unselect sel cy in
    select (openNeighborhood sel cy) cy).

Definition expandSelection : M Collection :=
  cy <~ get ;> expand (selectedNodes cy).

Definition removeSelection : M Collection :=
  cy <~ get ;> removeNodes (selectedNodes cy).

End WithStores.

End View.

(** ** The hover-preview timers

    The handlers of [onOpen] that arm and cancel the delayed preview.  Time
    itself is not modelled: a read that was started may resolve, and a
    pending task may fire, at any later moment.  The class changes the same
    handlers make ([hover], [unhover], [connected-hover]) do not touch the
    timers and are left out. *)

Module Hover.

Import Cy.

(** [Timeout] handles. *)
Definition Timeout : Type := nat.

Record State : Type := mkState {
  (** the tasks the timer queue still holds: handle and target element *)
  pending : list (Timeout * string);
  (** [hoverTimeout: Record<string, Timeout>]; a key may hold [undefined] *)
  hoverTimeout : gmap string (option Timeout);
  (** the next handle [setTimeout] hands out *)
  nextTimeout : Timeout;
  (** the targets whose popover has been opened, oldest first *)
  popovers : list string;
  (** the [mouseover] handlers suspended at [await vault.cachedRead(file)],
      by target, oldest first *)
  reading : list string }.

Definition initial : State := mkState [] ∅ 0 [] [].

(** [setTimeout(task, 500)]. *)
Definition setTimeout (target : string) (st : State) : Timeout * State :=
  (nextTimeout st,
   mkState (pending st ++ [(nextTimeout st, target)])%list (hoverTimeout st)
           (S (nextTimeout st)) (popovers st) (reading st)).

(** [clearTimeout(h)]; clearing [undefined] does nothing. *)
Definition clearTimeout (h : option Timeout) (st : State) : State :=
  match h with
  | None => st
  | Some h =>
      mkState (filter (λ p, p.1 ≠ h) (pending st)) (hoverTimeout st)
              (nextTimeout st) (popovers st) (reading st)
  end.

(** [this.hoverTimeout[i] = v]. *)
Definition record (i : string) (v : option Timeout) (st : State) : State :=
  mkState (pending st) (<[i := v]> (hoverTimeout st)) (nextTimeout st)
          (popovers st) (reading st).

(** [this.hoverTimeout[i] = setTimeout(...)]: what both mouseover handlers
    do once they have something to preview. *)
Definition arm (i : string) (st : State) : State :=
  let '(h, st) := setTimeout i st in
  record i (Some h) st.

(** The [mouseover] handler for nodes, up to its [await]: [fileIsMd] says
    that the host resolved the identity to a markdown file; the handler then
    starts reading the file and is suspended. *)
Definition mouseover_node (i : string) (fileIsMd : bool) (st : State) : State :=
  if bool_decide (VizId.storeId (VizId.fromId i) = "core") && fileIsMd
  then mkState (pending st) (hoverTimeout st) (nextTimeout st) (popovers st)
               (reading st ++ [i])%list
  else st.

(** The rest of that handler: the read number [k] resolves and the timer is
    armed. *)
Definition readDone (k : nat) (st : State) : State :=
  match reading st !! k with
  | Some i =>
      arm i (mkState (pending st) (hoverTimeout st) (nextTimeout st)
                     (popovers st) (delete k (reading st)))
  | None => st
  end.

(** The [mouseover] handler for edges: armed when the edge's data has a
    [context] field. *)
Definition mouseover_edge (edge : Ele) (st : State) : State :=
  if bool_decide (is_Some (e_data edge !! "context")) then arm (e_id edge) st else st.

(** The [mouseout] handler, for a target that is an element. *)
Definition mouseout (i : string) (st : State) : State :=
  match hoverTimeout st !! i with
  | Some h => record i None (clearTimeout h st)
  | None => st
  end.

(** A pending task fires: it leaves the queue and opens its popover. *)
Definition fire (h : Timeout) (st : State) : State :=
  match filter (λ p, p.1 = h) (pending st) with
  | [] => st
  | (_, target) :: _ =>
      mkState (filter (λ p, p.1 ≠ h) (pending st)) (hoverTimeout st)
              (nextTimeout st) (popovers st ++ [target])%list (reading st)
  end.

Inductive Event : Type :=
  | MouseoverNode (i : string) (fileIsMd : bool)
  | ReadDone (k : nat)
  | MouseoverEdge (edge : Ele)
  | Mouseout (i : string)
  | Fire (h : Timeout).

Definition step (st : State) (ev : Event) : State :=
  match ev with
  | MouseoverNode i fileIsMd => mouseover_node i fileIsMd st
  | ReadDone k => readDone k st
  | MouseoverEdge edge => mouseover_edge edge st
  | Mouseout i => mouseout i st
  | Fire h => fire h st
  end.

Definition run (evs : list Event) (st : State) : State := foldl step st evs.

(** The tasks pending for an element. *)
Definition pendingFor (i : string) (st : State) : list Timeout :=
  fst <$> filter (λ p, p.2 = i) (pending st).

(** Handles are handed out in increasing order: every handle in the queue
    or in the record is older than the next one. *)
Definition wf (st : State) : Prop :=
  (∀ p, p ∈ pending st → p.1 < nextTimeout st)
  ∧ (∀ i h, hoverTimeout st !! i = Some (Some h) → h < nextTimeout st).

(** The handle [h] has been issued and is not in the queue. *)
Definition cancelled (h : Timeout) (st : State) : Prop :=
  h < nextTimeout st ∧ ∀ p, p ∈ pending st → p.1 ≠ h.

End Hover.

(** ** The merge, one element at a time

    What the loop of [mergeToGraph] does to one existing element when it
    meets a record with the element's identity, and what [onGraphChanged]
    does to one node.  The facts below relate the code to these. *)

Module PerElement.

Import Cy View.

(** The classes the merge keeps whatever the record says. *)
Definition protected (e : Ele) : gset string :=
  e_classes e ∩ {[CLASS_EXPANDED; CLASS_PINNED]}.

Definition merged_classes (n : ElementDefinition) (e : Ele) : gset string :=
  match def_classes n with
  | Some l => classesAfter l e ∪ protected e
  | None => e_classes e
  end.

(** The fields of a data object that [data(obj)] writes. *)
Definition data_fields (obj : gmap string JsVal) : gmap string JsVal :=
  filter (λ kv, kv.1 ∉ immutableKeys) obj.

Definition merged_ele (n : ElementDefinition) (e : Ele) : Ele :=
  set_data (data_fields (def_data n) ∪ e_data e)
           (set_classes (merged_classes n e) e).

(** All the records of a list met by one element, in order. *)
Definition merge_all (l : list ElementDefinition) (e : Ele) : Ele :=
  foldl (λ e n, if decide (e_id e = def_id n) then merged_ele n e else e) e l.

(** [onGraphChanged] on one node: the degree is written, then the length of
    the name, unless reading it throws. *)
Definition with_degree (deg : Z) (e : Ele) : Ele :=
  set_data (<["degree" := JNum deg]> (e_data e)) e.

Definition with_nameLength (len : option JsVal) (e : Ele) : Ele :=
  match len with
  | Some v => set_data (<["nameLength" := v]> (e_data e)) e
  | None => e
  end.

(** [onGraphChanged] over the elements in order, [deg] giving the degree of
    each node: the elements after a node whose name cannot be measured are
    left as they were. *)
Fixpoint metrics (deg : string → Z) (l : list Ele) : list Ele * Outcome unit :=
  match l with
  | [] => ([], Ok tt)
  | e :: l' =>
      if isNode e then
        let e1 := with_degree (deg (e_id e)) e in
        match jsLength (e_data e1 !! "name") with
        | Thrown err => (e1 :: l', Thrown err)
        | Ok len =>
            let r := metrics deg l' in
            (with_nameLength len e1 :: r.1, r.2)
        end
      else
        let r := metrics deg l' in (e :: r.1, r.2)
  end.

(** Two elements that differ at most in the derived metrics. *)
Definition same_but_metrics (e e' : Ele) : Prop :=
  e_id e' = e_id e ∧ e_ends e' = e_ends e ∧ e_classes e' = e_classes e
  ∧ e_selected e' = e_selected e
  ∧ ∀ k, k ≠ "degree" → k ≠ "nameLength" → e_data e' !! k = e_data e !! k.

(** Two elements that differ at most in the data fields [keys]. *)
Definition agree_off (keys : list string) (e e' : Ele) : Prop :=
  e_id e' = e_id e ∧ e_ends e' = e_ends e ∧ e_classes e' = e_classes e
  ∧ e_selected e' = e_selected e
  ∧ ∀ k, k ∉ keys → e_data e' !! k = e_data e !! k.

(** Updates that keep the identity and the end points of an element. *)
Definition keeps_shape (f : Ele → Ele) : Prop :=
  ∀ e, e_id (f e) = e_id e ∧ e_ends (f e) = e_ends e.

(** The records [mergeToGraph] stages for addition, and the graph its loop
    and [cy.add] leave before the metrics are recomputed. *)
Definition staged (l : list ElementDefinition) (cy : Core)
  : list ElementDefinition :=
  filter (λ n, def_id n ∉ elements cy) l.

Definition merged_store (l : list ElementDefinition) (cy : Core) : Core :=
  (add (staged l cy) (merge_all l <$> cy)).1.

(** A record of the list [l] that [cy.add] takes when its turn comes: its
    identity is not empty and, for an edge record, each end point is the
    identity of an element of the graph or of a node record of the list. *)
Definition knownEnd (l : list ElementDefinition) (cy : Core) (i : string) : Prop :=
  i ≠ "" ∧ (i ∈ elements cy ∨ ∃ n, n ∈ l ∧ def_id n = i ∧ def_ends n = None).

Definition restorable (l : list ElementDefinition) (cy : Core)
  (d : ElementDefinition) : Prop :=
  def_id d ≠ ""
  ∧ match def_ends d with
    | None => True
    | Some (s, t) => knownEnd l cy s ∧ knownEnd l cy t
    end.

(** Class changes that leave the class [expanded] where it is. *)
Definition keeps_expanded (e e' : Ele) : Prop :=
  e_id e' = e_id e
  ∧ (hasClass CLASS_EXPANDED e = true → hasClass CLASS_EXPANDED e' = true).

End PerElement.

(** ** Sample graphs and records *)

Module Examples.

Import Cy View.

(** Node [A], pinned and expanded, with a field the stores do not send. *)
Definition nodeA : Ele :=
  mkEle "core:A" None {["name" := JStr "A"; "extra" := JNum 1]}
        {["pinned"; "expanded"]} false.

Definition nodeB : Ele :=
  mkEle "core:B" None {["name" := JStr "B"]} {["expanded"]} false.

Definition nodeC : Ele :=
  mkEle "core:C" None {["name" := JStr "C"]} ∅ true.

Definition edgeBC : Ele :=
  mkEle "core:B->core:C" (Some ("core:B", "core:C")) ∅ ∅ false.

(** The record a re-fetch returns for [A]: a new name and the class
    [visited] only. *)
Definition recA : ElementDefinition :=
  mkDef "core:A" None {["name" := JStr "A2"]} (Some ["visited"]).

(** Two records with the same identity. *)
Definition recX1 : ElementDefinition :=
  mkDef "core:X" None {["name" := JStr "X"]} (Some ["draft"]).
Definition recX2 : ElementDefinition :=
  mkDef "core:X" None {["name" := JStr "X"]} (Some ["final"]).

Definition recHome : ElementDefinition :=
  mkDef "core:Home" None {["name" := JStr "Home"]} None.
Definition recB : ElementDefinition :=
  mkDef "core:B" None {["name" := JStr "B"]} None.
Definition nodeHome : Ele :=
  mkEle "core:Home" None {["name" := JStr "Home"]} ∅ true.

(** An edge record between [Home] and [B], and one to a node no store
    returned. *)
Definition recHomeB : ElementDefinition :=
  mkDef "core:Home->core:B" (Some ("core:Home", "core:B")) ∅ None.
Definition recHomeZ : ElementDefinition :=
  mkDef "core:Home->core:Z" (Some ("core:Home", "core:Z")) ∅ None.

(** A node with two tags, and a record whose class list names one of them
    twice. *)
Definition nodeT : Ele :=
  mkEle "core:T" None {["name" := JStr "T"]} {["note"; "draft"]} false.
Definition recT : ElementDefinition :=
  mkDef "core:T" None {["name" := JStr "T"]} (Some ["note"; "note"]).

(** A store that answers, one that also returns an edge to a node outside
    the graph, and one whose promises reject. *)
Definition goodStore : IDataStore :=
  mkStore "core" (λ _, Ok [recHome; recB]) (λ _ _, Ok [recHomeB]).
Definition danglingStore : IDataStore :=
  mkStore "core" (λ _, Ok [recHome; recB]) (λ _ _, Ok [recHomeB; recHomeZ]).
Definition offlineStore : IDataStore :=
  mkStore "neo4j" (λ _, Thrown (Rejected "offline"))
          (λ _ _, Thrown (Rejected "offline")).

End Examples.

(** ** Identities of files *)

Module Files.

(** The fields of the host's [TFile] that the view reads. *)
Record TFile : Type := mkFile {
  basename : string;
  extension : string;
  name : string;
  path : string }.

(** [static fromFile(file)]: markdown files go by their base name, other
    files by their full name; the store is always [core]. *)
Definition fromFile (file : TFile) : VizId.t :=
  let name := if bool_decide (extension file = "md") then basename file
              else name file in
  VizId.mk name "core".

End Files.

(** ** Icon registration ([ui/icons.ts]) *)

Module Icons.

(** [s.replace(c, d)] with a string pattern: the first occurrence only. *)
Fixpoint replace (c d : ascii) (s : string) : string :=
  match s with
  | EmptyString => EmptyString
  | String x s' =>
      if Ascii.eqb x c then String d s' else String x (replace c d s')
  end.

Definition underscore : ascii := "_"%char.
Definition hyphen : ascii := "-"%char.

(** The name an icon is registered under:
    [key.replace('_', '-').replace('_', '-')]. *)
Definition iconName (key : string) : string :=
  replace underscore hyphen (replace underscore hyphen key).

Definition quote : string := String (ascii_of_nat 34) EmptyString.
Definition newline : string := String (ascii_of_nat 10) EmptyString.

(** [pathToSvg(icon)]. *)
Definition pathToSvg (icon : string) : string :=
  newline ++ "    <svg style= " ++ quote ++ "width:24px;height:24px" ++ quote
  ++ " viewBox=" ++ quote ++ "0 0 24 24" ++ quote
  ++ " xmlns=" ++ quote ++ "http://www.w3.org/2000/svg" ++ quote ++ ">"
  ++ newline ++ "        <path fill=" ++ quote ++ "currentcolor" ++ quote
  ++ " d=" ++ quote ++ icon ++ quote ++ " />"
  ++ newline ++ "    </svg>".

Section WithPaths.

(** The icon paths exported by [@mdi/js], by export name. *)
Variable mdiIcons : string → string.

(** [icons: Record<string, string>], in the order of its keys. *)
Definition icons : list (string * string) :=
  [ ("ag_expand", mdiIcons "mdiArrowExpandAll");
    ("ag_select_all", mdiIcons "mdiSelectAll");
    ("ag_select_inverse", mdiIcons "mdiSelectCompare");
    ("ag_select_neighbors", mdiIcons "mdiSelectGroup");
    ("ag_lock", mdiIcons "mdiLock");
    ("ag_unlock", mdiIcons "mdiLockOpenVariantOutline");
    ("ag_hide", mdiIcons "mdiEyeOff") ].

(** [addIcons()]: the calls of [addIcon(name, svg)] it makes, in order. *)
Definition addIcons : list (string * string) :=
  (λ kv, (iconName kv.1, pathToSvg kv.2)) <$> icons.

End WithPaths.

(** The number of occurrences of a character. *)
Fixpoint count (c : ascii) (s : string) : nat :=
  match s with
  | EmptyString => 0
  | String x s' => (if Ascii.eqb x c then 1 else 0) + count c s'
  end.

(** The icons the context menu of the view asks for ([setIcon]). *)
Definition menuIcons : list string :=
  ["ag-expand"; "ag-hide"; "ag-select-all"; "ag-select-inverse";
   "ag-select-neighbors"; "ag-lock"; "ag-unlock"].

End Icons.

(** ** Locks, pinning, hover classes, context menu and keys

    The part of the view that also moves the position locks of the
    elements.  A session is the graph together with the identities of its
    locked elements. *)

Module Session.

Import Cy View.

Record t : Type := mk {
  viz : Core;
  locks : gset string }.

(** [eles.lock()], [eles.unlock()]. *)
Definition lock (coll : Collection) (s : t) : t :=
  mk (viz s) (locks s ∪ list_to_set coll).
Definition unlock (coll : Collection) (s : t) : t :=
  mk (viz s) (locks s ∖ list_to_set coll).

(** Run a change of the graph in the session. *)
Definition onViz (f : Core → Core) (s : t) : t := mk (f (viz s)) (locks s).

(** [pinSelection], [unpinSelection]. *)
Definition pinSelection (s : t) : t :=
  let sel := selectedNodes (viz s) in
  onViz (addClass sel CLASS_PINNED) (lock sel s).

Definition unpinSelection (s : t) : t :=
  let sel := selectedNodes (viz s) in
  onViz (removeClass sel [CLASS_PINNED]) (unlock sel s).

Definition hoverClasses : list string := ["hover"; "unhover"; "connected-hover"].

(** The [mouseover] handler for nodes: the lock and the classes. *)
Definition mouseoverNode (node : string) (s : t) : t :=
  let s := unlock [node] s in
  onViz (λ cy,
    let cy := addClass (difference (elements cy) (closedNeighborhood [node] cy))
                "unhover" cy in
    let cy := addClass [node] "hover" cy in
    let cy := addClass (connectedEdges [node] cy) "connected-hover" cy in
    addClass (connectedNodes (connectedEdges [node] cy) cy) "connected-hover" cy) s.

(** The [mouseover] handler for edges. *)
Definition mouseoverEdge (edge : string) (s : t) : t :=
  onViz (λ cy,
    let cy := addClass (difference (elements cy)
                          (merge (connectedNodes [edge] cy) [edge]))
                "unhover" cy in
    let cy := addClass [edge] "hover" cy in
    addClass (connectedNodes [edge] cy) "connected-hover" cy) s.

(** The [mouseout] handler for an element: the classes and the lock. *)
Definition mouseout (target : string) (s : t) : t :=
  let s := onViz (λ cy, removeClass (elements cy) hoverClasses cy) s in
  match getElementById target (viz s) with
  | Some e => if hasClass CLASS_PINNED e then lock [target] s else s
  | None => s
  end.

(** The [dragfree] handler locks the node; when the layout stops the node is
    unlocked again unless it is pinned. *)
Definition dragfree (node : string) (s : t) : t := lock [node] s.

Definition layoutstopAfterDrag (node : string) (s : t) : t :=
  match getElementById node (viz s) with
  | Some e => if hasClass CLASS_PINNED e then s else unlock [node] s
  | None => unlock [node] s
  end.

(** What was right-clicked: the background or an element. *)
Inductive Target : Type :=
  | OnCore
  | OnElement (i : string).

(** The [cxttap] handler: a node that is right-clicked gets selected; the
    result is the titles of the menu items added by the view (the items the
    host contributes are not part of it). *)
Definition cxttap (target : Target) (s : t) : t * list string :=
  let s :=
    match target with
    | OnElement i => if hasNodeWithId i (viz s) then onViz (select [i]) s else s
    | OnCore => s
    end in
  let selection := selectedNodes (viz s) in
  let pinned := getPinned (viz s) in
  (s,
   ((if bool_decide (0 < length selection)
     then ["Expand selection (E)"; "Hide selection (H)"; "Select all (A)";
           "Invert selection (I)"]
     else [])
    ++ (if bool_decide (0 < length selection)
        then ["Select neighbors (N)"]
             ++ (if bool_decide (0 < length (difference selection pinned))
                 then ["Pin selection (P)"] else [])
             ++ (if bool_decide (0 < length (intersection selection pinned))
                 then ["Unpin selection (U)"] else [])
        else []))%list).

Section WithStores.

Variable datastores : list IDataStore.

(** The [keydown] handler; [active] says that the view is the active leaf.
    The promise of [expandSelection] is not awaited, so its rejection does
    not reach the handler. *)
Definition keydown (key : string) (active : bool) (s : t) : t :=
  if negb active then s
  else if bool_decide (key = "e")
    then onViz (λ cy, (expandSelection datastores cy).1) s
  else if bool_decide (key = "h") || bool_decide (key = "Backspace")
    then onViz (λ cy, (removeSelection cy).1) s
  else if bool_decide (key = "i") then onViz (λ cy, (invertSelection cy).1) s
  else if bool_decide (key = "a") then onViz (λ cy, (selectAll cy).1) s
  else if bool_decide (key = "n") then onViz (λ cy, (selectNeighbourhood cy).1) s
  else if bool_decide (key = "p") then pinSelection s
  else if bool_decide (key = "u") then unpinSelection s
  else s.

End WithStores.

(** The locked elements are the pinned nodes. *)
Definition locksArePins (s : t) : Prop :=
  ∀ i, i ∈ locks s ↔ i ∈ getPinned (viz s).

End Session.

(** ** Graph invariants *)

Module Invariants.

Import Cy.

(** Every edge of the graph joins two nodes of the graph. *)
Definition closed (cy : Core) : Prop :=
  ∀ e s t, e ∈ cy → e_ends e = Some (s, t) → s ∈ nodes cy ∧ t ∈ nodes cy.

(** A well-formed graph: identities are unique and no edge dangles. *)
Definition wf (cy : Core) : Prop := NoDup (elements cy) ∧ closed cy.

End Invariants.

(** ** Names and refreshed metrics *)

Module Refresh.

Import Cy View PerElement.

(** An element whose [name] field can be measured: present and not
    [null]. *)
Definition named (e : Ele) : Prop :=
  ∃ v, e_data e !! "name" = Some v ∧ v ≠ JNull.

(** A record that does not set the name to [null]. *)
Definition keepsName (n : ElementDefinition) : Prop :=
  def_data n !! "name" ≠ Some JNull.

(** A record with a measurable name. *)
Definition namedDef (n : ElementDefinition) : Prop :=
  ∃ v, def_data n !! "name" = Some v ∧ v ≠ JNull.

(** What a completed [onGraphChanged] leaves of one element. *)
Definition refreshed (deg : string → Z) (e : Ele) : Ele :=
  if isNode e then
    match jsLength (e_data e !! "name") with
    | Ok len => with_nameLength len (with_degree (deg (e_id e)) e)
    | Thrown _ => with_degree (deg (e_id e)) e
    end
  else e.

(** The outcome completed normally. *)
Definition completes {A} (r : Core * Outcome A) : Prop :=
  match r.2 with Ok _ => True | Thrown _ => False end.

End Refresh.

(** An operation of the view that keeps the graph well-formed, whether it
    completes or throws. *)
Module Preservation.

Import Cy View Invariants.

Definition preserves {A} (m : M A) : Prop :=
  ∀ cy, wf cy → wf (m cy).1.

(** An operation that keeps the identities of the graph unique, whether it
    completes or throws. *)
Definition unique {A} (m : M A) : Prop :=
  ∀ cy, NoDup (elements cy) → NoDup (elements (m cy).1).

End Preservation.

(** Two graphs with the same elements at the same places, up to classes,
    data and selection. *)
Module Shape.

Import Cy.

Definition sameShape (cy cy' : Core) : Prop :=
  Forall2 (λ e e', e_id e' = e_id e ∧ e_ends e' = e_ends e) cy cy'.

End Shape.

(** ** The [file-open] handler of [onOpen] *)

Module FileOpen.

Import Cy View Files.

Section WithStores.

Variable datastores : list IDataStore.

(** [dataStore.get(id)]: the promise of the record of one node. *)
Variable get_node : IDataStore → VizId.t → Outcome ElementDefinition.

(** The loop over the stores: the first store whose identity is [core] is
    asked for the node, the node and the edges that connect it are added,
    and the loop is left; the result is [followImmediate]. *)
Fixpoint addFromCore (stores : list IDataStore) (id : VizId.t) : M bool :=
  match stores with
  | [] => ret true
  | dataStore :: rest =>
      if bool_decide (storeId dataStore = "core") then
        node <~ await (get_node dataStore id) ;>
        add [node] ;>
        edges <~ buildEdges datastores [VizId.toId id] ;>
        add edges ;>
        onGraphChanged ;>
        ret false
      else addFromCore rest id
  end.

(** [this.viz.$id(i)] as a collection. *)
Definition byId (i : string) (cy : Core) : Collection :=
  if hasElementWithId i cy then [i] else [].

(** The handler; [file] is [None] when the host reports no file. *)
Definition fileOpen (file : option TFile) (autoAddNodes : bool) : M unit :=
  match file with
  | Some file =>
      if autoAddNodes then
        let id := VizId.mk (basename file) "core" in
        cy <~ get ;>
        followImmediate <~
          (if hasElementWithId (VizId.toId id) cy then ret true
           else addFromCore datastores id) ;>
        cy <~ get ;>
        updateActiveFile (byId (VizId.toId id) cy) followImmediate
      else ret tt
  | None => ret tt
  end.

End WithStores.

End FileOpen.
(** ** Facts about the identity scheme *)

Section IdentityFacts.

Import VizId.

Lemma split_nonempty c s : Js.split c s ≠ [].
Proof.
  destruct s as [|d s]; simpl; [done|].
  destruct (Ascii.eqb d c); [done|].
  by destruct (Js.split c s).
Qed.

Lemma split_no_sep c s : Js.includes c s = false → Js.split c s = [s].
Proof.
  induction s as [|d s IH]; simpl; [done|].
  intros H. apply orb_false_iff in H as [Hd Hs].
  rewrite Hd, (IH Hs). done.
Qed.

Lemma split_app_sep c a b :
  Js.includes c a = false →
  Js.split c (a ++ String c b) = a :: Js.split c b.
Proof.
  induction a as [|d a IH]; simpl.
  - intros _. by rewrite Ascii.eqb_refl.
  - intros H. apply orb_false_iff in H as [Hd Ha].
    rewrite Hd, (IH Ha). done.
Qed.

Lemma join_split c s : Js.join (String c EmptyString) (Js.split c s) = s.
Proof.
  induction s as [|d s IH]; simpl; [done|].
  destruct (Ascii.eqb_spec d c) as [->|Hne].
  - pose proof (split_nonempty c s) as Hn.
    destruct (Js.split c s) as [|p ps] eqn:E; [done|].
    simpl in *. by rewrite IH.
  - pose proof (split_nonempty c s) as Hn.
    destruct (Js.split c s) as [|p ps] eqn:E; [done|].
    destruct ps as [|q qs]; simpl in *; by rewrite <- IH.
Qed.

Lemma fromId_store_rest a b :
  Js.includes sep a = false →
  fromId (a ++ String sep b) = mk b a.
Proof.
  intros Ha. unfold fromId, Js.slice1. rewrite (split_app_sep _ _ _ Ha).
  cbn [hd]. rewrite skipn_cons, drop_0. by rewrite join_split.
Qed.

End IdentityFacts.

(** ** Claims about the identity scheme *)

Section IdentityClaims.

Import VizId.

(** C2 (as stated, refuted): encoding then decoding is not the identity for
    every pair of strings: a store id that itself contains the separator is
    cut at its first [:], here [("c", "a:b")] comes back as [("b:c", "a")]. *)
Lemma C2_roundtrip_fails_for_store_with_separator :
  toString (mk "c" "a:b") = "a:b:c"
  ∧ fromId (toString (mk "c" "a:b")) = mk "b:c" "a"
  ∧ fromId (toString (mk "c" "a:b")) ≠ mk "c" "a:b".
Proof. repeat split; [reflexivity..|discriminate]. Qed.

(** C2 (amended): for every local id, and every store id that does not
    contain the separator [:], decoding the canonical string
    [storeId:localId] gives back exactly the pair, also when the local id
    contains [:]; decoding cuts at the first separator only. *)
Theorem C2_roundtrip (localId storeId : string) :
  Js.includes sep storeId = false →
  toString (mk localId storeId) = storeId ++ ":" ++ localId
  ∧ fromId (toString (mk localId storeId)) = mk localId storeId.
Proof.
  intros H. split; [done|].
  unfold toString. simpl. by apply fromId_store_rest.
Qed.

Lemma C2_roundtrip_witness :
  Js.includes sep "core" = false
  ∧ fromId (toString (mk "notes:2021:todo" "core")) = mk "notes:2021:todo" "core".
Proof.
  split; [reflexivity|].
  exact (proj2 (C2_roundtrip "notes:2021:todo" "core" eq_refl)).
Defined.

(** C10: decoding is defined on every string, and a string without the
    separator [:] decodes to the identity whose store id is the whole
    string and whose local id is empty. *)
Theorem C10_fromId_no_separator (s : string) :
  Js.includes sep s = false →
  fromId s = mk "" s.
Proof.
  intros H. unfold fromId, Js.slice1. by rewrite (split_no_sep _ _ H).
Qed.

Lemma C10_fromId_no_separator_witness :
  Js.includes sep "Home" = false ∧ fromId "Home" = mk "" "Home".
Proof.
  split; [reflexivity|]. exact (C10_fromId_no_separator "Home" eq_refl).
Defined.

End IdentityClaims.

(** ** Facts about the graph store *)

Section StoreFacts.

Import Cy PerElement.

Implicit Types (cy : Core) (coll : Collection) (e : Ele) (f : Ele → Ele).

Lemma keeps_shape_set_classes c : keeps_shape (set_classes c).
Proof. done. Qed.
Lemma keeps_shape_set_data m : keeps_shape (set_data m).
Proof. done. Qed.
Lemma keeps_shape_set_selected b : keeps_shape (set_selected b).
Proof. done. Qed.

Lemma elements_update coll f cy :
  (∀ e, e_id (f e) = e_id e) → elements (update coll f cy) = elements cy.
Proof.
  intros Hf. unfold elements, update. rewrite <- list_fmap_compose.
  apply list_fmap_ext. intros i e _. simpl. case_decide; [apply Hf|done].
Qed.

Lemma isNode_keeps_shape f e : keeps_shape f → isNode (f e) = isNode e.
Proof. intros Hf. unfold isNode. by rewrite (proj2 (Hf e)). Qed.

Lemma nodes_update coll f cy :
  keeps_shape f → nodes (update coll f cy) = nodes cy.
Proof.
  intros Hf. unfold nodes, update. induction cy as [|e cy IH]; [done|].
  rewrite fmap_cons, !filter_cons.
  destruct (decide (e_id e ∈ coll)) as [Hin|Hin].
  - rewrite (isNode_keeps_shape f e Hf).
    case_decide; rewrite ?fmap_cons, IH, ?(proj1 (Hf e)); done.
  - case_decide; rewrite ?fmap_cons, IH; done.
Qed.

Lemma update_not_in coll f cy :
  (∀ i, i ∈ coll → i ∉ elements cy) → update coll f cy = cy.
Proof.
  intros H. unfold update. rewrite <- (list_fmap_id cy) at 2.
  apply list_fmap_ext. intros i e He. simpl. case_decide as Hin; [|done].
  exfalso. apply (H _ Hin). apply list_elem_of_fmap. exists e. split; [done|].
  by apply list_elem_of_lookup_2 in He.
Qed.

Lemma elem_of_update e' coll f cy :
  e' ∈ update coll f cy ↔
  ∃ e, e ∈ cy ∧ e' = (if decide (e_id e ∈ coll) then f e else e).
Proof.
  unfold update. rewrite list_elem_of_fmap. split.
  - intros (e & -> & He). by exists e.
  - intros (e & He & ->). by exists e.
Qed.

Lemma getElementById_Some i cy e :
  getElementById i cy = Some e → e ∈ cy ∧ e_id e = i.
Proof.
  unfold getElementById. intros H. apply find_some in H as [Hin Hb].
  apply bool_decide_eq_true in Hb. split; [|done]. by apply list_elem_of_In.
Qed.

Lemma getElementById_None i cy :
  getElementById i cy = None ↔ i ∉ elements cy.
Proof.
  unfold getElementById, elements. split.
  - intros H Hin. apply list_elem_of_fmap in Hin as (e & -> & He).
    apply list_elem_of_In in He.
    pose proof (find_none _ _ H e He) as Hb. simpl in Hb.
    by apply bool_decide_eq_false in Hb.
  - intros H. destruct (find _ cy) as [e|] eqn:E; [|done].
    apply find_some in E as [Hin Hb]. apply bool_decide_eq_true in Hb.
    exfalso. apply H. apply list_elem_of_fmap. exists e.
    split; [done|]. by apply list_elem_of_In.
Qed.

(** In a graph with unique identities, an element is found by its
    identity. *)
Lemma getElementById_unique cy e :
  NoDup (elements cy) → e ∈ cy → getElementById (e_id e) cy = Some e.
Proof.
  unfold elements, getElementById. induction cy as [|a cy IH]; intros Hnd He.
  - by apply elem_of_nil in He.
  - rewrite fmap_cons in Hnd. apply NoDup_cons in Hnd as [Hna Hnd].
    simpl. case_bool_decide as Ha.
    + apply elem_of_cons in He as [->|He]; [done|].
      exfalso. apply Hna. rewrite Ha. by apply list_elem_of_fmap_2.
    + apply elem_of_cons in He as [->|He]; [done|]. by apply IH.
Qed.

Lemma same_id_same_ele cy e1 e2 :
  NoDup (elements cy) → e1 ∈ cy → e2 ∈ cy → e_id e1 = e_id e2 → e1 = e2.
Proof.
  intros Hnd H1 H2 Hid.
  pose proof (getElementById_unique cy e1 Hnd H1) as G1.
  pose proof (getElementById_unique cy e2 Hnd H2) as G2.
  rewrite Hid in G1. congruence.
Qed.

End StoreFacts.

(** ** Selection *)

Section SelectionFacts.

Import Cy View.

Lemma selected_elem i (cy : Core) :
  i ∈ selected cy ↔ ∃ e, e ∈ cy ∧ e_id e = i ∧ e_selected e = true.
Proof.
  unfold selected. rewrite list_elem_of_fmap. split.
  - intros (e & -> & He). apply list_elem_of_filter in He as [Hs He].
    by exists e.
  - intros (e & He & <- & Hs). exists e. split; [done|].
    apply list_elem_of_filter. done.
Qed.

Lemma invertSelection_flips (cy : Core) :
  (invertSelection cy).1 =
  (λ e, set_selected (bool_decide (e_id e ∉ selected cy)) e) <$> cy.
Proof.
  unfold invertSelection, modify, select, unselect, absoluteComplement. simpl.
  rewrite elements_update by done. unfold update at 1 2.
  rewrite <- list_fmap_compose. apply list_fmap_ext. intros n e Hn. simpl.
  apply list_elem_of_lookup_2 in Hn.
  destruct (decide (e_id e ∈ selected cy)) as [Hs|Hs]; simpl.
  - rewrite decide_False.
    + rewrite bool_decide_eq_false_2; [done|]. by intros H.
    + intros H. apply list_elem_of_filter in H as [H _]. by apply H.
  - rewrite decide_True.
    + by rewrite bool_decide_eq_true_2.
    + apply list_elem_of_filter. split; [done|].
      by apply list_elem_of_fmap_2.
Qed.

Lemma set_selected_same (e : Ele) : set_selected (e_selected e) e = e.
Proof. by destruct e. Qed.

Lemma selected_after_invert i (cy : Core) :
  i ∈ elements cy →
  i ∈ selected (invertSelection cy).1 ↔ i ∉ selected cy.
Proof.
  intros Hi. rewrite invertSelection_flips. rewrite !selected_elem. split.
  - intros (e' & He' & Hid & Hsel) (e0 & He0 & Hid0 & Hsel0).
    apply list_elem_of_fmap in He' as (e1 & -> & He1). simpl in *.
    apply bool_decide_eq_true in Hsel. apply Hsel.
    apply selected_elem. exists e0. rewrite Hid. done.
  - intros Hno. apply list_elem_of_fmap in Hi as (e & -> & He).
    exists (set_selected true e). simpl.
    split; [|done]. apply list_elem_of_fmap.
    exists e. split; [|done].
    rewrite bool_decide_eq_true_2; [done|].
    intros H. apply Hno. by apply selected_elem.
Qed.

Lemma invertSelection_involutive (cy : Core) :
  NoDup (elements cy) →
  (invertSelection (invertSelection cy).1).1 = cy.
Proof.
  intros Hnd. rewrite (invertSelection_flips (invertSelection cy).1).
  pose proof (selected_after_invert) as Hiff. specialize (λ i, Hiff i cy).
  remember (selected (invertSelection cy).1) as S eqn:HS. clear HS.
  rewrite (invertSelection_flips cy).
  rewrite <- list_fmap_compose. rewrite <- (list_fmap_id cy) at 2.
  apply list_fmap_ext. intros n e Hn. simpl.
  apply list_elem_of_lookup_2 in Hn.
  assert (Hi : e_id e ∈ elements cy) by (by apply list_elem_of_fmap_2).
  specialize (Hiff _ Hi).
  destruct e as [i ends d c s]. unfold set_selected. simpl in *. f_equal.
  destruct s.
  - apply bool_decide_eq_true_2. rewrite Hiff. intros Hno. apply Hno.
    apply selected_elem. by exists (mkEle i ends d c true).
  - apply bool_decide_eq_false_2. rewrite Hiff. intros Hno. apply Hno.
    intros (e0 & He0 & Hid0 & Hsel0)%selected_elem.
    assert (e0 = mkEle i ends d c false) as ->
      by (by apply (same_id_same_ele cy)).
    done.
Qed.

Lemma selectAll_then_invert_no_selected_node (cy : Core) :
  selectedNodes (invertSelection (selectAll cy).1).1 = [].
Proof.
  rewrite invertSelection_flips. unfold selectedNodes.
  set (cy1 := (selectAll cy).1).
  assert (E : filter (λ e, isNode e = true ∧ e_selected e = true)
                ((λ e, set_selected (bool_decide (e_id e ∉ selected cy1)) e) <$> cy1) = []).
  { apply elem_of_nil_inv. intros e' He'.
    apply list_elem_of_filter in He' as [[Hnode Hsel] He'].
    apply list_elem_of_fmap in He' as (e1 & -> & He1). simpl in *.
    apply bool_decide_eq_true in Hsel. apply Hsel.
    apply selected_elem. exists e1. split; [done|]. split; [done|].
    unfold cy1, selectAll, modify, select in He1. simpl in He1.
    apply elem_of_update in He1 as (e0 & He0 & ->).
    rewrite decide_True; [done|].
    unfold nodes. apply list_elem_of_fmap. exists e0. split; [done|].
    apply list_elem_of_filter. split; [|done].
    revert Hnode. unfold set_selected, isNode. simpl.
    case_decide; simpl; done. }
  by rewrite E.
Qed.

End SelectionFacts.

(** ** Hiding nodes *)

Section RemoveFacts.

Import Cy View.

Lemma nodesWithClass_elem c i (cy : Core) :
  i ∈ nodesWithClass c cy ↔
  ∃ e, e ∈ cy ∧ e_id e = i ∧ isNode e = true ∧ hasClass c e = true.
Proof.
  unfold nodesWithClass. rewrite list_elem_of_fmap. split.
  - intros (e & -> & He). apply list_elem_of_filter in He as [[Hn Hc] He].
    by exists e.
  - intros (e & He & <- & Hn & Hc). exists e. split; [done|].
    by apply list_elem_of_filter.
Qed.

Lemma nodes_elem i (cy : Core) :
  i ∈ nodes cy ↔ ∃ e, e ∈ cy ∧ e_id e = i ∧ isNode e = true.
Proof.
  unfold nodes. rewrite list_elem_of_fmap. split.
  - intros (e & -> & He). apply list_elem_of_filter in He as [Hn He].
    by exists e.
  - intros (e & He & <- & Hn). exists e. split; [done|].
    by apply list_elem_of_filter.
Qed.

(** The node at the other end of an edge connected to a node of the
    collection is in the neighbourhood of the collection. *)
Lemma neighborhood_other_end (cy : Core) (coll : Collection) (edge : Ele) b c :
  edge ∈ cy →
  e_ends edge = Some (b, c) ∨ e_ends edge = Some (c, b) →
  c ∈ coll → c ∈ nodes cy → b ∈ elements cy →
  b ∈ neighborhood coll cy.
Proof.
  intros Hedge Hends Hc Hnode Hb. unfold neighborhood.
  apply elem_of_remove_dups. apply list_elem_of_bind. exists c. split.
  2:{ apply list_elem_of_filter. split; [|done].
      unfold hasNodeWithId. by apply bool_decide_eq_true_2. }
  apply list_elem_of_bind. exists edge. split.
  2:{ apply list_elem_of_filter. split; [|done]. unfold touches.
      destruct Hends as [-> | ->];
        rewrite (bool_decide_eq_true_2 (c = c)) by done;
        by rewrite ?orb_true_r. }
  apply elem_of_app. left. apply list_elem_of_filter. split.
  - unfold hasElementWithId. by apply bool_decide_eq_true_2.
  - unfold otherEnd. destruct Hends as [-> | ->]; case_decide; subst;
      by apply list_elem_of_singleton.
Qed.

(** What [remove] lists: the elements of the collection that are in the
    graph, and the edges connected to the nodes among them. *)
Lemma addConnectedEdges_elem (acc : Collection) (es : list Ele) x :
  x ∈ addConnectedEdges acc es ↔ x ∈ acc ∨ x ∈ e_id <$> es.
Proof.
  unfold addConnectedEdges. revert acc.
  induction es as [|e es IH]; intros acc; simpl.
  - rewrite elem_of_nil. tauto.
  - rewrite IH, elem_of_cons. case_decide as Hin.
    + split; [tauto|]. intros [H|[->|H]]; tauto.
    + rewrite elem_of_cons. tauto.
Qed.

Lemma addConnectedEdges_NoDup (acc : Collection) (es : list Ele) :
  NoDup acc → NoDup (addConnectedEdges acc es).
Proof.
  unfold addConnectedEdges. revert acc.
  induction es as [|e es IH]; intros acc Hnd; [done|]. simpl.
  apply IH. case_decide; [done|]. by apply NoDup_cons.
Qed.

Lemma node_is_no_edge (cy : Core) i edge j :
  NoDup (elements cy) → i ∈ nodes cy → edge ∈ cy → touches j edge = true →
  e_id edge ≠ i.
Proof.
  intros Hnd Hi He Ht Heq. apply nodes_elem in Hi as (a & Ha & Hid & Hn).
  assert (a = edge) as -> by (apply (same_id_same_ele cy); congruence).
  unfold isNode in Hn. apply bool_decide_eq_true in Hn.
  unfold touches in Ht. by rewrite Hn in Ht.
Qed.

Lemma getElementById_node (cy : Core) i ele :
  NoDup (elements cy) → getElementById i cy = Some ele →
  (isNode ele = true ↔ i ∈ nodes cy).
Proof.
  intros Hnd Hget. apply getElementById_Some in Hget as [He Hid]. split.
  - intros Hn. apply nodes_elem. by exists ele.
  - intros Hi. apply nodes_elem in Hi as (a & Ha & Hida & Hn).
    assert (a = ele) as <- by (apply (same_id_same_ele cy); congruence).
    done.
Qed.

Lemma addToRemove_spec (cy : Core) (acc : Collection) i :
  NoDup (elements cy) →
  (∀ j e, j ∈ acc → j ∈ nodes cy → e ∈ cy → touches j e = true →
          e_id e ∈ acc) →
  (∀ j e, j ∈ addToRemove cy acc i → j ∈ nodes cy → e ∈ cy →
          touches j e = true → e_id e ∈ addToRemove cy acc i)
  ∧ ∀ x, x ∈ addToRemove cy acc i ↔
         x ∈ acc
         ∨ (x = i ∧ i ∈ elements cy)
         ∨ (i ∈ nodes cy ∧ ∃ e, e ∈ cy ∧ e_id e = x ∧ touches i e = true).
Proof.
  intros Hnd Hclosed. unfold addToRemove.
  destruct (getElementById i cy) as [ele|] eqn:Hget.
  - pose proof (getElementById_node cy i ele Hnd Hget) as Hnode.
    apply getElementById_Some in Hget as [Hele Hid].
    assert (Hi : i ∈ elements cy)
      by (rewrite <- Hid; by apply list_elem_of_fmap_2).
    destruct (decide (i ∈ acc)) as [Hin|Hout].
    + split; [done|]. intros x. split; [tauto|].
      intros [H|[[-> _]|(Hn & e & He & <- & Ht)]]; [done|done|].
      by apply (Hclosed i e).
    + destruct (isNode ele) eqn:Hn.
      * assert (Hin : i ∈ nodes cy) by (by apply Hnode).
        assert (Hx : ∀ x, x ∈ addConnectedEdges (acc ++ [i])
                                 (filter (λ e, touches i e = true) cy)
                          ↔ x ∈ acc ∨ x = i
                            ∨ ∃ e, e ∈ cy ∧ e_id e = x ∧ touches i e = true).
        { intros x. rewrite addConnectedEdges_elem, elem_of_app.
          rewrite list_elem_of_singleton, list_elem_of_fmap.
          split.
          - intros [[H|H]|(e & -> & He)]; [tauto|tauto|].
            apply list_elem_of_filter in He as [Ht He].
            right. right. by exists e.
          - intros [H|[H|(e & He & <- & Ht)]]; [tauto|tauto|].
            right. exists e. split; [done|]. by apply list_elem_of_filter. }
        split.
        -- intros j e Hj Hjn He Ht. apply Hx. apply Hx in Hj
             as [Hj|[->|(e0 & He0 & <- & Ht0)]].
           ++ left. by apply (Hclosed j e).
           ++ right. right. by exists e.
           ++ exfalso. by apply (node_is_no_edge cy (e_id e0) e0 i).
        -- intros x. rewrite Hx. split.
           ++ intros [H|[->|H]]; [tauto|tauto|]. right. right. done.
           ++ intros [H|[[-> _]|[_ H]]]; tauto.
      * assert (Hnot : i ∉ nodes cy).
        { intros Hin. apply Hnode in Hin. congruence. }
        split.
        -- intros j e Hj Hjn He Ht. apply elem_of_cons in Hj as [->|Hj];
             [done|]. right. by apply (Hclosed j e).
        -- intros x. rewrite elem_of_cons. split.
           ++ intros [->|H]; tauto.
           ++ intros [H|[[-> _]|[H _]]]; tauto.
  - apply getElementById_None in Hget. split; [done|].
    intros x. split; [tauto|].
    intros [H|[[_ H]|[H _]]]; [done|done|].
    exfalso. apply Hget. apply nodes_elem in H as (a & Ha & <- & _).
    by apply list_elem_of_fmap_2.
Qed.

Lemma addToRemove_NoDup (cy : Core) (acc : Collection) i :
  NoDup acc → NoDup (addToRemove cy acc i).
Proof.
  intros Hnd. unfold addToRemove.
  destruct (getElementById i cy) as [ele|]; [|done].
  destruct (decide (i ∈ acc)) as [Hin|Hout]; [done|].
  destruct (isNode ele).
  - apply addConnectedEdges_NoDup. apply NoDup_app. split; [done|].
    split; [|apply NoDup_singleton].
    intros x Hx Hx'. apply list_elem_of_singleton in Hx'. by subst x.
  - by apply NoDup_cons.
Qed.

Lemma elesToRemove_fold (cy : Core) (coll acc : Collection) :
  NoDup (elements cy) →
  (∀ j e, j ∈ acc → j ∈ nodes cy → e ∈ cy → touches j e = true →
          e_id e ∈ acc) →
  ∀ x, x ∈ foldl (addToRemove cy) acc coll ↔
       x ∈ acc
       ∨ (x ∈ coll ∧ x ∈ elements cy)
       ∨ (∃ i e, i ∈ coll ∧ i ∈ nodes cy ∧ e ∈ cy ∧ e_id e = x
                 ∧ touches i e = true).
Proof.
  intros Hnd. revert acc. induction coll as [|i coll IH]; intros acc Hcl x.
  - simpl. split; [tauto|]. intros [H|[[H _]|(i & e & H & _)]]; [done| |];
      by apply elem_of_nil in H.
  - cbn [foldl].
    destruct (addToRemove_spec cy acc i Hnd Hcl) as [Hcl' Hstep].
    rewrite (IH _ Hcl'), Hstep. split.
    + intros [[H|[[-> H]|(Hn & e & He & Hid & Ht)]]|[[H H']|(j & e & Hj & H)]].
      * tauto.
      * right. left. split; [by left|done].
      * right. right. exists i, e. split; [by left|done].
      * right. left. split; [by right|done].
      * right. right. exists j, e. split; [by right|done].
    + intros [H|[[H H']|(j & e & Hj & Hn & He & Hid & Ht)]].
      * tauto.
      * apply elem_of_cons in H as [->|H]; [tauto|]. right. left. done.
      * apply elem_of_cons in Hj as [->|Hj].
        -- left. right. right. split; [done|]. by exists e.
        -- right. right. by exists j, e.
Qed.

Lemma elem_of_elesToRemove (cy : Core) (coll : Collection) x :
  NoDup (elements cy) →
  x ∈ elesToRemove coll cy ↔
  (x ∈ coll ∧ x ∈ elements cy)
  ∨ (∃ i e, i ∈ coll ∧ i ∈ nodes cy ∧ e ∈ cy ∧ e_id e = x
            ∧ touches i e = true).
Proof.
  intros Hnd. unfold elesToRemove. rewrite elesToRemove_fold; [|done|].
  - split; [|tauto]. intros [H|H]; [by apply elem_of_nil in H|done].
  - intros j e Hj. by apply elem_of_nil in Hj.
Qed.

Lemma NoDup_elesToRemove (cy : Core) (coll : Collection) :
  NoDup (elesToRemove coll cy).
Proof.
  unfold elesToRemove. generalize (NoDup_nil_2 (A := string)).
  generalize (@nil string). induction coll as [|i coll IH]; intros acc Hnd;
    [done|].
  cbn [foldl]. apply IH. by apply addToRemove_NoDup.
Qed.

Lemma removeNodes_store (removed : Collection) (cy : Core) :
  (removeNodes removed cy).1 =
  remove removed
    (removeClass (intersection (getExpanded cy) (neighborhood removed cy))
                 ["expanded"] cy).
Proof. done. Qed.

Lemma removeNodes_clears_expanded (cy : Core) (removed : Collection)
      (edge : Ele) b c :
  edge ∈ cy →
  e_ends edge = Some (b, c) ∨ e_ends edge = Some (c, b) →
  c ∈ removed → c ∈ nodes cy →
  b ∉ getExpanded (removeNodes removed cy).1.
Proof.
  intros Hedge Hends Hc Hnode Hb. rewrite removeNodes_store in Hb.
  apply nodesWithClass_elem in Hb as (e' & He' & Hid & Hn & Hcls).
  unfold remove in He'. apply list_elem_of_filter in He' as [_ He'].
  unfold removeClass in He'. apply elem_of_update in He' as (e0 & He0 & ->).
  case_decide as Hin.
  - unfold hasClass, set_classes in Hcls. simpl in Hcls.
    apply bool_decide_eq_true in Hcls. set_solver.
  - apply Hin. unfold intersection. apply list_elem_of_filter. split.
    + rewrite Hid. apply (neighborhood_other_end cy removed edge b c); try done.
      rewrite <- Hid. by apply list_elem_of_fmap_2.
    + apply nodesWithClass_elem. by exists e0.
Qed.

End RemoveFacts.

(** ** Fetching from the data stores *)

Section FetchFacts.

Import Cy View.

Lemma neighbourhood_from_state stores ids acc (cy : Core) :
  (neighbourhood_from stores ids acc cy).1 = cy.
Proof.
  revert acc. induction stores as [|s stores IH]; intros acc; [done|].
  simpl. unfold bind, await. simpl.
  destruct (getNeighbourhood s ids); [apply IH|done].
Qed.

Lemma neighbourhood_from_rejected stores ids acc (cy : Core) :
  Exists (λ s, ∃ err, getNeighbourhood s ids = Thrown err) stores →
  ∃ err, neighbourhood_from stores ids acc cy = (cy, Thrown err).
Proof.
  revert acc. induction stores as [|s stores IH]; intros acc Hex.
  - by apply Exists_nil in Hex.
  - simpl. unfold bind, await. simpl.
    destruct (getNeighbourhood s ids) as [got|err] eqn:E.
    + apply Exists_cons in Hex as [[err Herr]|Hex]; [congruence|].
      by apply IH.
    + by exists err.
Qed.

Lemma neighbourhood_from_ok stores ids acc (cy : Core) :
  Forall (λ s, ∃ got, getNeighbourhood s ids = Ok got) stores →
  ∃ nodes, neighbourhood_from stores ids acc cy = (cy, Ok nodes).
Proof.
  revert acc. induction stores as [|s stores IH]; intros acc Hall.
  - by exists acc.
  - apply Forall_cons in Hall as [[got Hgot] Hall].
    simpl. unfold bind, await. simpl. rewrite Hgot. by apply IH.
Qed.

Lemma buildEdges_from_state stores newNodes acc (cy : Core) :
  (buildEdges_from stores newNodes acc cy).1 = cy.
Proof.
  revert acc. induction stores as [|s stores IH]; intros acc; [done|].
  simpl. unfold bind, await, get. simpl.
  destruct (connectNodes s _ _); [apply IH|done].
Qed.

Lemma buildEdges_from_rejected stores newNodes acc (cy : Core) :
  Exists (λ s, ∃ err, connectNodes s (eles_of (nodes cy) cy)
                        (eles_of newNodes cy) = Thrown err) stores →
  ∃ err, buildEdges_from stores newNodes acc cy = (cy, Thrown err).
Proof.
  revert acc. induction stores as [|s stores IH]; intros acc Hex.
  - by apply Exists_nil in Hex.
  - simpl. unfold bind, await, get. simpl.
    destruct (connectNodes s _ _) as [got|err] eqn:E.
    + apply Exists_cons in Hex as [[err Herr]|Hex]; [congruence|].
      by apply IH.
    + by exists err.
Qed.

(** When every store answers, the edges built are the answers of the stores
    in registration order, after the edges already collected. *)
Lemma buildEdges_from_ok stores newNodes acc (cy : Core) edges :
  buildEdges_from stores newNodes acc cy = (cy, Ok edges) →
  ∀ s got, s ∈ stores →
    connectNodes s (eles_of (nodes cy) cy) (eles_of newNodes cy) = Ok got →
    ∀ d, d ∈ got → d ∈ edges.
Proof.
  revert acc edges. induction stores as [|s stores IH]; intros acc edges Hb s' got Hs' Hgot d Hd.
  - by apply elem_of_nil in Hs'.
  - simpl in Hb. unfold bind, await, get in Hb. simpl in Hb.
    destruct (connectNodes s _ _) as [got0|err] eqn:E; [|done].
    assert (Hacc : ∀ stores acc edges,
               buildEdges_from stores newNodes acc cy = (cy, Ok edges) →
               ∀ d, d ∈ acc → d ∈ edges).
    { clear. induction stores as [|s stores IH]; intros acc edges Hb d Hd.
      - simpl in Hb. unfold ret in Hb. by simplify_eq.
      - simpl in Hb. unfold bind, await, get in Hb. simpl in Hb.
        destruct (connectNodes s _ _) as [got0|err] eqn:E; [|done].
        apply (IH _ _ Hb). apply elem_of_app. by left. }
    apply elem_of_cons in Hs' as [->|Hs'].
    + apply (Hacc _ _ _ Hb). apply elem_of_app. right. congruence.
    + by apply (IH _ _ Hb s' got).
Qed.

End FetchFacts.

(** ** The loop of [mergeToGraph] *)

Section MergeLoopFacts.

Import Cy View PerElement.

Lemma update_ext_in coll f g (cy : Core) :
  (∀ e, e ∈ cy → e_id e ∈ coll → f e = g e) →
  update coll f cy = update coll g cy.
Proof.
  intros H. unfold update. apply list_fmap_ext. intros i e He. simpl.
  apply list_elem_of_lookup_2 in He. case_decide; [by apply H|done].
Qed.

Lemma update_update coll f g (cy : Core) :
  (∀ e, e_id (g e) = e_id e) →
  update coll f (update coll g cy) = update coll (f ∘ g) cy.
Proof.
  intros Hg. unfold update. rewrite <- list_fmap_compose.
  apply list_fmap_ext. intros i e _. simpl.
  destruct (decide (e_id e ∈ coll)) as [Hin|Hin].
  - by rewrite decide_True by (by rewrite Hg).
  - by rewrite decide_False.
Qed.

Lemma update_single i f (cy : Core) :
  update [i] f cy = (λ e, if decide (e_id e = i) then f e else e) <$> cy.
Proof.
  unfold update. apply list_fmap_ext. intros n e _. simpl.
  destruct (decide (e_id e = i)) as [Hi|Hi].
  - rewrite decide_True; [done|]. by apply list_elem_of_singleton.
  - rewrite decide_False; [done|]. by rewrite list_elem_of_singleton.
Qed.

Lemma merged_ele_id n e : e_id (merged_ele n e) = e_id e.
Proof. done. Qed.

Lemma merged_ele_ends n e : e_ends (merged_ele n e) = e_ends e.
Proof. done. Qed.

Lemma add_known_class (c : string) (e : Ele) :
  hasClass c e = true → set_classes (e_classes e ∪ {[c]}) e = e.
Proof.
  intros H. apply bool_decide_eq_true in H. destruct e as [i en d cl s].
  unfold set_classes. simpl in *. f_equal. set_solver.
Qed.

(** For a list without a repeated name, [classes] leaves the set of the
    listed names. *)
Lemma classesAfter_NoDup (l : list string) (e : Ele) :
  NoDup l → classesAfter l e = list_to_set l.
Proof.
  intros Hnd. unfold classesAfter.
  destruct (classesChanged l e) eqn:E; [done|].
  unfold classesChanged in E. apply orb_false_iff in E as [E1 E2].
  apply negb_false_iff, bool_decide_eq_true in E2.
  symmetry. apply set_subseteq_size_eq.
  - intros c Hc. apply elem_of_list_to_set in Hc.
    destruct (decide (c ∈ e_classes e)) as [|Hn]; [done|]. exfalso.
    assert (Hex : existsb (λ c, negb (bool_decide (c ∈ e_classes e))) l = true);
      [|congruence].
    apply existsb_exists. exists c. split; [by apply list_elem_of_In|].
    by rewrite bool_decide_eq_false_2.
  - rewrite size_list_to_set by done. lia.
Qed.

(** The classes and data the loop body leaves on the element it found. *)
Lemma loop_body_on_found (n : ElementDefinition) (g : Ele) :
  let withClasses :=
    match def_classes n with
    | Some l => set_classes (classesAfter l g) g
    | None => g
    end in
  let withExpanded :=
    if hasClass CLASS_EXPANDED g
    then set_classes (e_classes withClasses ∪ {[CLASS_EXPANDED]}) withClasses
    else withClasses in
  let withPinned :=
    if hasClass CLASS_PINNED g
    then set_classes (e_classes withExpanded ∪ {[CLASS_PINNED]}) withExpanded
    else withExpanded in
  set_data (data_fields (def_data n) ∪ e_data withPinned) withPinned
  = merged_ele n g.
Proof.
  destruct g as [i en d cl s]. unfold merged_ele, merged_classes, protected.
  unfold hasClass, set_data, set_classes, CLASS_EXPANDED, CLASS_PINNED.
  simpl.
  destruct (def_classes n) as [l|]; simpl.
  - generalize (classesAfter l (mkEle i en d cl s)). intros C.
    repeat case_bool_decide; simpl; f_equal; set_solver.
  - repeat case_bool_decide; simpl; f_equal; set_solver.
Qed.

Lemma update_fix coll f (cy : Core) :
  (∀ e, e ∈ cy → e_id e ∈ coll → f e = e) → update coll f cy = cy.
Proof.
  intros H. unfold update. rewrite <- (list_fmap_id cy) at 2.
  apply list_fmap_ext. intros i e He. simpl.
  apply list_elem_of_lookup_2 in He. case_decide; [by apply H|done].
Qed.

Lemma NoDup_elements_update coll f (cy : Core) :
  (∀ e, e_id (f e) = e_id e) →
  NoDup (elements cy) → NoDup (elements (update coll f cy)).
Proof. intros Hf. by rewrite elements_update. Qed.

Lemma addClass_expanded_known i (cy : Core) :
  NoDup (elements cy) →
  i ∈ getExpanded cy → addClass [i] "expanded" cy = cy.
Proof.
  intros Hnd Hin. unfold addClass. apply update_fix. intros e He Hi.
  apply list_elem_of_singleton in Hi.
  apply nodesWithClass_elem in Hin as (e' & He' & Hid & _ & Hc).
  assert (e' = e) as -> by (apply (same_id_same_ele cy); congruence).
  by apply add_known_class.
Qed.

(** The loop body on a record whose identity is in the graph. *)
Lemma merge_element_found (cy : Core) A M n g :
  NoDup (elements cy) →
  getElementById (def_id n) cy = Some g →
  merge_element (cy, A, M) n
  = (update [def_id n] (merged_ele n) cy, A, merge M [def_id n]).
Proof.
  intros Hnd Hget. unfold merge_element. rewrite Hget. cbv zeta.
  assert (Hcy3 :
    data_obj [def_id n] (def_data n)
      (foldl (λ cy clazz, addClass [def_id n] clazz cy)
         (classes [def_id n] (def_classes n) cy)
         ((if hasClass CLASS_EXPANDED g then [CLASS_EXPANDED] else [])
          ++ (if hasClass CLASS_PINNED g then [CLASS_PINNED] else []))%list)
    = update [def_id n] (merged_ele n) cy).
  { apply getElementById_Some in Hget as [Hg Hid].
    pose proof (loop_body_on_found n g) as Hbody. cbv zeta in Hbody.
    unfold data_obj, classes, addClass.
    destruct (hasClass CLASS_EXPANDED g), (hasClass CLASS_PINNED g),
      (def_classes n) as [l|]; simpl;
      rewrite ?update_update by done;
      apply update_ext_in; intros e He Hin;
      apply list_elem_of_singleton in Hin;
      (assert (e = g) as -> by (apply (same_id_same_ele cy); congruence));
      rewrite <- Hbody; done. }
  rewrite Hcy3. case_decide as Hexp; [|done].
  rewrite addClass_expanded_known; [done| |done].
  by apply NoDup_elements_update.
Qed.

Lemma merge_element_new (cy : Core) A M n :
  getElementById (def_id n) cy = None →
  merge_element (cy, A, M) n = (cy, (A ++ [n])%list, M).
Proof. intros H. unfold merge_element. by rewrite H. Qed.

(** The loop as a whole: every record updates the element of its identity,
    and the records whose identity is not in the graph are staged. *)
Lemma merge_loop (l : list ElementDefinition) (cy : Core) A M :
  NoDup (elements cy) →
  ∃ M',
    foldl merge_element (cy, A, M) l
    = (merge_all l <$> cy,
       (A ++ filter (λ n, def_id n ∉ elements cy) l)%list, M').
Proof.
  revert cy A M. induction l as [|n l IH]; intros cy A M Hnd.
  - exists M. simpl. rewrite app_nil_r. unfold merge_all. simpl.
    by rewrite list_fmap_id.
  - cbn [foldl]. destruct (getElementById (def_id n) cy) as [g|] eqn:Hget.
    + rewrite (merge_element_found _ _ _ _ _ Hnd Hget).
      destruct (IH (update [def_id n] (merged_ele n) cy) A (merge M [def_id n]))
        as [M' HM'].
      { by apply NoDup_elements_update. }
      exists M'. rewrite HM'. rewrite elements_update by done.
      f_equal. f_equal.
      * rewrite update_single. rewrite <- list_fmap_compose.
        apply list_fmap_ext. intros k e _. simpl. unfold merge_all. simpl.
        done.
      * rewrite filter_cons. rewrite decide_False; [done|].
        intros Hno. apply Hno. apply getElementById_Some in Hget as [Hg <-].
        by apply list_elem_of_fmap_2.
    + rewrite (merge_element_new _ _ _ _ Hget).
      destruct (IH cy (A ++ [n])%list M Hnd) as [M' HM'].
      exists M'. rewrite HM'. f_equal. f_equal.
      * apply list_fmap_ext. intros k e Hk. unfold merge_all. simpl.
        apply list_elem_of_lookup_2 in Hk.
        rewrite decide_False; [done|]. intros Hid.
        apply getElementById_None in Hget. apply Hget. rewrite <- Hid.
        by apply list_elem_of_fmap_2.
      * rewrite filter_cons. rewrite decide_True.
        -- by rewrite <- app_assoc.
        -- by apply getElementById_None.
Qed.

End MergeLoopFacts.

(** ** Adding elements *)

Section AddFacts.

Import Cy View PerElement.

Implicit Types (cy : Core) (d : ElementDefinition) (ds : list ElementDefinition)
  (acc : Core * Outcome Collection).

Lemma restoreError_ext cy cy' d :
  elements cy = elements cy' → restoreError cy d = restoreError cy' d.
Proof. intros He. unfold restoreError, hasElementWithId. by rewrite He. Qed.

Lemma elements_app cy cy' : elements (cy ++ cy') = (elements cy ++ elements cy')%list.
Proof. unfold elements. by rewrite fmap_app. Qed.

Lemma nodes_app cy cy' : nodes (cy ++ cy') = (nodes cy ++ nodes cy')%list.
Proof. unfold nodes. by rewrite filter_app, fmap_app. Qed.

Lemma elements_of_defs ds : elements (ele_of_def <$> ds) = def_id <$> ds.
Proof. unfold elements. rewrite <- list_fmap_compose. done. Qed.

(** A record that is restored has an identity that is free and not empty,
    and end points that are in the graph. *)
Lemma restoreError_None_id cy d :
  restoreError cy d = None → def_id d ≠ "" ∧ def_id d ∉ elements cy.
Proof.
  unfold restoreError, hasElementWithId.
  case_bool_decide as H1; [done|]. case_bool_decide as H2; [done|]. done.
Qed.

Lemma restoreError_None_ends cy d s t :
  restoreError cy d = None → def_ends d = Some (s, t) →
  s ∈ elements cy ∧ t ∈ elements cy.
Proof.
  unfold restoreError, hasElementWithId. intros H He. rewrite He in H.
  repeat (case_bool_decide; simpl in H; try done).
Qed.

Lemma restoreError_None_intro cy d :
  def_id d ≠ "" → def_id d ∉ elements cy →
  (∀ s t, def_ends d = Some (s, t) →
          s ≠ "" ∧ t ≠ "" ∧ s ∈ elements cy ∧ t ∈ elements cy) →
  restoreError cy d = None.
Proof.
  intros Hid Hfree Hends. unfold restoreError, hasElementWithId.
  rewrite (bool_decide_eq_false_2 _ Hid), (bool_decide_eq_false_2 _ Hfree).
  destruct (def_ends d) as [[s t]|]; [|done].
  destruct (Hends s t eq_refl) as (Hs & Ht & Hsin & Htin).
  rewrite (bool_decide_eq_false_2 _ Hs), (bool_decide_eq_false_2 _ Ht).
  by rewrite (bool_decide_eq_true_2 _ Hsin), (bool_decide_eq_true_2 _ Htin).
Qed.

Lemma restore1_refused cy added d why :
  restoreError cy d = Some why →
  restore1 (cy, Ok added) d = (cy, Thrown (CannotCreate why)).
Proof. intros H. unfold restore1. simpl. by rewrite H. Qed.

Lemma restore1_restored cy added d :
  restoreError cy d = None →
  restore1 (cy, Ok added) d
  = ((cy ++ [ele_of_def d])%list, Ok (added ++ [def_id d])%list).
Proof. intros H. unfold restore1. simpl. by rewrite H. Qed.

(** After an error nothing more is restored. *)
Lemma restore_fold_thrown ds cy err :
  foldl restore1 (cy, Thrown err) ds = (cy, Thrown err).
Proof. induction ds as [|d ds IH]; [done|]. cbn [foldl]. exact IH. Qed.

Lemma restore1_extends acc d :
  ∃ new, (restore1 acc d).1 = (acc.1 ++ new)%list
         ∧ (new = [] ∨ (new = [ele_of_def d] ∧ restoreError acc.1 d = None)).
Proof.
  destruct acc as [cy [added|err]].
  - destruct (restoreError cy d) as [why|] eqn:E.
    + rewrite (restore1_refused _ _ _ _ E). exists []. simpl.
      rewrite app_nil_r. split; [done|by left].
    + rewrite (restore1_restored _ _ _ E). exists [ele_of_def d].
      split; [done|]. by right.
  - exists []. simpl. rewrite app_nil_r. split; [done|by left].
Qed.

Lemma restore_fold_extends ds acc :
  ∃ new, (foldl restore1 acc ds).1 = (acc.1 ++ new)%list
         ∧ Forall (λ e, ∃ d, d ∈ ds ∧ e = ele_of_def d) new.
Proof.
  revert acc. induction ds as [|d ds IH]; intros acc.
  - exists []. simpl. by rewrite app_nil_r.
  - cbn [foldl]. destruct (IH (restore1 acc d)) as (new & Hnew & Hall).
    destruct (restore1_extends acc d) as (new0 & Hnew0 & Hcase).
    exists (new0 ++ new)%list. split.
    + rewrite Hnew, Hnew0. by rewrite app_assoc.
    + apply Forall_app. split.
      * destruct Hcase as [->|[-> _]]; [done|].
        apply Forall_singleton. exists d. split; [|done]. by left.
      * eapply Forall_impl; [exact Hall|]. intros e (d' & Hd' & ->).
        exists d'. split; [|done]. by right.
Qed.

Lemma restore_fold_mono ds acc i :
  i ∈ elements acc.1 → i ∈ elements (foldl restore1 acc ds).1.
Proof.
  intros Hi. destruct (restore_fold_extends ds acc) as (new & -> & _).
  rewrite elements_app. apply elem_of_app. by left.
Qed.

Lemma NoDup_restore_fold ds acc :
  NoDup (elements acc.1) → NoDup (elements (foldl restore1 acc ds).1).
Proof.
  revert acc. induction ds as [|d ds IH]; intros acc Hnd; [done|].
  cbn [foldl]. apply IH.
  destruct (restore1_extends acc d) as (new & -> & [->|[-> E]]).
  - by rewrite app_nil_r.
  - rewrite elements_app. apply NoDup_app. split; [done|]. split.
    + intros i Hi Hi'. unfold elements in Hi'. simpl in Hi'.
      apply list_elem_of_singleton in Hi'. subst i.
      by apply restoreError_None_id in E as [_ E].
    + unfold elements. simpl. apply NoDup_singleton.
Qed.

(** When the loop ends without an error, every record was restored. *)
Lemma restore_fold_ok ds cy added0 cy' added :
  foldl restore1 (cy, Ok added0) ds = (cy', Ok added) →
  cy' = (cy ++ (ele_of_def <$> ds))%list
  ∧ added = (added0 ++ (def_id <$> ds))%list.
Proof.
  revert cy added0. induction ds as [|d ds IH]; intros cy added0 H.
  - simpl in H. injection H as <- <-. by rewrite !app_nil_r.
  - cbn [foldl] in H. destruct (restoreError cy d) as [why|] eqn:E.
    + rewrite (restore1_refused _ _ _ _ E), restore_fold_thrown in H.
      discriminate H.
    + rewrite (restore1_restored _ _ _ E) in H.
      apply IH in H as [-> ->]. rewrite !fmap_cons.
      by rewrite <- !app_assoc.
Qed.

(** Every record that was restored had, at its turn, an identity that is
    not empty and end points in the graph. *)
Lemma restore_fold_ok_each ds cy added0 cy' added d :
  foldl restore1 (cy, Ok added0) ds = (cy', Ok added) → d ∈ ds →
  def_id d ≠ ""
  ∧ ∀ s t, def_ends d = Some (s, t) → s ∈ elements cy' ∧ t ∈ elements cy'.
Proof.
  revert cy added0. induction ds as [|d0 ds IH]; intros cy added0 H Hd.
  - by apply elem_of_nil in Hd.
  - cbn [foldl] in H. destruct (restoreError cy d0) as [why|] eqn:E.
    + rewrite (restore1_refused _ _ _ _ E), restore_fold_thrown in H.
      discriminate H.
    + rewrite (restore1_restored _ _ _ E) in H.
      apply elem_of_cons in Hd as [->|Hd]; [|by apply (IH _ _ H)].
      split; [by apply restoreError_None_id in E as [E _]|].
      intros s t Hends.
      destruct (restoreError_None_ends _ _ _ _ E Hends) as [Hs Ht].
      pose proof (restore_fold_mono ds (cy ++ [ele_of_def d0], Ok (added0 ++ [def_id d0]))%list) as Hmono.
      rewrite H in Hmono. simpl in Hmono.
      split; apply Hmono; rewrite elements_app; apply elem_of_app; by left.
Qed.

(** When it ends with an error, the records before the refused one were
    restored, and the refused one is refused by the graph that is left. *)
Lemma restore_fold_refused ds cy added0 cy' err :
  foldl restore1 (cy, Ok added0) ds = (cy', Thrown err) →
  ∃ pre d suf why,
    ds = (pre ++ d :: suf)%list
    ∧ cy' = (cy ++ (ele_of_def <$> pre))%list
    ∧ restoreError cy' d = Some why
    ∧ err = CannotCreate why.
Proof.
  revert cy added0. induction ds as [|d ds IH]; intros cy added0 H.
  - simpl in H. discriminate H.
  - cbn [foldl] in H. destruct (restoreError cy d) as [why|] eqn:E.
    + rewrite (restore1_refused _ _ _ _ E), restore_fold_thrown in H.
      injection H as <- <-. exists [], d, ds, why. simpl.
      by rewrite app_nil_r.
    + rewrite (restore1_restored _ _ _ E) in H.
      apply IH in H as (pre & d' & suf & why & -> & -> & Hwhy & ->).
      exists (d :: pre), d', suf, why. rewrite fmap_cons.
      rewrite <- app_assoc in Hwhy. rewrite <- app_assoc. done.
Qed.

(** Records with distinct, free, non-empty identities whose end points are
    in the graph are all restored. *)
Lemma restore_fold_completes ds cy added0 :
  NoDup (def_id <$> ds) →
  (∀ d, d ∈ ds → def_id d ≠ "" ∧ def_id d ∉ elements cy) →
  (∀ d s t, d ∈ ds → def_ends d = Some (s, t) →
     s ≠ "" ∧ t ≠ "" ∧ s ∈ elements cy ∧ t ∈ elements cy) →
  foldl restore1 (cy, Ok added0) ds
  = ((cy ++ (ele_of_def <$> ds))%list, Ok (added0 ++ (def_id <$> ds))%list).
Proof.
  revert cy added0. induction ds as [|d ds IH]; intros cy added0 Hnd Hid Hends.
  - simpl. by rewrite !app_nil_r.
  - rewrite fmap_cons in Hnd. apply NoDup_cons in Hnd as [Hd Hnd].
    cbn [foldl]. rewrite restore1_restored.
    2:{ destruct (Hid d (list_elem_of_here _ _)) as [H1 H2].
        apply restoreError_None_intro; [done|done|].
        intros s t He. by apply (Hends d s t (list_elem_of_here _ _)). }
    rewrite IH; [by rewrite !fmap_cons, <- !app_assoc|done| |].
    + intros d' Hd'. destruct (Hid d' (list_elem_of_further _ _ _ Hd')) as [H1 H2].
      split; [done|]. rewrite elements_app. intros Hin.
      apply elem_of_app in Hin as [Hin|Hin]; [done|].
      unfold elements in Hin. simpl in Hin.
      apply list_elem_of_singleton in Hin. apply Hd. rewrite <- Hin.
      by apply list_elem_of_fmap_2.
    + intros d' s t Hd' He.
      destruct (Hends d' s t (list_elem_of_further _ _ _ Hd') He)
        as (H1 & H2 & H3 & H4).
      rewrite elements_app. repeat split; try done; apply elem_of_app; by left.
Qed.

Lemma created_sub seen ds d :
  d ∈ created seen ds → d ∈ ds ∧ def_id d ∉ seen.
Proof.
  revert seen. induction ds as [|d0 ds IH]; intros seen Hd.
  - by apply elem_of_nil in Hd.
  - simpl in Hd. case_decide as Hseen.
    + apply IH in Hd as [Hd Hn]. split; [by right|done].
    + apply elem_of_cons in Hd as [->|Hd]; [split; [by left|done]|].
      apply IH in Hd as [Hd Hn]. split; [by right|].
      intros Hin. apply Hn. by right.
Qed.

Lemma created_cover seen ds d :
  d ∈ ds →
  def_id d ∈ seen ∨ ∃ d0, d0 ∈ created seen ds ∧ def_id d0 = def_id d.
Proof.
  revert seen. induction ds as [|d0 ds IH]; intros seen Hd.
  - by apply elem_of_nil in Hd.
  - simpl. apply elem_of_cons in Hd as [->|Hd].
    + case_decide as Hseen; [by left|]. right. exists d0. split; [by left|done].
    + case_decide as Hseen; [by apply IH|].
      destruct (IH (def_id d0 :: seen) Hd) as [Hin|(d1 & Hd1 & Hid)].
      * apply elem_of_cons in Hin as [Heq|Hin]; [|by left].
        right. exists d0. split; [by left|done].
      * right. exists d1. split; [by right|done].
Qed.

Lemma created_all seen ds :
  NoDup (def_id <$> ds) → (∀ d, d ∈ ds → def_id d ∉ seen) →
  created seen ds = ds.
Proof.
  revert seen. induction ds as [|d0 ds IH]; intros seen Hnd Hfree; [done|].
  rewrite fmap_cons in Hnd. apply NoDup_cons in Hnd as [Hd0 Hnd].
  simpl. rewrite decide_False by (apply Hfree; by left). f_equal.
  apply IH; [done|]. intros d Hd Hin.
  apply elem_of_cons in Hin as [Heq|Hin].
  - apply Hd0. rewrite <- Heq. by apply list_elem_of_fmap_2.
  - apply (Hfree d); [by right|done].
Qed.

(** The records in the order [restore] takes them: nodes first. *)
Lemma elem_of_nodes_first ds d : d ∈ nodesFirst ds ↔ d ∈ ds.
Proof.
  unfold nodesFirst. rewrite elem_of_app, !list_elem_of_filter.
  destruct (defIsNode d); naive_solver.
Qed.

Lemma filter_all {A} (P : A → Prop) `{∀ x, Decision (P x)} (l : list A) :
  (∀ x, x ∈ l → P x) → filter P l = l.
Proof.
  induction l as [|x l IH]; intros Hall; [done|].
  rewrite filter_cons_True by (apply Hall; by left).
  rewrite IH; [done|]. intros y Hy. apply Hall. by right.
Qed.

Lemma NoDup_fmap_filter {A B} (f : A → B) (P : A → Prop)
      `{∀ x, Decision (P x)} (l : list A) :
  NoDup (f <$> l) → NoDup (f <$> filter P l).
Proof.
  induction l as [|x l IH]; intros Hnd; [done|].
  rewrite fmap_cons in Hnd. apply NoDup_cons in Hnd as [Hx Hnd].
  rewrite filter_cons. case_decide; [|by apply IH].
  rewrite fmap_cons. apply NoDup_cons. split; [|by apply IH].
  intros Hin. apply Hx. apply list_elem_of_fmap in Hin as (y & -> & Hy).
  apply list_elem_of_filter in Hy as [_ Hy]. by apply list_elem_of_fmap_2.
Qed.

Lemma NoDup_fmap_eq {A B} (f : A → B) (l : list A) x y :
  NoDup (f <$> l) → x ∈ l → y ∈ l → f x = f y → x = y.
Proof.
  induction l as [|a l IH]; intros Hnd Hx Hy Hf.
  - by apply elem_of_nil in Hx.
  - rewrite fmap_cons in Hnd. apply NoDup_cons in Hnd as [Ha Hnd].
    apply elem_of_cons in Hx as [->|Hx]; apply elem_of_cons in Hy as [->|Hy].
    + done.
    + exfalso. apply Ha. rewrite Hf. by apply list_elem_of_fmap_2.
    + exfalso. apply Ha. rewrite <- Hf. by apply list_elem_of_fmap_2.
    + by apply IH.
Qed.

Lemma NoDup_nodes_first ds :
  NoDup (def_id <$> ds) → NoDup (def_id <$> nodesFirst ds).
Proof.
  intros Hnd. unfold nodesFirst. rewrite fmap_app. apply NoDup_app.
  split; [by apply NoDup_fmap_filter|]. split; [|by apply NoDup_fmap_filter].
  intros i Hi Hi'.
  apply list_elem_of_fmap in Hi as (d1 & -> & Hd1).
  apply list_elem_of_fmap in Hi' as (d2 & Hid & Hd2).
  apply list_elem_of_filter in Hd1 as [Hn1 Hd1].
  apply list_elem_of_filter in Hd2 as [Hn2 Hd2].
  assert (d1 = d2) as -> by (by apply (NoDup_fmap_eq def_id ds)).
  congruence.
Qed.

(** Filtering the records by their identity and putting the nodes first
    can be done in either order. *)
Lemma nodes_first_filter (P : ElementDefinition → Prop)
      `{∀ d, Decision (P d)} ds :
  nodesFirst (filter P ds) = filter P (nodesFirst ds).
Proof.
  unfold nodesFirst. rewrite filter_app. f_equal;
    rewrite !list_filter_filter; apply list_filter_iff; intros d; tauto.
Qed.

Lemma add_extends ds cy :
  ∃ new, (add ds cy).1 = (cy ++ new)%list
         ∧ Forall (λ e, ∃ d, d ∈ ds ∧ e = ele_of_def d) new.
Proof.
  unfold add. cbv zeta.
  destruct (restore_fold_extends (nodesFirst (created (elements cy) ds))
              (cy, Ok [])) as (new & Hnew & Hall).
  exists new. split; [done|]. eapply Forall_impl; [exact Hall|].
  intros e (d & Hd & ->). exists d. split; [|done].
  apply (proj1 (elem_of_nodes_first _ _)) in Hd.
  by apply created_sub in Hd as [Hd _].
Qed.

Lemma NoDup_add ds cy :
  NoDup (elements cy) → NoDup (elements (add ds cy).1).
Proof. intros Hnd. unfold add. cbv zeta. by apply NoDup_restore_fold. Qed.

Lemma add_keeps_elements ds cy i : i ∈ elements cy → i ∈ elements (add ds cy).1.
Proof.
  intros Hi. destruct (add_extends ds cy) as (new & -> & _).
  rewrite elements_app. apply elem_of_app. by left.
Qed.

Lemma add_keeps_nodes ds cy i : i ∈ nodes cy → i ∈ nodes (add ds cy).1.
Proof.
  intros Hi. destruct (add_extends ds cy) as (new & -> & _).
  rewrite nodes_app. apply elem_of_app. by left.
Qed.

(** When [add] completes, the created records are all in the graph, after
    the elements that were there, and they are what it returns. *)
Lemma add_ok ds cy cy' added :
  add ds cy = (cy', Ok added) →
  let taken := nodesFirst (created (elements cy) ds) in
  cy' = (cy ++ (ele_of_def <$> taken))%list ∧ added = def_id <$> taken.
Proof. unfold add. cbv zeta. intros H. by apply restore_fold_ok in H. Qed.

Lemma add_ok_present ds cy cy' added d :
  add ds cy = (cy', Ok added) → d ∈ ds → def_id d ∈ elements cy'.
Proof.
  intros H Hd. apply add_ok in H as [-> _]. rewrite elements_app.
  apply elem_of_app.
  destruct (created_cover (elements cy) ds d Hd) as [Hin|(d0 & Hd0 & Hid)];
    [by left|right].
  rewrite elements_of_defs, <- Hid. apply list_elem_of_fmap_2.
  by apply elem_of_nodes_first.
Qed.

(** Adding nothing changes nothing. *)
Lemma add_nil cy : add [] cy = (cy, Ok []).
Proof. done. Qed.

End AddFacts.

(** ** Recomputing the derived metrics *)

Section MetricsFacts.

Import Cy View PerElement Refresh.

Implicit Types (cy pre suf : Core) (e : Ele).

Lemma degree_same_ends i cy cy' :
  e_ends <$> cy = e_ends <$> cy' → degree i cy = degree i cy'.
Proof.
  unfold degree. intros H. f_equal. revert cy' H.
  induction cy as [|e cy IH]; intros [|e' cy'] H; try done.
  rewrite !fmap_cons in H. injection H as He Hrest.
  rewrite !filter_cons. specialize (IH cy' Hrest).
  assert (Ht : touches i e = touches i e') by (unfold touches; by rewrite He).
  assert (Hl : isLoop e = isLoop e') by (unfold isLoop; by rewrite He).
  destruct (decide (touches i e = true ∧ isLoop e = false)) as [H1|H1],
    (decide (touches i e' = true ∧ isLoop e' = false)) as [H2|H2];
    simpl; try done; try (by rewrite IH); exfalso; rewrite Ht, Hl in H1; done.
Qed.

Lemma update_middle f pre e suf :
  NoDup (elements (pre ++ e :: suf)) →
  update [e_id e] f (pre ++ e :: suf) = (pre ++ f e :: suf)%list.
Proof.
  intros Hnd. rewrite elements_app in Hnd. unfold elements in Hnd.
  rewrite fmap_cons in Hnd.
  apply NoDup_app in Hnd as (_ & Hpre & Hsuf).
  apply NoDup_cons in Hsuf as [Hsuf _].
  unfold update. rewrite fmap_app, fmap_cons.
  rewrite decide_True by (by apply list_elem_of_singleton).
  f_equal; [|f_equal].
  - rewrite <- (list_fmap_id pre) at 2. apply list_fmap_ext.
    intros k a Ha. simpl. apply list_elem_of_lookup_2 in Ha.
    rewrite decide_False; [done|]. intros Hin.
    apply list_elem_of_singleton in Hin.
    apply (Hpre (e_id a)); [by apply list_elem_of_fmap_2|].
    rewrite Hin. by left.
  - rewrite <- (list_fmap_id suf) at 2. apply list_fmap_ext.
    intros k a Ha. simpl. apply list_elem_of_lookup_2 in Ha.
    rewrite decide_False; [done|]. intros Hin.
    apply list_elem_of_singleton in Hin.
    apply Hsuf. rewrite <- Hin. by apply list_elem_of_fmap_2.
Qed.

Lemma getElementById_middle pre e suf :
  NoDup (elements (pre ++ e :: suf)) →
  getElementById (e_id e) (pre ++ e :: suf) = Some e.
Proof.
  intros Hnd. apply getElementById_unique; [done|].
  apply elem_of_app. right. by left.
Qed.

Lemma elements_middle f pre e suf :
  e_id (f e) = e_id e →
  elements (pre ++ f e :: suf) = elements (pre ++ e :: suf).
Proof.
  intros H. unfold elements. rewrite !fmap_app, !fmap_cons. by rewrite H.
Qed.

Lemma ends_middle f pre e suf :
  e_ends (f e) = e_ends e →
  e_ends <$> (pre ++ f e :: suf)%list = e_ends <$> (pre ++ e :: suf)%list.
Proof. intros H. rewrite !fmap_app, !fmap_cons. by rewrite H. Qed.

Lemma with_nameLength_id len e : e_id (with_nameLength len e) = e_id e.
Proof. by destruct len. Qed.
Lemma with_nameLength_ends len e : e_ends (with_nameLength len e) = e_ends e.
Proof. by destruct len. Qed.

Lemma data_set_degree i v cy :
  data_set [i] "degree" (Some (JNum v)) cy = update [i] (with_degree v) cy.
Proof. done. Qed.

Lemma data_set_nameLength i len cy :
  data_set [i] "nameLength" len cy = update [i] (with_nameLength len) cy.
Proof.
  destruct len as [v|]; [done|]. simpl. symmetry. by apply update_fix.
Qed.

(** The loop of [onGraphChanged], started in the middle of the graph. *)
Lemma forEach_metrics deg suf pre :
  NoDup (elements (pre ++ suf)) →
  (∀ i, degree i (pre ++ suf) = deg i) →
  forEach onGraphChanged_node (nodes suf) (pre ++ suf)%list
  = ((pre ++ (metrics deg suf).1)%list, (metrics deg suf).2).
Proof.
  revert pre. induction suf as [|e suf IH]; intros pre Hnd Hdeg; [done|].
  unfold nodes. rewrite filter_cons. fold (nodes suf).
  cbn [metrics]. destruct (isNode e) eqn:Hnode.
  - rewrite decide_True by done. rewrite fmap_cons. fold (nodes suf).
    cbn [forEach]. unfold bind. unfold onGraphChanged_node at 1. cbv zeta.
    rewrite data_set_degree, Hdeg, (update_middle _ _ _ _ Hnd).
    set (e1 := with_degree (deg (e_id e)) e).
    assert (Hnd1 : NoDup (elements (pre ++ e1 :: suf))).
    { unfold e1. by rewrite (elements_middle (with_degree (deg (e_id e)))). }
    change (e_id e) with (e_id e1) at 1.
    rewrite (getElementById_middle _ _ _ Hnd1).
    destruct (jsLength (e_data e1 !! "name")) as [len|err]; [|done].
    rewrite data_set_nameLength. change (e_id e) with (e_id e1).
    rewrite (update_middle _ _ _ _ Hnd1). simpl.
    set (e2 := with_nameLength len e1).
    rewrite (cons_middle e2 pre suf), app_assoc.
    rewrite IH.
    + by rewrite <- app_assoc.
    + rewrite <- app_assoc. simpl. unfold e2.
      rewrite (elements_middle (with_nameLength len));
        [done|apply with_nameLength_id].
    + intros i. rewrite <- Hdeg. apply degree_same_ends.
      rewrite <- app_assoc. simpl. unfold e2.
      rewrite (ends_middle (with_nameLength len)); [|apply with_nameLength_ends].
      unfold e1. by rewrite (ends_middle (with_degree (deg (e_id e)))).
  - rewrite decide_False by done.
    rewrite (cons_middle e pre suf), app_assoc. rewrite IH.
    + by rewrite <- app_assoc.
    + by rewrite <- app_assoc.
    + intros i. rewrite <- Hdeg. by rewrite <- app_assoc.
Qed.

(** [onGraphChanged] is [metrics] with the degrees of the graph. *)
Lemma onGraphChanged_metrics cy :
  NoDup (elements cy) →
  onGraphChanged cy
  = ((metrics (λ i, degree i cy) cy).1, (metrics (λ i, degree i cy) cy).2).
Proof.
  intros Hnd. unfold onGraphChanged.
  by apply (forEach_metrics (λ i, degree i cy) cy []).
Qed.

Lemma same_but_metrics_refl e : same_but_metrics e e.
Proof. done. Qed.

Lemma same_but_metrics_with_degree v e : same_but_metrics e (with_degree v e).
Proof.
  unfold same_but_metrics, with_degree. simpl. repeat split; try done.
  intros k Hk _. by rewrite lookup_insert_ne.
Qed.

Lemma same_but_metrics_with_nameLength len e :
  same_but_metrics e (with_nameLength len e).
Proof.
  destruct len as [v|]; [|done].
  unfold same_but_metrics, with_nameLength. simpl. repeat split; try done.
  intros k _ Hk. by rewrite lookup_insert_ne.
Qed.

Lemma same_but_metrics_trans e1 e2 e3 :
  same_but_metrics e1 e2 → same_but_metrics e2 e3 → same_but_metrics e1 e3.
Proof.
  intros (a1 & a2 & a3 & a4 & a5) (b1 & b2 & b3 & b4 & b5).
  repeat split; try congruence.
  intros k H1 H2. rewrite b5, a5; done.
Qed.

Lemma metrics_same deg (l : Core) :
  Forall2 same_but_metrics l (metrics deg l).1.
Proof.
  induction l as [|e l IH]; [by constructor|].
  cbn [metrics]. destruct (isNode e).
  - destruct (jsLength _) as [len|err]; simpl.
    + constructor; [|done].
      eapply same_but_metrics_trans; [apply same_but_metrics_with_degree|].
      apply same_but_metrics_with_nameLength.
    + constructor; [apply same_but_metrics_with_degree|].
      apply Forall_Forall2_diag. by apply Forall_true.
  - simpl. by constructor.
Qed.

Lemma name_with_degree v e :
  e_data (with_degree v e) !! "name" = e_data e !! "name".
Proof. simpl. by rewrite lookup_insert_ne. Qed.

Lemma jsLength_Ok_named e :
  (∃ len, jsLength (e_data e !! "name") = Ok len) ↔ named e.
Proof.
  unfold named. split.
  - intros [len H]. destruct (e_data e !! "name") as [[]|] eqn:E;
      simpl in H; try done; eexists; (split; [reflexivity|done]).
  - intros (v & -> & Hv). destruct v; simpl; try done; by eexists.
Qed.

Lemma metrics_completes deg (l : Core) :
  (metrics deg l).2 = Ok tt ↔ ∀ e, e ∈ l → isNode e = true → named e.
Proof.
  induction l as [|e l IH].
  - split; [|done]. intros _ e He. by apply elem_of_nil in He.
  - cbn [metrics]. destruct (isNode e) eqn:Hnode.
    + rewrite name_with_degree.
      destruct (jsLength (e_data e !! "name")) as [len|err] eqn:Hlen.
      * cbn [snd]. rewrite IH. split.
        -- intros H e' He' Hn. apply elem_of_cons in He' as [->|He'].
           ++ apply jsLength_Ok_named. by exists len.
           ++ by apply H.
        -- intros H e' He' Hn. apply H; [by right|done].
      * cbn [snd]. split; [done|]. intros H. exfalso.
        assert (Hnamed : named e) by (apply H; [by left|done]).
        apply jsLength_Ok_named in Hnamed as [len Hl]. congruence.
    + cbn [snd]. rewrite IH. split.
      * intros H e' He' Hn. apply elem_of_cons in He' as [->|He'].
        -- congruence.
        -- by apply H.
      * intros H e' He' Hn. apply H; [by right|done].
Qed.

Lemma metrics_refreshed deg (l : Core) :
  (metrics deg l).2 = Ok tt → (metrics deg l).1 = refreshed deg <$> l.
Proof.
  induction l as [|e l IH]; [done|].
  cbn [metrics]. rewrite fmap_cons. unfold refreshed at 1.
  destruct (isNode e) eqn:Hnode.
  - rewrite name_with_degree.
    destruct (jsLength (e_data e !! "name")) as [len|err]; [|done].
    cbn [fst snd]. intros H. by rewrite (IH H).
  - cbn [fst snd]. intros H. by rewrite (IH H).
Qed.

(** What a completed recomputation leaves in the fields of a node. *)
Lemma refreshed_node_fields deg e :
  isNode e = true → named e →
  e_data (refreshed deg e) !! "degree" = Some (JNum (deg (e_id e)))
  ∧ e_data (refreshed deg e) !! "name" = e_data e !! "name"
  ∧ ∀ s, e_data e !! "name" = Some (JStr s) →
         e_data (refreshed deg e) !! "nameLength"
         = Some (JNum (Z.of_nat (Js.length s))).
Proof.
  intros Hnode Hnamed. unfold refreshed. rewrite Hnode.
  destruct (proj2 (jsLength_Ok_named e) Hnamed) as [len Hlen]. rewrite Hlen.
  repeat split.
  - destruct len as [v|]; simpl.
    + rewrite lookup_insert_ne by done. by rewrite lookup_insert_eq.
    + by rewrite lookup_insert_eq.
  - destruct len as [v|]; simpl; by rewrite !lookup_insert_ne.
  - intros s Hs. rewrite Hs in Hlen. simpl in Hlen. injection Hlen as <-.
    simpl. by rewrite lookup_insert_eq.
Qed.

End MetricsFacts.

(** ** [mergeToGraph] as a whole *)

Section MergeFacts.

Import Cy View PerElement Refresh.

Implicit Types (cy : Core) (e : Ele) (n : ElementDefinition)
  (l : list ElementDefinition).

Lemma merge_all_cons n l e :
  merge_all (n :: l) e
  = merge_all l (if decide (e_id e = def_id n) then merged_ele n e else e).
Proof. done. Qed.

Lemma merge_all_id l e : e_id (merge_all l e) = e_id e.
Proof.
  revert e. induction l as [|n l IH]; intros e; [done|].
  rewrite merge_all_cons, IH. by case_decide.
Qed.

Lemma merge_all_ends l e : e_ends (merge_all l e) = e_ends e.
Proof.
  revert e. induction l as [|n l IH]; intros e; [done|].
  rewrite merge_all_cons, IH. by case_decide.
Qed.

Lemma merge_all_selected l e : e_selected (merge_all l e) = e_selected e.
Proof.
  revert e. induction l as [|n l IH]; intros e; [done|].
  rewrite merge_all_cons, IH. by case_decide.
Qed.

Lemma merge_all_none l e :
  (∀ n, n ∈ l → def_id n ≠ e_id e) → merge_all l e = e.
Proof.
  induction l as [|n l IH]; intros H; [done|].
  rewrite merge_all_cons. rewrite decide_False.
  - apply IH. intros m Hm. apply H. by right.
  - intros Heq. apply (H n); [by left|done].
Qed.

Lemma merge_all_unique l n e :
  NoDup (def_id <$> l) → n ∈ l → e_id e = def_id n →
  merge_all l e = merged_ele n e.
Proof.
  induction l as [|m l IH]; intros Hnd Hn Hid.
  - by apply elem_of_nil in Hn.
  - rewrite fmap_cons in Hnd. apply NoDup_cons in Hnd as [Hm Hnd].
    rewrite merge_all_cons. apply elem_of_cons in Hn as [->|Hn].
    + rewrite decide_True by done. apply merge_all_none.
      intros k Hk Heq. apply Hm. simpl in Heq. rewrite <- Hid, <- Heq.
      by apply list_elem_of_fmap_2.
    + rewrite decide_False; [by apply IH|].
      intros Heq. apply Hm. rewrite <- Heq, Hid.
      by apply list_elem_of_fmap_2.
Qed.

Lemma elements_merge_all l cy : elements (merge_all l <$> cy) = elements cy.
Proof.
  unfold elements. rewrite <- list_fmap_compose. apply list_fmap_ext.
  intros i e _. apply merge_all_id.
Qed.

Lemma ends_merge_all l cy : e_ends <$> (merge_all l <$> cy) = e_ends <$> cy.
Proof.
  rewrite <- list_fmap_compose. apply list_fmap_ext.
  intros i e _. apply merge_all_ends.
Qed.

(** The identities and the nodes of a graph depend on the identities and
    end points of its elements only. *)
Lemma nodes_same_shape cy cy' :
  elements cy = elements cy' → e_ends <$> cy = e_ends <$> cy' →
  nodes cy = nodes cy'.
Proof.
  revert cy'. unfold elements, nodes.
  induction cy as [|e cy IH]; intros [|e' cy'] Hi He; try done.
  csimpl in Hi. csimpl in He.
  injection Hi as Hi Hi'. injection He as He He'.
  specialize (IH cy' Hi' He'). rewrite !filter_cons.
  assert (Hn : isNode e = isNode e') by (unfold isNode; by rewrite He).
  destruct (decide (isNode e = true)) as [H1|H1],
    (decide (isNode e' = true)) as [H2|H2];
    rewrite ?fmap_cons, ?Hi, ?IH; try done; exfalso; rewrite Hn in H1; done.
Qed.

Lemma nodes_merge_all l cy : nodes (merge_all l <$> cy) = nodes cy.
Proof.
  apply nodes_same_shape; [apply elements_merge_all|apply ends_merge_all].
Qed.

Lemma same_but_metrics_elements (a b : Core) :
  Forall2 same_but_metrics a b → elements b = elements a.
Proof.
  induction 1 as [|x y a b (Hid & _) _ IH]; [done|].
  unfold elements in *. rewrite !fmap_cons. by rewrite Hid, IH.
Qed.

Lemma same_but_metrics_ends (a b : Core) :
  Forall2 same_but_metrics a b → e_ends <$> b = e_ends <$> a.
Proof.
  induction 1 as [|x y a b (_ & Hends & _) _ IH]; [done|].
  rewrite !fmap_cons. by rewrite Hends, IH.
Qed.

Lemma NoDup_merged_store l cy :
  NoDup (elements cy) → NoDup (elements (merged_store l cy)).
Proof.
  intros Hnd. unfold merged_store. apply NoDup_add.
  by rewrite elements_merge_all.
Qed.

(** [mergeToGraph] in full: the loop, the additions, the metrics.  When
    [cy.add] throws, the metrics are not recomputed. *)
Lemma mergeToGraph_run l cy :
  NoDup (elements cy) →
  ∃ M',
    foldl merge_element (cy, [], []) l = (merge_all l <$> cy, staged l cy, M')
    ∧ mergeToGraph l cy
      = match add (staged l cy) (merge_all l <$> cy) with
        | (X, Ok added) =>
            ((metrics (λ i, degree i X) X).1,
             match (metrics (λ i, degree i X) X).2 with
             | Ok _ => Ok (merge M' added)
             | Thrown err => Thrown err
             end)
        | (X, Thrown err) => (X, Thrown err)
        end.
Proof.
  intros Hnd. destruct (merge_loop l cy [] [] Hnd) as [M' HM'].
  simpl in HM'. fold (staged l cy) in HM'.
  exists M'. split; [done|]. unfold mergeToGraph. rewrite HM'.
  unfold bind at 1.
  pose proof (NoDup_add (staged l cy) (merge_all l <$> cy)) as HndX.
  rewrite elements_merge_all in HndX. specialize (HndX Hnd).
  destruct (add (staged l cy) (merge_all l <$> cy)) as [X [added|err]];
    [|done].
  simpl in HndX. unfold bind. rewrite (onGraphChanged_metrics X HndX). simpl.
  by destruct (metrics _ X).2.
Qed.

Lemma mergeToGraph_store l cy :
  NoDup (elements cy) →
  (mergeToGraph l cy).1
  = match (add (staged l cy) (merge_all l <$> cy)).2 with
    | Ok _ => (metrics (λ i, degree i (merged_store l cy)) (merged_store l cy)).1
    | Thrown _ => merged_store l cy
    end.
Proof.
  intros Hnd. destruct (mergeToGraph_run l cy Hnd) as (M' & _ & ->).
  unfold merged_store.
  by destruct (add (staged l cy) (merge_all l <$> cy)) as [X [added|err]].
Qed.

Lemma mergeToGraph_same l cy :
  NoDup (elements cy) →
  Forall2 same_but_metrics (merged_store l cy) (mergeToGraph l cy).1.
Proof.
  intros Hnd. rewrite mergeToGraph_store by done.
  destruct (add (staged l cy) (merge_all l <$> cy)).2; [apply metrics_same|].
  apply Forall_Forall2_diag. by apply Forall_true.
Qed.

(** A merge that completes has recomputed the metrics of the graph the loop
    and [cy.add] left. *)
Lemma mergeToGraph_refreshed l cy r :
  NoDup (elements cy) → (mergeToGraph l cy).2 = Ok r →
  (mergeToGraph l cy).1
  = refreshed (λ i, degree i (merged_store l cy)) <$> merged_store l cy
  ∧ ∀ e, e ∈ merged_store l cy → isNode e = true → named e.
Proof.
  intros Hnd. destruct (mergeToGraph_run l cy Hnd) as (M' & _ & ->).
  unfold merged_store.
  destruct (add (staged l cy) (merge_all l <$> cy)) as [X [added|err]];
    [|done].
  cbn [fst snd].
  destruct (metrics (λ i, degree i X) X).2 as [[]|err] eqn:E; [|done].
  intros _. split; [by apply metrics_refreshed|].
  exact (proj1 (metrics_completes (λ i, degree i X) X) E).
Qed.

Lemma elements_mergeToGraph l cy :
  NoDup (elements cy) →
  elements (mergeToGraph l cy).1 = elements (merged_store l cy).
Proof. intros Hnd. by apply same_but_metrics_elements, mergeToGraph_same. Qed.

Lemma NoDup_mergeToGraph l cy :
  NoDup (elements cy) → NoDup (elements (mergeToGraph l cy).1).
Proof.
  intros Hnd. rewrite elements_mergeToGraph by done.
  by apply NoDup_merged_store.
Qed.

Lemma merged_store_extends l cy :
  ∃ new, merged_store l cy = ((merge_all l <$> cy) ++ new)%list.
Proof.
  unfold merged_store.
  destruct (add_extends (staged l cy) (merge_all l <$> cy)) as (new & H & _).
  by exists new.
Qed.

(** Merging never removes an element. *)
Lemma mergeToGraph_keeps l cy i :
  NoDup (elements cy) → i ∈ elements cy → i ∈ elements (mergeToGraph l cy).1.
Proof.
  intros Hnd Hi. rewrite elements_mergeToGraph by done.
  destruct (merged_store_extends l cy) as [new ->].
  rewrite elements_app, elements_merge_all. apply elem_of_app. by left.
Qed.

(** What the merge leaves of an element that was in the graph: the records
    of its identity applied in order, and the metrics on top. *)
Lemma mergeToGraph_existing l cy e :
  NoDup (elements cy) → e ∈ cy →
  ∃ e', getElementById (e_id e) (mergeToGraph l cy).1 = Some e'
        ∧ same_but_metrics (merge_all l e) e'.
Proof.
  intros Hnd He.
  pose proof (mergeToGraph_same l cy Hnd) as Hsame.
  destruct (merged_store_extends l cy) as [new Hnew].
  assert (Hin : merge_all l e ∈ merged_store l cy).
  { rewrite Hnew. apply elem_of_app. left. by apply list_elem_of_fmap_2. }
  apply list_elem_of_lookup_1 in Hin as [k Hk].
  destruct (Forall2_lookup_l _ _ _ _ _ Hsame Hk) as (e' & Hk' & Hrel).
  exists e'. split; [|done].
  destruct Hrel as (Hid & _). rewrite merge_all_id in Hid. rewrite <- Hid.
  apply getElementById_unique; [by apply NoDup_mergeToGraph|].
  by apply list_elem_of_lookup_2 in Hk'.
Qed.

End MergeFacts.

(** ** Claims about the merge *)

Section MergeClaims.

Import Cy View PerElement Refresh Examples.

Lemma merge_all_protected (c : string) l e :
  c ∈ ({[CLASS_EXPANDED; CLASS_PINNED]} : gset string) →
  (∀ n cs, n ∈ l → def_id n = e_id e → def_classes n = Some cs → c ∉ cs) →
  c ∈ e_classes (merge_all l e) ↔ c ∈ e_classes e.
Proof.
  intros Hc. revert e. induction l as [|n l IH]; intros e H; [done|].
  rewrite merge_all_cons. rewrite IH.
  - case_decide as Hid; [|done].
    unfold merged_ele, merged_classes, protected. simpl.
    destruct (def_classes n) as [cs|] eqn:Hcs; [|done].
    specialize (H n cs (list_elem_of_here _ _) (eq_sym Hid) Hcs).
    rewrite elem_of_union, elem_of_intersection. unfold classesAfter.
    destruct (classesChanged cs e); [rewrite elem_of_list_to_set|]; tauto.
  - intros m cs Hm Hmid Hcs. apply (H m cs); [by right| |done].
    rewrite Hmid. by case_decide.
Qed.

(** C1: for every element of the graph, merging fetched records none of
    which, for that identity, carries the class [pinned] or [expanded]
    leaves the element in the graph with its [pinned] and [expanded] classes
    as they were; a lone record with a class list leaves exactly what
    [classes] makes of the list and the protected classes the element had:
    for a list without a repeated name, the listed classes and the
    protected ones (so [{pinned, expanded}] met by a record tagged
    [visited] gives [{pinned, expanded, visited}]). *)
Theorem C1_merge_keeps_pinned_and_expanded
    (cy : Core) (l : list ElementDefinition) (e : Ele) :
  NoDup (elements cy) →
  e ∈ cy →
  (∀ n cs, n ∈ l → def_id n = e_id e → def_classes n = Some cs →
           (CLASS_PINNED ∉ cs) ∧ (CLASS_EXPANDED ∉ cs)) →
  ∃ e', getElementById (e_id e) (mergeToGraph l cy).1 = Some e'
        ∧ hasClass CLASS_PINNED e' = hasClass CLASS_PINNED e
        ∧ hasClass CLASS_EXPANDED e' = hasClass CLASS_EXPANDED e
        ∧ (∀ n cs, l = [n] → def_id n = e_id e → def_classes n = Some cs →
             e_classes e'
             = classesAfter cs e ∪ (e_classes e ∩ {[CLASS_EXPANDED; CLASS_PINNED]})
             ∧ (NoDup cs →
                e_classes e'
                = list_to_set cs
                  ∪ (e_classes e ∩ {[CLASS_EXPANDED; CLASS_PINNED]}))).
Proof.
  intros Hnd He Hrec.
  destruct (mergeToGraph_existing l cy e Hnd He) as (e' & Hget & Hsame).
  exists e'. split; [done|].
  destruct Hsame as (_ & _ & Hcls & _).
  unfold hasClass. rewrite Hcls. split; [|split].
  - apply bool_decide_ext. apply merge_all_protected; [set_solver|].
    intros n cs Hn Hid Hcs. by destruct (Hrec n cs Hn Hid Hcs).
  - apply bool_decide_ext. apply merge_all_protected; [set_solver|].
    intros n cs Hn Hid Hcs. by destruct (Hrec n cs Hn Hid Hcs).
  - intros n cs -> Hid Hcs. unfold merge_all. simpl.
    rewrite decide_True by done.
    unfold merged_ele, merged_classes, protected. simpl. rewrite Hcs.
    split; [done|]. intros Hcsnd. by rewrite classesAfter_NoDup.
Qed.

Lemma C1_merge_keeps_pinned_and_expanded_witness :
  NoDup (elements [nodeA])
  ∧ nodeA ∈ [nodeA]
  ∧ ∃ e', getElementById "core:A" (mergeToGraph [recA] [nodeA]).1 = Some e'
          ∧ hasClass CLASS_PINNED e' = true
          ∧ hasClass CLASS_EXPANDED e' = true
          ∧ e_classes e' = {["pinned"; "expanded"; "visited"]}.
Proof.
  assert (Hnd : NoDup (elements [nodeA])) by apply NoDup_singleton.
  assert (Hin : nodeA ∈ [nodeA]) by apply list_elem_of_here.
  split; [exact Hnd|]. split; [exact Hin|].
  destruct (C1_merge_keeps_pinned_and_expanded [nodeA] [recA] nodeA Hnd Hin)
    as (e' & Hget & Hpin & Hexp & Hall).
  { intros n cs Hn _ Hcs. apply list_elem_of_singleton in Hn. subst n.
    injection Hcs as <-. split; intros H; apply list_elem_of_singleton in H;
      discriminate H. }
  exists e'. split; [exact Hget|]. split; [exact Hpin|]. split; [exact Hexp|].
  rewrite (proj2 (Hall recA ["visited"] eq_refl eq_refl eq_refl)
                 (NoDup_singleton _)).
  apply (bool_decide_unpack _). vm_compute. exact I.
Defined.

(** C5 (as stated, refuted): the data of an existing element after the
    merge is not exactly the incoming data.  Node [A] keeps its old field
    [extra], which the incoming record does not mention, and carries the
    recomputed [degree] and [nameLength]. *)
Lemma C5_merged_data_is_not_incoming_data :
  getElementById "core:A" [nodeA] = Some nodeA
  ∧ ∃ e', getElementById "core:A" (mergeToGraph [recA] [nodeA]).1 = Some e'
          ∧ def_data recA !! "extra" = None
          ∧ e_data e' !! "extra" = Some (JNum 1)
          ∧ e_data e' !! "degree" = Some (JNum 0)
          ∧ e_data e' ≠ def_data recA.
Proof.
  split; [reflexivity|].
  eexists. split; [vm_compute; reflexivity|].
  split; [reflexivity|]. split; [reflexivity|]. split; [reflexivity|].
  intros H. apply (f_equal (λ m, m !! "extra")) in H. vm_compute in H.
  discriminate H.
Qed.

(** C5 (amended): for every incoming record whose identity is already in
    the graph (one record per identity), the merge writes each field of the
    incoming data over the element's data and keeps the fields the record
    does not mention; the keys [id], [source], [target], [parent] are never
    written.  The fields [degree] and [nameLength] are apart: when the merge
    completes they hold, on a node, the degree of the node and the length
    of its name.  When the record has a class list, the element's classes
    become what [classes] makes of the list (the listed names, unless the
    element has every listed name and as many classes as the list has
    entries: then its classes stay) plus the [pinned]/[expanded] classes it
    had; for a list without a repeated name that is the list plus those. *)
Theorem C5_merge_overwrites_fields_and_classes
    (cy : Core) (l : list ElementDefinition) (n : ElementDefinition) (e : Ele) :
  NoDup (elements cy) →
  NoDup (def_id <$> l) →
  n ∈ l →
  getElementById (def_id n) cy = Some e →
  ∃ e', getElementById (def_id n) (mergeToGraph l cy).1 = Some e'
        ∧ (∀ cs, def_classes n = Some cs →
             e_classes e'
             = classesAfter cs e ∪ (e_classes e ∩ {[CLASS_EXPANDED; CLASS_PINNED]})
             ∧ (NoDup cs →
                e_classes e'
                = list_to_set cs
                  ∪ (e_classes e ∩ {[CLASS_EXPANDED; CLASS_PINNED]})))
        ∧ (∀ k v, k ∉ immutableKeys → k ≠ "degree" → k ≠ "nameLength" →
             def_data n !! k = Some v → e_data e' !! k = Some v)
        ∧ (∀ k, k ≠ "degree" → k ≠ "nameLength" →
             def_data n !! k = None → e_data e' !! k = e_data e !! k)
        ∧ (∀ k, k ∈ immutableKeys → e_data e' !! k = e_data e !! k)
        ∧ (∀ r, (mergeToGraph l cy).2 = Ok r → isNode e = true →
             e_data e' !! "degree"
             = Some (JNum (degree (def_id n) (mergeToGraph l cy).1))
             ∧ ∀ s, e_data e' !! "name" = Some (JStr s) →
                    e_data e' !! "nameLength"
                    = Some (JNum (Z.of_nat (Js.length s)))).
Proof.
  intros Hnd Hl Hn Hget. apply getElementById_Some in Hget as [He Hid].
  destruct (mergeToGraph_existing l cy e Hnd He) as (e' & Hget' & Hsame).
  rewrite Hid in Hget'. exists e'. split; [done|].
  pose proof Hsame as Hsame0.
  rewrite (merge_all_unique l n e Hl Hn Hid) in Hsame.
  destruct Hsame as (_ & _ & Hcls & _ & Hdata). simpl in Hcls, Hdata.
  split; [|split; [|split; [|split]]].
  - intros cs Hcs. rewrite Hcls. unfold merged_classes, protected.
    rewrite Hcs. split; [done|].
    intros Hcsnd. by rewrite classesAfter_NoDup.
  - intros k v Hk Hd Hnl Hv. rewrite Hdata by done.
    apply lookup_union_Some_raw. left. unfold data_fields.
    by apply map_lookup_filter_Some.
  - intros k Hd Hnl Hv. rewrite Hdata by done.
    apply lookup_union_r. unfold data_fields.
    apply map_lookup_filter_None. by left.
  - intros k Hk.
    assert (k ≠ "degree" ∧ k ≠ "nameLength") as [Hd Hnl].
    { unfold immutableKeys in Hk. set_solver. }
    rewrite Hdata by done. apply lookup_union_r. unfold data_fields.
    apply map_lookup_filter_None. right. intros v _. simpl. tauto.
  - intros r Hok Hnode.
    destruct (mergeToGraph_refreshed l cy r Hnd Hok) as [Hres Hnamed].
    set (X := merged_store l cy) in *.
    set (D := λ i, degree i X) in *.
    assert (HinX : merge_all l e ∈ X).
    { unfold X. destruct (merged_store_extends l cy) as [new ->].
      apply elem_of_app. left. by apply list_elem_of_fmap_2. }
    assert (Hnode' : isNode (merge_all l e) = true).
    { unfold isNode. by rewrite merge_all_ends. }
    assert (He' : e' = refreshed D (merge_all l e)).
    { apply (same_id_same_ele (mergeToGraph l cy).1).
      - by apply NoDup_mergeToGraph.
      - apply getElementById_Some in Hget'. tauto.
      - rewrite Hres. by apply list_elem_of_fmap_2.
      - destruct Hsame0 as (Hid' & _). rewrite Hid'.
        unfold refreshed. rewrite Hnode'.
        destruct (jsLength _) as [len|err]; [|done].
        by rewrite with_nameLength_id. }
    destruct (refreshed_node_fields D (merge_all l e) Hnode'
                (Hnamed _ HinX Hnode')) as (Hdeg & Hname & Hlen).
    rewrite He'. split.
    + rewrite Hdeg. rewrite merge_all_id, Hid. unfold D. do 2 f_equal.
      apply degree_same_ends. symmetry.
      apply same_but_metrics_ends. by apply mergeToGraph_same.
    + intros s Hs. apply Hlen. by rewrite <- Hname.
Qed.

Lemma C5_merge_overwrites_fields_and_classes_witness :
  NoDup (elements [nodeA])
  ∧ NoDup (def_id <$> [recA])
  ∧ recA ∈ [recA]
  ∧ getElementById (def_id recA) [nodeA] = Some nodeA
  ∧ ∃ e', getElementById "core:A" (mergeToGraph [recA] [nodeA]).1 = Some e'
          ∧ e_data e' !! "name" = Some (JStr "A2")
          ∧ e_data e' !! "extra" = Some (JNum 1)
          ∧ e_data e' !! "nameLength" = Some (JNum 2).
Proof.
  assert (Hnd : NoDup (elements [nodeA])) by apply NoDup_singleton.
  assert (Hl : NoDup (def_id <$> [recA])) by apply NoDup_singleton.
  assert (Hin : recA ∈ [recA]) by apply list_elem_of_here.
  split; [exact Hnd|]. split; [exact Hl|]. split; [exact Hin|].
  split; [reflexivity|].
  destruct (C5_merge_overwrites_fields_and_classes
              [nodeA] [recA] recA nodeA Hnd Hl Hin eq_refl)
    as (e' & Hget & _ & Hnew & Hold & _ & Hmetrics).
  assert (Hname : e_data e' !! "name" = Some (JStr "A2")).
  { apply Hnew; [|discriminate|discriminate|reflexivity].
    intros H. unfold immutableKeys in H.
    repeat (apply elem_of_cons in H as [H|H]; [discriminate H|]).
    by apply elem_of_nil in H. }
  exists e'. split; [exact Hget|]. split; [exact Hname|]. split.
  - rewrite Hold; [reflexivity|discriminate|discriminate|reflexivity].
  - exact (proj2 (Hmetrics ["core:A"] eq_refl eq_refl) "A2" Hname).
Defined.

End MergeClaims.

(** ** Expanding *)

Section ExpandFacts.

Import Cy View PerElement.

Implicit Types (cy : Core) (e : Ele).

Lemma bind_Ok_inv {A B} (m : M A) (k : A → M B) cy cy' r :
  bind m k cy = (cy', Ok r) →
  ∃ cy1 a, m cy = (cy1, Ok a) ∧ k a cy1 = (cy', Ok r).
Proof.
  unfold bind. destruct (m cy) as [cy1 [a|err]]; [|done].
  intros H. by exists cy1, a.
Qed.

Lemma update_keeps_expanded coll f cy e' :
  (∀ e, keeps_expanded e (f e)) →
  e' ∈ update coll f cy → ∃ e, e ∈ cy ∧ keeps_expanded e e'.
Proof.
  intros Hf He'. apply elem_of_update in He' as (e & He & ->).
  exists e. split; [done|]. case_decide; [apply Hf|done].
Qed.

Lemma addClass_keeps_expanded coll c cy e' :
  e' ∈ addClass coll c cy → ∃ e, e ∈ cy ∧ keeps_expanded e e'.
Proof.
  apply update_keeps_expanded. intros e. split; [done|].
  unfold hasClass. simpl. intros H. apply bool_decide_eq_true in H.
  apply bool_decide_eq_true. set_solver.
Qed.

Lemma updateActiveFile_keeps_expanded node b cy e' :
  e' ∈ (updateActiveFile node b cy).1 → ∃ e, e ∈ cy ∧ keeps_expanded e e'.
Proof.
  unfold updateActiveFile, modify. simpl. intros H.
  apply addClass_keeps_expanded in H as (e4 & H & [I4 K4]).
  apply addClass_keeps_expanded in H as (e3 & H & [I3 K3]).
  apply addClass_keeps_expanded in H as (e2 & H & [I2 K2]).
  apply addClass_keeps_expanded in H as (e1 & H & [I1 K1]).
  unfold removeClass in H.
  apply (update_keeps_expanded _ _ _ e1) in H as (e0 & H & [I0 K0]).
  - exists e0. split; [done|]. split; [congruence|].
    intros Hc. by apply K4, K3, K2, K1, K0.
  - intros e. split; [done|]. unfold hasClass. simpl. intros Hc.
    apply bool_decide_eq_true in Hc. apply bool_decide_eq_true.
    apply elem_of_difference. split; [done|].
    unfold CLASS_EXPANDED.
    rewrite !elem_of_union, !elem_of_singleton, elem_of_empty.
    intros [H1|[H1|[H1|H1]]]; done.
Qed.

Lemma elements_updateActiveFile node b cy :
  elements (updateActiveFile node b cy).1 = elements cy.
Proof.
  unfold updateActiveFile, modify, addClass, removeClass. simpl.
  by rewrite !elements_update.
Qed.

(** A merge that completes: [cy.add] completed, on the graph the loop
    left. *)
Lemma mergeToGraph_Ok_add (l : list ElementDefinition) cy cy' r :
  NoDup (elements cy) → mergeToGraph l cy = (cy', Ok r) →
  ∃ X added,
    add (staged l cy) (merge_all l <$> cy) = (X, Ok added)
    ∧ elements cy' = elements X.
Proof.
  intros Hnd. destruct (mergeToGraph_run l cy Hnd) as (M' & _ & ->).
  destruct (add (staged l cy) (merge_all l <$> cy)) as [X [added|err]];
    [|intros H; discriminate H].
  intros H. exists X, added. split; [done|]. injection H as <- _.
  apply same_but_metrics_elements, metrics_same.
Qed.

(** After a merge that completes, every incoming record has its identity
    in the graph. *)
Lemma mergeToGraph_Ok_present (l : list ElementDefinition) cy cy' r d :
  NoDup (elements cy) → mergeToGraph l cy = (cy', Ok r) → d ∈ l →
  def_id d ∈ elements cy'.
Proof.
  intros Hnd H Hd.
  destruct (decide (def_id d ∈ elements cy)) as [Hin|Hfree].
  - replace cy' with (mergeToGraph l cy).1 by (by rewrite H).
    by apply mergeToGraph_keeps.
  - destruct (mergeToGraph_Ok_add l cy cy' r Hnd H) as (X & added & Hadd & ->).
    apply (add_ok_present _ _ _ _ d Hadd). by apply list_elem_of_filter.
Qed.

(** An element the merge has added was created from an incoming record of
    its identity, with the end points of that record. *)
Lemma mergeToGraph_new (l : list ElementDefinition) cy i :
  NoDup (elements cy) →
  i ∈ elements (mergeToGraph l cy).1 → i ∉ elements cy →
  ∃ d0 e', d0 ∈ l ∧ def_id d0 = i ∧ e' ∈ (mergeToGraph l cy).1
           ∧ e_id e' = i ∧ e_ends e' = def_ends d0.
Proof.
  intros Hnd Hi Hfree.
  pose proof (mergeToGraph_same l cy Hnd) as Hsame.
  rewrite (same_but_metrics_elements _ _ Hsame) in Hi.
  unfold merged_store in *.
  destruct (add_extends (staged l cy) (merge_all l <$> cy))
    as (new & Hext & Hnew).
  rewrite Hext in Hi, Hsame. rewrite elements_app, elements_merge_all in Hi.
  apply elem_of_app in Hi as [Hi|Hi]; [done|].
  apply list_elem_of_fmap in Hi as (e & -> & He).
  destruct (proj1 (Forall_forall _ _) Hnew e He) as (d0 & Hd0 & ->).
  apply list_elem_of_filter in Hd0 as [_ Hd0].
  assert (Hin : ele_of_def d0 ∈ ((merge_all l <$> cy) ++ new)%list)
    by (apply elem_of_app; by right).
  apply list_elem_of_lookup_1 in Hin as [k Hk].
  destruct (Forall2_lookup_l _ _ _ _ _ Hsame Hk) as (e' & Hk' & Hrel).
  destruct Hrel as (Hid' & Hends' & _).
  exists d0, e'. split; [done|]. split; [done|].
  split; [by apply list_elem_of_lookup_2 in Hk'|]. done.
Qed.

Lemma mergeToGraph_Ok_element (l : list ElementDefinition) cy cy' r d :
  NoDup (elements cy) → mergeToGraph l cy = (cy', Ok r) → d ∈ l →
  ∃ e', e' ∈ cy' ∧ e_id e' = def_id d
        ∧ (def_id d ∉ elements cy →
           ∃ d0, d0 ∈ l ∧ def_id d0 = def_id d ∧ e_ends e' = def_ends d0).
Proof.
  intros Hnd H Hd.
  pose proof (mergeToGraph_Ok_present l cy cy' r d Hnd H Hd) as Hin.
  assert (Hcy' : cy' = (mergeToGraph l cy).1) by (by rewrite H).
  apply list_elem_of_fmap in Hin as (e' & Hid & He').
  exists e'. split; [done|]. split; [done|]. intros Hfree.
  destruct (mergeToGraph_new l cy (def_id d) Hnd) as (d0 & e0 & Hd0 & Hid0 & He0 & Hie0 & Hends0).
  { rewrite <- Hcy'. rewrite Hid. by apply list_elem_of_fmap_2. }
  { done. }
  exists d0. split; [done|]. split; [done|].
  rewrite <- Hcy' in He0.
  assert (e0 = e') as <-; [|done].
  apply (same_id_same_ele cy'); try done.
  - rewrite Hcy'. by apply NoDup_mergeToGraph.
  - congruence.
Qed.

(** Changing classes moves no element. *)
Lemma update_image coll f cy e :
  keeps_shape f → e ∈ cy →
  ∃ e', e' ∈ update coll f cy ∧ e_id e' = e_id e ∧ e_ends e' = e_ends e.
Proof.
  intros Hf He. exists (if decide (e_id e ∈ coll) then f e else e).
  split; [apply elem_of_update; by exists e|].
  case_decide; [apply Hf|done].
Qed.

Lemma addClass_image coll c cy e :
  e ∈ cy →
  ∃ e', e' ∈ addClass coll c cy ∧ e_id e' = e_id e ∧ e_ends e' = e_ends e.
Proof. by apply update_image. Qed.

Lemma updateActiveFile_image node b cy e :
  e ∈ cy →
  ∃ e', e' ∈ (updateActiveFile node b cy).1
        ∧ e_id e' = e_id e ∧ e_ends e' = e_ends e.
Proof.
  intros He. unfold updateActiveFile, modify. cbn [fst]. cbv zeta.
  destruct (update_image (elements cy)
              (λ e, set_classes (e_classes e ∖ list_to_set
                 ["connected-active-file"; "active-file"; "inactive-file"]) e)
              cy e) as (e0 & H0 & I0 & E0); [done|done|].
  fold (removeClass (elements cy)
          ["connected-active-file"; "active-file"; "inactive-file"] cy) in H0.
  eapply addClass_image in H0 as (e1 & H1 & I1 & E1).
  eapply addClass_image in H1 as (e2 & H2 & I2 & E2).
  eapply addClass_image in H2 as (e3 & H3 & I3 & E3).
  eapply addClass_image in H3 as (e4 & H4 & I4 & E4).
  exists e4. split; [exact H4|]. split; congruence.
Qed.

(** Every record the edges are built from comes from the answer of a
    store. *)
Lemma buildEdges_from_source stores newNodes acc cy edges d :
  buildEdges_from stores newNodes acc cy = (cy, Ok edges) → d ∈ edges →
  d ∈ acc
  ∨ ∃ s got, s ∈ stores
      ∧ connectNodes s (eles_of (nodes cy) cy) (eles_of newNodes cy) = Ok got
      ∧ d ∈ got.
Proof.
  revert acc. induction stores as [|s stores IH]; intros acc Hb Hd.
  - simpl in Hb. unfold ret in Hb. left. by simplify_eq.
  - simpl in Hb. unfold bind, await, get in Hb. simpl in Hb.
    destruct (connectNodes s _ _) as [got|err] eqn:E; [|done].
    destruct (IH _ Hb Hd) as [Hacc|(s' & got' & Hs' & Hgot' & Hd')].
    + apply elem_of_app in Hacc as [Hacc|Hgot]; [by left|].
      right. exists s, got. split; [by left|done].
    + right. exists s', got'. split; [by right|done].
Qed.

End ExpandFacts.

(** ** Claims about expanding, hiding, selecting and fetching *)

Section InteractionClaims.

Import Cy View PerElement Examples.

(** C7: after [expand] has completed, every element of the expanded
    collection carries the class [expanded], nothing that was in the graph
    has left it, and every edge record the stores returned from
    [connectNodes] (asked with the nodes of the graph and the fetched nodes
    now in it) is in the graph: an element has its identity, and when the
    identity was new this element was created with the end points of a
    returned record of that identity. *)
Theorem C7_expand_tags_and_stores_edges
    (stores : list IDataStore) (toExpand : Collection) (cy cy' : Core)
    (r : Collection) :
  NoDup (elements cy) →
  expand stores toExpand cy = (cy', Ok r) →
  ∃ nbh,
    neighbourhood stores (VizId.fromId <$> toExpand) cy = (cy, Ok nbh)
    ∧ let cy1 := (mergeToGraph nbh cy).1 in
      let newNodes := fetchedNodes nbh cy1 in
      (∀ e', e' ∈ cy' → e_id e' ∈ toExpand → hasClass CLASS_EXPANDED e' = true)
      ∧ (∀ i, i ∈ elements cy → i ∈ elements cy')
      ∧ (∀ s got d, s ∈ stores →
           connectNodes s (eles_of (nodes cy1) cy1) (eles_of newNodes cy1) = Ok got →
           d ∈ got →
           ∃ e', e' ∈ cy' ∧ e_id e' = def_id d
                 ∧ (def_id d ∉ elements cy1 →
                    ∃ s0 got0 d0,
                      s0 ∈ stores
                      ∧ connectNodes s0 (eles_of (nodes cy1) cy1)
                                     (eles_of newNodes cy1) = Ok got0
                      ∧ d0 ∈ got0 ∧ def_id d0 = def_id d
                      ∧ e_ends e' = def_ends d0)).
Proof.
  intros Hnd H. unfold expand in H.
  apply bind_Ok_inv in H as (c0 & nbh & Hn & H).
  assert (c0 = cy) as ->.
  { pose proof (neighbourhood_from_state stores (VizId.fromId <$> toExpand) [] cy) as E.
    unfold neighbourhood in Hn. by rewrite Hn in E. }
  apply bind_Ok_inv in H as (c1 & u1 & Hm1 & H).
  apply bind_Ok_inv in H as (c1' & cyv & Hg & H).
  unfold get in Hg. injection Hg as <- <-. cbv zeta in H.
  apply bind_Ok_inv in H as (c2 & edges & Hb & H).
  assert (c2 = c1) as ->.
  { pose proof (buildEdges_from_state stores (fetchedNodes nbh c1) [] c1) as E.
    unfold buildEdges in Hb. by rewrite Hb in E. }
  apply bind_Ok_inv in H as (c3 & eig & Hm2 & H).
  apply bind_Ok_inv in H as (c4 & u4 & Hmod & H).
  unfold modify in Hmod. injection Hmod as <- _.
  apply bind_Ok_inv in H as (c5 & u5 & Hu & H).
  unfold ret in H. injection H as <- _.
  assert (Hc1 : c1 = (mergeToGraph nbh cy).1) by (by rewrite Hm1).
  assert (Hc3 : c3 = (mergeToGraph edges c1).1) by (by rewrite Hm2).
  assert (Hc5 : c5 = (updateActiveFile toExpand false
                        (addClass toExpand CLASS_EXPANDED c3)).1)
    by (by rewrite Hu).
  assert (Hnd1 : NoDup (elements c1)) by (subst c1; by apply NoDup_mergeToGraph).
  assert (Hel5 : elements c5 = elements c3).
  { rewrite Hc5, elements_updateActiveFile. unfold addClass.
    by rewrite elements_update. }
  exists nbh. split; [done|]. cbv zeta. rewrite <- Hc1.
  split; [|split].
  - intros e' He' Hid. rewrite Hc5 in He'.
    apply updateActiveFile_keeps_expanded in He' as (e4 & He4 & [I4 K4]).
    apply K4. unfold addClass in He4.
    apply elem_of_update in He4 as (e3 & He3 & ->).
    rewrite I4 in Hid.
    destruct (decide (e_id e3 ∈ toExpand)) as [Hin|Hout].
    + unfold hasClass. simpl. apply bool_decide_eq_true. set_solver.
    + simpl in Hid. done.
  - intros i Hi. rewrite Hel5, Hc3. apply mergeToGraph_keeps; [done|].
    rewrite Hc1. by apply mergeToGraph_keeps.
  - intros s got d Hs Hgot Hd. unfold buildEdges in Hb.
    assert (Hde : d ∈ edges)
      by (by apply (buildEdges_from_ok _ _ _ _ _ Hb s got)).
    destruct (mergeToGraph_Ok_element edges c1 c3 eig d Hnd1 Hm2 Hde)
      as (e3 & He3 & Hid3 & Hnew).
    destruct (addClass_image toExpand CLASS_EXPANDED c3 e3 He3)
      as (e4 & He4 & Hid4 & Hends4).
    destruct (updateActiveFile_image toExpand false _ e4 He4)
      as (e5 & He5 & Hid5 & Hends5).
    rewrite <- Hc5 in He5. exists e5. split; [done|].
    split; [congruence|]. intros Hfree.
    destruct (Hnew Hfree) as (d0 & Hd0 & Hid0 & Hends0).
    destruct (buildEdges_from_source _ _ _ _ _ _ Hb Hd0)
      as [Hacc|(s0 & got0 & Hs0 & Hgot0 & Hin0)].
    + by apply elem_of_nil in Hacc.
    + exists s0, got0, d0. repeat split; try done. congruence.
Qed.

Lemma C7_expand_tags_and_stores_edges_witness :
  NoDup (elements [nodeHome])
  ∧ ∃ cy' r,
      expand [goodStore] ["core:Home"] [nodeHome] = (cy', Ok r)
      ∧ (∀ e', e' ∈ cy' → e_id e' ∈ ["core:Home"] →
               hasClass CLASS_EXPANDED e' = true)
      ∧ ∃ e', e' ∈ cy' ∧ e_id e' = def_id recHomeB.
Proof.
  assert (Hnd : NoDup (elements [nodeHome])) by apply NoDup_singleton.
  split; [exact Hnd|].
  destruct (expand [goodStore] ["core:Home"] [nodeHome]) as [cy' [r|err]] eqn:E;
    [|vm_compute in E; discriminate E].
  exists cy', r. split; [reflexivity|].
  destruct (C7_expand_tags_and_stores_edges
              [goodStore] ["core:Home"] [nodeHome] cy' r Hnd E)
    as (nbh & Hn & Hexp & _ & Hedges).
  split; [exact Hexp|].
  destruct (Hedges goodStore [recHomeB] recHomeB) as (e' & He' & Hid & _).
  - apply list_elem_of_here.
  - reflexivity.
  - apply list_elem_of_here.
  - exists e'. split; [exact He'|exact Hid].
Defined.

(** C3 (as stated, refuted): with a store that answers and a store whose
    promise rejects, the fetch does not complete with the answer of the
    first: [neighbourhood] and [expand] reject, and nothing of what the
    first store returned is merged. *)
Lemma C3_one_rejection_rejects_the_fetch :
  getNeighbourhood goodStore [VizId.fromId "core:Home"] = Ok [recHome; recB]
  ∧ neighbourhood [goodStore; offlineStore] [VizId.fromId "core:Home"] [nodeHome]
    = ([nodeHome], Thrown (Rejected "offline"))
  ∧ expand [goodStore; offlineStore] ["core:Home"] [nodeHome]
    = ([nodeHome], Thrown (Rejected "offline"))
  ∧ buildEdges [goodStore; offlineStore] ["core:Home"] [nodeHome]
    = ([nodeHome], Thrown (Rejected "offline")).
Proof. repeat split; vm_compute; reflexivity. Qed.

(** C3 (amended): the stores are asked one after the other, and the
    rejection of one store rejects the whole fetch: [neighbourhood]
    (respectively [buildEdges]) rejects without a result and without
    touching the graph, whatever the other stores returned, and an [expand]
    whose neighbourhood fetch rejects itself rejects and leaves the graph as
    it was. *)
Theorem C3_rejection_rejects_whole_fetch
    (stores : list IDataStore) (toExpand newNodes : Collection) (cy : Core) :
  (Exists (λ s, ∃ err, getNeighbourhood s (VizId.fromId <$> toExpand) = Thrown err)
          stores →
   ∃ err,
     neighbourhood stores (VizId.fromId <$> toExpand) cy = (cy, Thrown err)
     ∧ expand stores toExpand cy = (cy, Thrown err))
  ∧ (Exists (λ s, ∃ err, connectNodes s (eles_of (nodes cy) cy)
                           (eles_of newNodes cy) = Thrown err) stores →
     ∃ err, buildEdges stores newNodes cy = (cy, Thrown err)).
Proof.
  split.
  - intros Hex.
    destruct (neighbourhood_from_rejected _ _ [] cy Hex) as [err Herr].
    exists err. split; [done|].
    unfold expand, bind. unfold neighbourhood. by rewrite Herr.
  - intros Hex. by apply buildEdges_from_rejected.
Qed.

Lemma C3_rejection_rejects_whole_fetch_witness :
  Exists (λ s, ∃ err, getNeighbourhood s (VizId.fromId <$> ["core:Home"]) = Thrown err)
         [goodStore; offlineStore]
  ∧ ∃ err,
      neighbourhood [goodStore; offlineStore] (VizId.fromId <$> ["core:Home"]) [nodeHome]
      = ([nodeHome], Thrown err)
      ∧ expand [goodStore; offlineStore] ["core:Home"] [nodeHome]
        = ([nodeHome], Thrown err).
Proof.
  assert (Hex : Exists (λ s, ∃ err, getNeighbourhood s (VizId.fromId <$> ["core:Home"])
                                    = Thrown err) [goodStore; offlineStore]).
  { apply Exists_cons_tl, Exists_cons_hd. by exists (Rejected "offline"). }
  split; [exact Hex|].
  exact (proj1 (C3_rejection_rejects_whole_fetch
                  [goodStore; offlineStore] ["core:Home"] [] [nodeHome]) Hex).
Defined.

(** C6: when a node [b] is joined by an edge to a node [c] of the graph and
    [c] is among the nodes removed, [b] is not in the expanded set after
    [removeNodes]; so a node with neighbours, all of them removed, does not
    stay expanded. *)
Theorem C6_remove_clears_expanded_of_neighbours
    (cy : Core) (removed : Collection) (edge : Ele) (b c : string) :
  edge ∈ cy →
  e_ends edge = Some (b, c) ∨ e_ends edge = Some (c, b) →
  c ∈ removed →
  c ∈ nodes cy →
  (b ∉ getExpanded (removeNodes removed cy).1)
  ∧ (∀ e', e' ∈ (removeNodes removed cy).1 → e_id e' = b → isNode e' = true →
           hasClass CLASS_EXPANDED e' = false).
Proof.
  intros Hedge Hends Hc Hnode.
  pose proof (removeNodes_clears_expanded cy removed edge b c Hedge Hends Hc Hnode)
    as Hb.
  split; [done|]. intros e' He' Hid Hn.
  destruct (hasClass CLASS_EXPANDED e') eqn:E; [|done].
  exfalso. apply Hb. apply nodesWithClass_elem. by exists e'.
Qed.

Lemma C6_remove_clears_expanded_of_neighbours_witness :
  edgeBC ∈ [nodeB; nodeC; edgeBC]
  ∧ "core:C" ∈ ["core:C"]
  ∧ "core:C" ∈ nodes [nodeB; nodeC; edgeBC]
  ∧ "core:B" ∈ getExpanded [nodeB; nodeC; edgeBC]
  ∧ "core:B" ∉ getExpanded (removeNodes ["core:C"] [nodeB; nodeC; edgeBC]).1.
Proof.
  assert (H1 : edgeBC ∈ [nodeB; nodeC; edgeBC]) by set_solver.
  assert (H2 : "core:C" ∈ ["core:C"]) by set_solver.
  assert (H3 : "core:C" ∈ nodes [nodeB; nodeC; edgeBC])
    by (vm_compute; set_solver).
  split; [exact H1|]. split; [exact H2|]. split; [exact H3|].
  split; [vm_compute; set_solver|].
  exact (proj1 (C6_remove_clears_expanded_of_neighbours
                  [nodeB; nodeC; edgeBC] ["core:C"] edgeBC "core:B" "core:C"
                  H1 (or_introl eq_refl) H2 H3)).
Defined.

(** C8: the selection being the set of selected nodes, inverting the
    selection twice restores the graph with the selection it had (every
    selection flag is back), and after [selectAll] followed by
    [invertSelection] no node is selected. *)
Theorem C8_selection_laws (cy : Core) :
  NoDup (elements cy) →
  (invertSelection (invertSelection cy).1).1 = cy
  ∧ selectedNodes (invertSelection (invertSelection cy).1).1 = selectedNodes cy
  ∧ selectedNodes (invertSelection (selectAll cy).1).1 = [].
Proof.
  intros Hnd. rewrite (invertSelection_involutive cy Hnd).
  split; [done|]. split; [done|].
  apply selectAll_then_invert_no_selected_node.
Qed.

Lemma C8_selection_laws_witness :
  NoDup (elements [nodeB; nodeC; edgeBC])
  ∧ selectedNodes [nodeB; nodeC; edgeBC] = ["core:C"]
  ∧ selectedNodes (invertSelection [nodeB; nodeC; edgeBC]).1 = ["core:B"]
  ∧ (invertSelection (invertSelection [nodeB; nodeC; edgeBC]).1).1
    = [nodeB; nodeC; edgeBC]
  ∧ selectedNodes (invertSelection (selectAll [nodeB; nodeC; edgeBC]).1).1 = [].
Proof.
  assert (Hnd : NoDup (elements [nodeB; nodeC; edgeBC])).
  { apply (bool_decide_unpack _). vm_compute. exact I. }
  split; [exact Hnd|]. split; [reflexivity|]. split; [reflexivity|].
  destruct (C8_selection_laws [nodeB; nodeC; edgeBC] Hnd) as (H1 & _ & H3).
  split; [exact H1|exact H3].
Defined.

End InteractionClaims.

(** ** Merging the same records again *)

Section IdempotenceFacts.

Import Cy View PerElement.

Implicit Types (cy : Core) (e : Ele) (n : ElementDefinition)
  (l : list ElementDefinition).

Lemma classesAfter_eq (cs : list string) e e' :
  e_classes e = e_classes e' → classesAfter cs e = classesAfter cs e'.
Proof. intros H. unfold classesAfter, classesChanged. by rewrite H. Qed.

(** Setting the same class list again on what the first merge left changes
    nothing. *)
Lemma merged_classes_twice (cs : list string) e e1 :
  e_classes e1 = classesAfter cs e ∪ protected e →
  classesAfter cs e1 ∪ protected e1 = e_classes e1.
Proof.
  intros H1. destruct (classesChanged cs e) eqn:E0.
  - unfold classesAfter in H1. rewrite E0 in H1.
    unfold classesAfter, protected in *.
    destruct (classesChanged cs e1); rewrite H1; set_solver.
  - assert (Hc : e_classes e1 = e_classes e).
    { unfold classesAfter in H1. rewrite E0 in H1. rewrite H1.
      unfold protected. set_solver. }
    rewrite (classesAfter_eq cs e1 e Hc). unfold classesAfter, protected.
    rewrite E0, Hc. set_solver.
Qed.

Lemma merged_ele_twice n e : merged_ele n (merged_ele n e) = merged_ele n e.
Proof.
  destruct e as [i en d c s]. unfold merged_ele, merged_classes.
  unfold set_data, set_classes. simpl. f_equal.
  - by rewrite (assoc_L (∪)), (idemp_L (∪)).
  - destruct (def_classes n) as [cs|]; [|done].
    by apply (merged_classes_twice cs (mkEle i en d c s)).
Qed.

Lemma merged_ele_of_def n : merged_ele n (ele_of_def n) = ele_of_def n.
Proof.
  unfold merged_ele, merged_classes, protected, ele_of_def.
  unfold set_data, set_classes. simpl. f_equal.
  - apply map_subseteq_union. apply map_filter_subseteq.
  - destruct (def_classes n) as [cs|]; simpl; [|done].
    unfold classesAfter. destruct (classesChanged _ _); simpl; set_solver.
Qed.

(** Either one record of the list has the identity of [e], and merging the
    list is merging that record, or no record has it. *)
Lemma merge_all_cases l e :
  NoDup (def_id <$> l) →
  (∃ n, n ∈ l ∧ ∀ e', e_id e' = e_id e → merge_all l e' = merged_ele n e')
  ∨ (∀ e', e_id e' = e_id e → merge_all l e' = e').
Proof.
  intros Hnd. destruct (decide (e_id e ∈ def_id <$> l)) as [Hin|Hout].
  - left. apply list_elem_of_fmap in Hin as (n & Hid & Hn).
    exists n. split; [done|]. intros e' He'.
    apply merge_all_unique; [done|done|congruence].
  - right. intros e' He'. apply merge_all_none. intros n Hn Hid.
    apply Hout. rewrite <- He', <- Hid. by apply list_elem_of_fmap_2.
Qed.

Lemma merge_all_twice l e :
  NoDup (def_id <$> l) → merge_all l (merge_all l e) = merge_all l e.
Proof.
  intros Hnd. destruct (merge_all_cases l e Hnd) as [(n & Hn & H)|H].
  - rewrite (H e eq_refl). rewrite H by done. apply merged_ele_twice.
  - rewrite (H e eq_refl). by rewrite H.
Qed.

Lemma merge_all_of_def l n :
  NoDup (def_id <$> l) → n ∈ l → merge_all l (ele_of_def n) = ele_of_def n.
Proof.
  intros Hnd Hn. rewrite (merge_all_unique l n) by done.
  apply merged_ele_of_def.
Qed.

(** Every element of the graph the loop and [cy.add] leave is unchanged by
    merging the records once more. *)
Lemma merged_store_stable l cy :
  NoDup (def_id <$> l) →
  Forall (λ e, merge_all l e = e) (merged_store l cy).
Proof.
  intros Hnd. unfold merged_store.
  destruct (add_extends (staged l cy) (merge_all l <$> cy)) as (new & -> & Hnew).
  apply Forall_app. split.
  - apply Forall_fmap. apply Forall_true. intros e. by apply merge_all_twice.
  - eapply Forall_impl; [exact Hnew|]. intros e (d & Hd & ->).
    apply merge_all_of_def; [done|].
    by apply list_elem_of_filter in Hd as [_ Hd].
Qed.

Lemma agree_off_refl keys e : agree_off keys e e.
Proof. done. Qed.

Lemma merged_ele_agree_off keys n e e' :
  merged_ele n e = e → agree_off keys e e' → agree_off keys e (merged_ele n e').
Proof.
  intros Hfix (Hid & Hends & Hcls & Hsel & Hdata).
  pose proof (f_equal e_classes Hfix) as Hc.
  pose proof (f_equal e_data Hfix) as Hd. simpl in Hc, Hd.
  repeat split; try done.
  - simpl. rewrite <- Hc. unfold merged_classes, protected. rewrite Hcls.
    destruct (def_classes n) as [cs|]; [|done].
    by rewrite (classesAfter_eq cs e' e Hcls).
  - intros k Hk. simpl. rewrite lookup_union, (Hdata k Hk), <- lookup_union.
    by rewrite Hd.
Qed.

Lemma merge_all_agree_off keys l e e' :
  NoDup (def_id <$> l) →
  merge_all l e = e → agree_off keys e e' → agree_off keys e (merge_all l e').
Proof.
  intros Hnd Hfix Hag. pose proof Hag as (Hid & _).
  destruct (merge_all_cases l e Hnd) as [(n & Hn & H)|H].
  - rewrite (H e' Hid). apply merged_ele_agree_off; [|done].
    by rewrite <- (H e eq_refl).
  - by rewrite (H e' Hid).
Qed.

Lemma agree_off_with_degree v e : agree_off ["degree"] e (with_degree v e).
Proof.
  repeat split; try done. intros k Hk. simpl.
  rewrite lookup_insert_ne; [done|]. intros <-. apply Hk. by left.
Qed.

Lemma agree_off_metrics v x e :
  agree_off ["degree"; "nameLength"] e
            (with_nameLength (Some x) (with_degree v e)).
Proof.
  repeat split; try done. intros k Hk. simpl.
  rewrite !lookup_insert_ne; [done| |].
  - intros <-. apply Hk. by left.
  - intros <-. apply Hk. right. by left.
Qed.

Lemma with_degree_agree v e e' :
  agree_off ["degree"] e e' → with_degree v e' = with_degree v e.
Proof.
  destruct e as [i en d c s], e' as [i' en' d' c' s'].
  intros (Hid & Hends & Hcls & Hsel & Hdata). simpl in *. subst.
  unfold with_degree, set_data. simpl. f_equal.
  apply map_eq. intros k. destruct (decide (k = "degree")) as [->|Hk].
  - by rewrite !lookup_insert_eq.
  - rewrite !lookup_insert_ne by done. apply Hdata.
    by rewrite list_elem_of_singleton.
Qed.

Lemma with_metrics_agree v x e e' :
  agree_off ["degree"; "nameLength"] e e' →
  with_nameLength (Some x) (with_degree v e')
  = with_nameLength (Some x) (with_degree v e).
Proof.
  destruct e as [i en d c s], e' as [i' en' d' c' s'].
  intros (Hid & Hends & Hcls & Hsel & Hdata). simpl in *. subst.
  unfold with_nameLength, with_degree, set_data. simpl. f_equal.
  apply map_eq. intros k. destruct (decide (k = "nameLength")) as [->|Hk].
  - by rewrite !lookup_insert_eq.
  - rewrite !(lookup_insert_ne _ "nameLength") by done.
    destruct (decide (k = "degree")) as [->|Hk'].
    + by rewrite !lookup_insert_eq.
    + rewrite !lookup_insert_ne by done. apply Hdata.
      intros Hin. apply elem_of_cons in Hin as [?|Hin]; [done|].
      by apply list_elem_of_singleton in Hin.
Qed.

Lemma name_agree keys e e' v :
  "name" ∉ keys → agree_off keys e e' →
  e_data (with_degree v e') !! "name" = e_data (with_degree v e) !! "name".
Proof.
  intros Hk (_ & _ & _ & _ & Hdata). simpl.
  rewrite !lookup_insert_ne by done. by apply Hdata.
Qed.

Lemma NoDup_staged l cy :
  NoDup (def_id <$> l) → NoDup (def_id <$> staged l cy).
Proof.
  unfold staged. induction l as [|n l IH]; intros Hnd; [done|].
  rewrite fmap_cons in Hnd. apply NoDup_cons in Hnd as [Hn Hnd].
  rewrite filter_cons. case_decide; [|by apply IH].
  rewrite fmap_cons. apply NoDup_cons. split; [|by apply IH].
  intros Hin. apply Hn. apply list_elem_of_fmap in Hin as (m & Hid & Hm).
  apply list_elem_of_filter in Hm as [_ Hm]. rewrite Hid.
  by apply list_elem_of_fmap_2.
Qed.

Lemma fmap_stable l (X : Core) :
  Forall (λ e, merge_all l e = e) X → merge_all l <$> X = X.
Proof.
  intros H. rewrite <- (list_fmap_id X) at 2. apply list_fmap_ext.
  intros k e Hk. simpl. apply list_elem_of_lookup_2 in Hk.
  by apply (proj1 (Forall_forall _ _) H).
Qed.

Lemma isNode_merge_all l e : isNode (merge_all l e) = isNode e.
Proof. unfold isNode. by rewrite merge_all_ends. Qed.

Lemma name_not_degree : "name" ∉ ["degree"].
Proof. intros H. apply list_elem_of_singleton in H. discriminate H. Qed.

Lemma name_not_metric : "name" ∉ ["degree"; "nameLength"].
Proof.
  intros H. apply elem_of_cons in H as [H|H]; [discriminate H|].
  apply list_elem_of_singleton in H. discriminate H.
Qed.

(** The head of the graph, second time round: a node whose name could be
    measured. *)
Lemma stable_head_measured deg l e len :
  NoDup (def_id <$> l) → merge_all l e = e → isNode e = true →
  jsLength (e_data (with_degree (deg (e_id e)) e) !! "name") = Ok len →
  let e2 := merge_all l (with_nameLength len (with_degree (deg (e_id e)) e)) in
  isNode e2 = true
  ∧ jsLength (e_data (with_degree (deg (e_id e2)) e2) !! "name") = Ok len
  ∧ with_nameLength len (with_degree (deg (e_id e2)) e2)
    = with_nameLength len (with_degree (deg (e_id e)) e).
Proof.
  intros Hnd He Hnode Hlen e2.
  assert (Hid : e_id e2 = e_id e).
  { unfold e2. by rewrite merge_all_id, with_nameLength_id. }
  split.
  { unfold e2. rewrite isNode_merge_all. unfold isNode.
    by rewrite with_nameLength_ends. }
  rewrite Hid. destruct len as [x|].
  - assert (Hag : agree_off ["degree"; "nameLength"] e e2).
    { apply merge_all_agree_off; [done|done|apply agree_off_metrics]. }
    split.
    + by rewrite (name_agree _ _ _ (deg (e_id e)) name_not_metric Hag).
    + by apply with_metrics_agree.
  - assert (Hag : agree_off ["degree"] e e2).
    { apply merge_all_agree_off; [done|done|apply agree_off_with_degree]. }
    split.
    + by rewrite (name_agree _ _ _ (deg (e_id e)) name_not_degree Hag).
    + unfold with_nameLength. by apply with_degree_agree.
Qed.

(** The same for a node whose name could not be measured. *)
Lemma stable_head_thrown deg l e err :
  NoDup (def_id <$> l) → merge_all l e = e → isNode e = true →
  jsLength (e_data (with_degree (deg (e_id e)) e) !! "name") = Thrown err →
  let e2 := merge_all l (with_degree (deg (e_id e)) e) in
  isNode e2 = true
  ∧ jsLength (e_data (with_degree (deg (e_id e2)) e2) !! "name") = Thrown err
  ∧ with_degree (deg (e_id e2)) e2 = with_degree (deg (e_id e)) e.
Proof.
  intros Hnd He Hnode Hlen e2.
  assert (Hid : e_id e2 = e_id e) by (unfold e2; by rewrite merge_all_id).
  split; [unfold e2; by rewrite isNode_merge_all|].
  rewrite Hid.
  assert (Hag : agree_off ["degree"] e e2).
  { apply merge_all_agree_off; [done|done|apply agree_off_with_degree]. }
  split.
  - by rewrite (name_agree _ _ _ (deg (e_id e)) name_not_degree Hag).
  - by apply with_degree_agree.
Qed.

(** Recomputing the metrics after merging the same records again gives the
    graph the first recomputation gave. *)
Lemma metrics_stable deg l (X : Core) :
  NoDup (def_id <$> l) →
  Forall (λ e, merge_all l e = e) X →
  metrics deg (merge_all l <$> (metrics deg X).1) = metrics deg X.
Proof.
  intros Hnd. induction X as [|e X IH]; intros Hst; [done|].
  apply Forall_cons in Hst as [He HX]. specialize (IH HX).
  cbn [metrics]. destruct (isNode e) eqn:Hnode.
  - destruct (jsLength (e_data (with_degree (deg (e_id e)) e) !! "name"))
      as [len|err] eqn:Hlen.
    + destruct (stable_head_measured deg l e len Hnd He Hnode Hlen)
        as (Hn2 & Hlen2 & Heq).
      cbn [fst snd]. rewrite fmap_cons. cbn [metrics].
      rewrite Hn2, Hlen2, Heq. by rewrite IH.
    + destruct (stable_head_thrown deg l e err Hnd He Hnode Hlen)
        as (Hn2 & Hlen2 & Heq).
      cbn [fst snd]. rewrite fmap_cons. rewrite (fmap_stable l X HX).
      cbn [metrics]. by rewrite Hn2, Hlen2, Heq.
  - cbn [fst snd]. rewrite fmap_cons. rewrite He. cbn [metrics].
    rewrite Hnode. by rewrite IH.
Qed.

(** After a merge in which [cy.add] completed, merging the same records
    stages nothing. *)
Lemma second_merge_stages_nothing l cy added :
  NoDup (elements cy) →
  (add (staged l cy) (merge_all l <$> cy)).2 = Ok added →
  staged l (mergeToGraph l cy).1 = [].
Proof.
  intros Hnd Hadd. apply elem_of_nil_inv. intros d Hd.
  apply list_elem_of_filter in Hd as [Hfree Hd]. apply Hfree.
  rewrite elements_mergeToGraph by done. unfold merged_store.
  destruct (add (staged l cy) (merge_all l <$> cy)) as [X o] eqn:E.
  simpl in Hadd. subst o. simpl.
  destruct (decide (def_id d ∈ elements cy)) as [Hin|Hout].
  - replace X with (add (staged l cy) (merge_all l <$> cy)).1 by (by rewrite E).
    apply add_keeps_elements. by rewrite elements_merge_all.
  - apply (add_ok_present _ _ _ _ d E). by apply list_elem_of_filter.
Qed.

(** After a merge in which [cy.add] threw, the graph is left by merging the
    same records as it is, and [cy.add] throws again at the same record. *)
Lemma second_merge_refused l cy err :
  NoDup (elements cy) → NoDup (def_id <$> l) →
  (add (staged l cy) (merge_all l <$> cy)).2 = Thrown err →
  merge_all l <$> merged_store l cy = merged_store l cy
  ∧ add (staged l (merged_store l cy)) (merged_store l cy)
    = (merged_store l cy, Thrown err).
Proof.
  intros Hnd Hl Hadd.
  split; [apply fmap_stable; by apply merged_store_stable|].
  unfold merged_store.
  destruct (add (staged l cy) (merge_all l <$> cy)) as [cy1 o] eqn:E.
  simpl in Hadd. subst o. cbn [fst].
  unfold add in E. rewrite created_all in E.
  2:{ by apply NoDup_staged. }
  2:{ intros d Hd. apply list_elem_of_filter in Hd as [Hd _].
      by rewrite elements_merge_all. }
  apply restore_fold_refused in E
    as (pre & d & suf & why & Hsplit & Hcy1 & Hwhy & ->).
  assert (Hel : elements cy1 = (elements cy ++ (def_id <$> pre))%list)
    by (by rewrite Hcy1, elements_app, elements_merge_all, elements_of_defs).
  assert (Hnd1 : NoDup (def_id <$> nodesFirst (staged l cy)))
    by (by apply NoDup_nodes_first, NoDup_staged).
  rewrite Hsplit, fmap_app, fmap_cons in Hnd1.
  apply NoDup_app in Hnd1 as (_ & Hdisj & _).
  assert (Hst : staged l cy1
                = filter (λ n, def_id n ∉ def_id <$> pre) (staged l cy)).
  { unfold staged. rewrite list_filter_filter. apply list_filter_iff.
    intros n. rewrite Hel, elem_of_app. tauto. }
  unfold add. rewrite created_all.
  2:{ by apply NoDup_staged. }
  2:{ intros d0 Hd0. by apply list_elem_of_filter in Hd0 as [Hd0 _]. }
  rewrite Hst, nodes_first_filter, Hsplit, filter_app.
  assert (Hpre : filter (λ n, def_id n ∉ def_id <$> pre) pre = []).
  { apply elem_of_nil_inv. intros x Hx.
    apply list_elem_of_filter in Hx as [Hx Hin]. apply Hx.
    by apply list_elem_of_fmap_2. }
  assert (Hsuf : filter (λ n, def_id n ∉ def_id <$> pre) (d :: suf) = d :: suf).
  { apply filter_all. intros x Hx Hin. apply (Hdisj (def_id x) Hin).
    rewrite <- fmap_cons. by apply list_elem_of_fmap_2. }
  rewrite Hpre, Hsuf. cbn [app foldl].
  by rewrite (restore1_refused _ _ _ _ Hwhy), restore_fold_thrown.
Qed.

End IdempotenceFacts.

(** ** Claims about merging twice *)

Section IdempotenceClaims.

Import Cy View PerElement Examples.

Lemma metrics_ext deg deg' (X : Core) :
  (∀ i, deg i = deg' i) → metrics deg X = metrics deg' X.
Proof.
  intros H. induction X as [|e X IH]; [done|].
  cbn [metrics]. by rewrite H, IH.
Qed.

(** C4 (as stated, refuted): with two records of the same identity that is
    not yet in the graph, the first merge creates the element from the first
    record only, and the second merge overwrites its classes with those of
    the second record. *)
Lemma C4_merge_twice_differs_on_duplicate_identity :
  def_id recX1 = def_id recX2
  ∧ (e_classes <$> (mergeToGraph [recX1; recX2] []).1) = [{["draft"]}]
  ∧ (e_classes <$> (mergeToGraph [recX1; recX2]
                      (mergeToGraph [recX1; recX2] []).1).1) = [{["final"]}]
  ∧ (mergeToGraph [recX1; recX2] (mergeToGraph [recX1; recX2] []).1).1
    ≠ (mergeToGraph [recX1; recX2] []).1.
Proof.
  split; [reflexivity|].
  split; [vm_compute; reflexivity|].
  split; [vm_compute; reflexivity|].
  intros H. apply (f_equal (fmap (λ e, bool_decide ("draft" ∈ e_classes e)))) in H.
  vm_compute in H. discriminate H.
Qed.

(** C4 (amended): for every graph and every list of records with pairwise
    distinct identities, merging the list a second time leaves the graph
    exactly as the first merge left it: the same elements with the same
    classes and the same data. *)
Theorem C4_merge_twice_same_as_once
    (cy : Core) (l : list ElementDefinition) :
  NoDup (elements cy) →
  NoDup (def_id <$> l) →
  (mergeToGraph l (mergeToGraph l cy).1).1 = (mergeToGraph l cy).1.
Proof.
  intros Hnd Hl.
  pose proof (NoDup_mergeToGraph l cy Hnd) as Hnd1.
  rewrite (mergeToGraph_store l _ Hnd1).
  destruct (add (staged l cy) (merge_all l <$> cy)).2 as [added|err] eqn:Hadd.
  - rewrite (second_merge_stages_nothing l cy added Hnd Hadd).
    rewrite add_nil. cbn [snd]. unfold merged_store at 1 2.
    rewrite (second_merge_stages_nothing l cy added Hnd Hadd).
    rewrite add_nil. cbn [fst].
    rewrite (mergeToGraph_store l cy Hnd), Hadd.
    set (X := merged_store l cy). set (D := λ i, degree i X).
    rewrite (metrics_ext _ D).
    + rewrite metrics_stable; [done|done|]. by apply merged_store_stable.
    + intros i. unfold D. apply degree_same_ends.
      rewrite ends_merge_all. apply same_but_metrics_ends. apply metrics_same.
  - destruct (second_merge_refused l cy err Hnd Hl Hadd) as [Hfix Hagain].
    rewrite (mergeToGraph_store l cy Hnd), Hadd.
    rewrite Hfix, Hagain. cbn [snd].
    change (merged_store l (merged_store l cy))
      with (add (staged l (merged_store l cy))
                (merge_all l <$> merged_store l cy)).1.
    by rewrite Hfix, Hagain.
Qed.

Lemma C4_merge_twice_same_as_once_witness :
  NoDup (elements [nodeA])
  ∧ NoDup (def_id <$> [recA; recX1])
  ∧ (mergeToGraph [recA; recX1] (mergeToGraph [recA; recX1] [nodeA]).1).1
    = (mergeToGraph [recA; recX1] [nodeA]).1.
Proof.
  assert (Hnd : NoDup (elements [nodeA])) by apply NoDup_singleton.
  assert (Hl : NoDup (def_id <$> [recA; recX1])).
  { apply (bool_decide_unpack _). vm_compute. exact I. }
  split; [exact Hnd|]. split; [exact Hl|].
  exact (C4_merge_twice_same_as_once [nodeA] [recA; recX1] Hnd Hl).
Defined.

End IdempotenceClaims.

(** ** The hover-preview timers *)

Section HoverFacts.

Import Hover.

Implicit Types (st : State) (h : Timeout) (i : string).

Lemma pending_arm i st :
  pending (arm i st) = (pending st ++ [(nextTimeout st, i)])%list.
Proof. done. Qed.

Lemma nextTimeout_arm i st : nextTimeout (arm i st) = S (nextTimeout st).
Proof. done. Qed.

Lemma hoverTimeout_arm i st :
  hoverTimeout (arm i st) = <[i := Some (nextTimeout st)]> (hoverTimeout st).
Proof. done. Qed.

Lemma wf_initial : wf initial.
Proof.
  split.
  - intros p Hp. by apply elem_of_nil in Hp.
  - intros i h Hh. simpl in Hh. by rewrite lookup_empty in Hh.
Qed.

Lemma wf_arm i st : wf st → wf (arm i st).
Proof.
  intros [Hp Hr]. split.
  - intros p Hin. rewrite pending_arm in Hin. rewrite nextTimeout_arm.
    apply elem_of_app in Hin as [Hin|Hin].
    + specialize (Hp p Hin). lia.
    + apply list_elem_of_singleton in Hin. subst p. simpl. lia.
  - intros j h Hj. rewrite hoverTimeout_arm in Hj. rewrite nextTimeout_arm.
    destruct (decide (i = j)) as [->|Hne].
    + rewrite lookup_insert_eq in Hj. injection Hj as <-. lia.
    + rewrite lookup_insert_ne in Hj by done. specialize (Hr j h Hj). lia.
Qed.

Lemma wf_mouseout i st : wf st → wf (mouseout i st).
Proof.
  intros [Hp Hr]. unfold mouseout.
  destruct (hoverTimeout st !! i) as [oh|] eqn:E; [|done].
  split.
  - intros p Hin. destruct oh as [h|]; simpl in *; [|by apply Hp].
    apply list_elem_of_filter in Hin as [_ Hin]. by apply Hp.
  - intros j h Hj. destruct oh as [h0|]; simpl in *.
    + destruct (decide (i = j)) as [->|Hne].
      * by rewrite lookup_insert_eq in Hj.
      * rewrite lookup_insert_ne in Hj by done. by apply (Hr j).
    + destruct (decide (i = j)) as [->|Hne].
      * by rewrite lookup_insert_eq in Hj.
      * rewrite lookup_insert_ne in Hj by done. by apply (Hr j).
Qed.

Lemma wf_fire h st : wf st → wf (fire h st).
Proof.
  intros [Hp Hr]. unfold fire.
  destruct (filter (λ p, p.1 = h) (pending st)) as [|[h' t] rest]; [done|].
  split; simpl.
  - intros p Hin. apply list_elem_of_filter in Hin as [_ Hin]. by apply Hp.
  - done.
Qed.

Lemma wf_readDone k st : wf st → wf (readDone k st).
Proof.
  intros Hwf. unfold readDone. destruct (reading st !! k) as [i|]; [|done].
  by apply wf_arm.
Qed.

Lemma wf_step st ev : wf st → wf (step st ev).
Proof.
  intros Hwf. destruct ev as [i b|k|edge|i|h]; simpl.
  - unfold mouseover_node. by destruct (_ && _).
  - by apply wf_readDone.
  - unfold mouseover_edge. case_bool_decide; [by apply wf_arm|done].
  - by apply wf_mouseout.
  - by apply wf_fire.
Qed.

Lemma wf_run evs st : wf st → wf (run evs st).
Proof.
  revert st. induction evs as [|ev evs IH]; intros st Hwf; [done|].
  simpl. apply IH. by apply wf_step.
Qed.

Lemma cancelled_arm h i st : cancelled h st → cancelled h (arm i st).
Proof.
  intros [Hlt Hp]. split.
  - rewrite nextTimeout_arm. lia.
  - intros p Hin. rewrite pending_arm in Hin.
    apply elem_of_app in Hin as [Hin|Hin]; [by apply Hp|].
    apply list_elem_of_singleton in Hin. subst p. simpl. lia.
Qed.

Lemma cancelled_mouseout h i st : cancelled h st → cancelled h (mouseout i st).
Proof.
  intros [Hlt Hp]. unfold mouseout.
  destruct (hoverTimeout st !! i) as [[h0|]|]; try done.
  split; [done|]. simpl. intros p Hin.
  apply list_elem_of_filter in Hin as [_ Hin]. by apply Hp.
Qed.

Lemma cancelled_fire h h' st : cancelled h st → cancelled h (fire h' st).
Proof.
  intros [Hlt Hp]. unfold fire.
  destruct (filter (λ p, p.1 = h') (pending st)) as [|[h0 t] rest]; [done|].
  split; [done|]. simpl. intros p Hin.
  apply list_elem_of_filter in Hin as [_ Hin]. by apply Hp.
Qed.

Lemma cancelled_step h st ev : cancelled h st → cancelled h (step st ev).
Proof.
  intros Hc. destruct ev as [i b|k|edge|i|h']; simpl.
  - unfold mouseover_node. by destruct (_ && _).
  - unfold readDone. destruct (reading st !! k) as [i|]; [|done].
    by apply cancelled_arm.
  - unfold mouseover_edge. case_bool_decide; [by apply cancelled_arm|done].
  - by apply cancelled_mouseout.
  - by apply cancelled_fire.
Qed.

Lemma cancelled_run h evs st : cancelled h st → cancelled h (run evs st).
Proof.
  revert st. induction evs as [|ev evs IH]; intros st Hc; [done|].
  simpl. apply IH. by apply cancelled_step.
Qed.

(** A cancelled task does nothing when its time comes. *)
Lemma fire_cancelled h st : cancelled h st → fire h st = st.
Proof.
  intros [_ Hp]. unfold fire.
  destruct (filter (λ p, p.1 = h) (pending st)) as [|p rest] eqn:E; [done|].
  exfalso. assert (Hin : p ∈ filter (λ p, p.1 = h) (pending st))
    by (rewrite E; by left).
  apply list_elem_of_filter in Hin as [Hh Hin]. by apply (Hp p).
Qed.

Lemma mouseout_cancels i h st :
  wf st → hoverTimeout st !! i = Some (Some h) → cancelled h (mouseout i st).
Proof.
  intros [_ Hr] Hi. unfold mouseout. rewrite Hi. split; simpl.
  - by apply (Hr i).
  - intros p Hin. by apply list_elem_of_filter in Hin as [Hne _].
Qed.

End HoverFacts.

(** ** Claims about the hover preview *)

Section HoverClaims.

Import Hover.

(** C9 (the code at the failing inputs): the node handler arms its task
    only once the file has been read, and records the handle over the one
    that was there without clearing it.  A pointer-leave that comes while
    the file is still being read finds nothing to cancel: the task is armed
    afterwards and opens its popover.  With two hovers whose reads resolve
    one after the other, two tasks are pending for the one element;
    pointer-leave then cancels the later one only, and the earlier task
    fires and opens its popover.  The same holds for a second hover on an
    element whose task is pending. *)
Lemma C9_second_hover_stacks_a_task :
  popovers
    (run [MouseoverNode "core:A" true; Mouseout "core:A"; ReadDone 0;
          Fire 0] initial)
  = ["core:A"]
  ∧ pendingFor "core:A"
      (run [MouseoverNode "core:A" true; Mouseout "core:A";
            MouseoverNode "core:A" true; ReadDone 0; ReadDone 0] initial)
    = [0; 1]
  ∧ pendingFor "core:A"
      (run [MouseoverNode "core:A" true; Mouseout "core:A";
            MouseoverNode "core:A" true; ReadDone 0; ReadDone 0;
            Mouseout "core:A"] initial)
    = [0]
  ∧ popovers
      (run [MouseoverNode "core:A" true; Mouseout "core:A";
            MouseoverNode "core:A" true; ReadDone 0; ReadDone 0;
            Mouseout "core:A"; Fire 0] initial)
    = ["core:A"]
  ∧ pendingFor "core:A"
      (run [MouseoverNode "core:A" true; ReadDone 0;
            MouseoverNode "core:A" true; ReadDone 0] initial)
    = [0; 1]
  ∧ popovers
      (run [MouseoverNode "core:A" true; ReadDone 0;
            MouseoverNode "core:A" true; ReadDone 0;
            Mouseout "core:A"; Fire 0] initial)
    = ["core:A"].
Proof. repeat split; vm_compute; reflexivity. Qed.

End HoverClaims.

(** ** Further properties: identities and icons *)

Section IdentityExtras.

Import VizId Files.

Lemma includes_decompose c s :
  Js.includes c s = true →
  ∃ a b, s = a ++ String c b ∧ Js.includes c a = false.
Proof.
  induction s as [|d s IH]; simpl; [done|].
  destruct (Ascii.eqb_spec d c) as [->|Hne]; simpl.
  - intros _. by exists EmptyString, s.
  - intros H. destruct (IH H) as (a & b & -> & Ha).
    exists (String d a), b. split; [done|]. simpl.
    apply Ascii.eqb_neq in Hne. by rewrite Hne.
Qed.

Lemma string_app_empty (s : string) : s ++ "" = s.
Proof.
  induction s as [|c s IH]; [done|].
  change (String c (s ++ "") = String c s). by rewrite IH.
Qed.

(** X1: decoding then encoding gives the string back exactly when it
    contains the separator; a string without one comes back with a [:]
    appended. *)
Theorem X1_toId_fromId (s : string) :
  toId (fromId s) = if Js.includes sep s then s else s ++ ":".
Proof.
  destruct (Js.includes sep s) eqn:E.
  - destruct (includes_decompose _ _ E) as (a & b & -> & Ha).
    by rewrite (fromId_store_rest a b Ha).
  - unfold fromId, Js.slice1. rewrite (split_no_sep _ _ E). done.
Qed.

(** X2: two identities whose store ids are free of the separator and whose
    canonical strings are equal are the same identity. *)
Theorem X2_toId_injective (v w : VizId.t) :
  Js.includes sep (storeId v) = false →
  Js.includes sep (storeId w) = false →
  toId v = toId w → v = w.
Proof.
  intros Hv Hw H. destruct v as [i s], w as [j t]. simpl in *.
  pose proof (fromId_store_rest s i Hv) as E1.
  pose proof (fromId_store_rest t j Hw) as E2.
  change (s ++ String sep i = t ++ String sep j) in H.
  rewrite H in E1. congruence.
Qed.

Lemma X2_toId_injective_witness :
  Js.includes sep "core" = false
  ∧ toId (mk "a:b" "core") = toId (mk "a:b" "core")
  ∧ mk "a:b" "core" = mk "a:b" "core".
Proof.
  split; [reflexivity|]. split; [reflexivity|].
  exact (X2_toId_injective (mk "a:b" "core") (mk "a:b" "core")
           eq_refl eq_refl eq_refl).
Defined.

(** X3: the identity of a file is in the [core] store, goes by the base name
    for a markdown file and by the full name otherwise, and survives
    encoding and decoding whatever characters the name contains. *)
Theorem X3_fromFile (file : TFile) :
  storeId (fromFile file) = "core"
  ∧ (extension file = "md" → id (fromFile file) = basename file)
  ∧ (extension file ≠ "md" → id (fromFile file) = name file)
  ∧ fromId (toId (fromFile file)) = fromFile file.
Proof.
  unfold fromFile. cbv zeta. repeat split.
  - intros H. simpl. by rewrite bool_decide_eq_true_2.
  - intros H. simpl. by rewrite bool_decide_eq_false_2.
  - apply (fromId_store_rest "core"). reflexivity.
Qed.

End IdentityExtras.

Section IconExtras.

Import Icons.

Lemma count_replace c d s :
  c ≠ d → count c (replace c d s) = pred (count c s).
Proof.
  intros Hne. induction s as [|x s IH]; [done|].
  simpl. destruct (Ascii.eqb_spec x c) as [->|Hx]; simpl.
  - apply not_eq_sym in Hne. apply Ascii.eqb_neq in Hne. by rewrite Hne.
  - apply Ascii.eqb_neq in Hx. rewrite Hx. simpl. exact IH.
Qed.

Lemma length_replace c d s : String.length (replace c d s) = String.length s.
Proof.
  induction s as [|x s IH]; [done|].
  simpl. destruct (Ascii.eqb x c); simpl; by rewrite ?IH.
Qed.

(** X4: an icon is registered under its key with the first two underscores
    turned into hyphens: the name is as long as the key and has two
    underscores fewer (none when the key has at most two); the names
    registered for the table of the view are the ones its menu asks for. *)
Theorem X4_icon_names (mdiIcons : string → string) (key : string) :
  count underscore (iconName key) = count underscore key - 2
  ∧ String.length (iconName key) = String.length key
  ∧ ((count underscore key <= 2)%nat → count underscore (iconName key) = 0)
  ∧ (∀ n, n ∈ menuIcons ↔ n ∈ (fst <$> addIcons mdiIcons)).
Proof.
  assert (H : count underscore (iconName key) = count underscore key - 2).
  { unfold iconName. rewrite !count_replace by done. lia. }
  repeat split.
  - exact H.
  - unfold iconName. by rewrite !length_replace.
  - intros Hle. rewrite H. lia.
  - intros Hn. unfold menuIcons in Hn. simpl.
    repeat (apply elem_of_cons in Hn as [->|Hn]; [set_solver|]).
    by apply elem_of_nil in Hn.
  - intros Hn. simpl in Hn. unfold menuIcons.
    repeat (apply elem_of_cons in Hn as [->|Hn]; [set_solver|]).
    by apply elem_of_nil in Hn.
Qed.

End IconExtras.

(** ** Further properties: the derived metrics *)

Section MetricsExtras.

Import Cy View PerElement Refresh Examples.

Implicit Types (cy : Core) (e : Ele).

(** X5: [onGraphChanged] completes exactly when every node of the graph has
    a name that is present and not [null]; otherwise it throws a
    [TypeError]. *)
Theorem X5_onGraphChanged_completes_iff_named (cy : Core) :
  NoDup (elements cy) →
  ((onGraphChanged cy).2 = Ok tt
   ↔ ∀ e, e ∈ cy → isNode e = true → named e)
  ∧ ((onGraphChanged cy).2 = Ok tt ∨ (onGraphChanged cy).2 = Thrown TypeError).
Proof.
  intros Hnd. rewrite (onGraphChanged_metrics cy Hnd). cbn [snd]. split.
  - apply metrics_completes.
  - generalize (λ i, degree i cy). intros deg. clear Hnd.
    induction cy as [|e l IH]; [by left|].
    cbn [metrics]. destruct (isNode e); [|exact IH].
    destruct (e_data (with_degree (deg (e_id e)) e) !! "name") as [[]|];
      simpl; try exact IH; by right.
Qed.

Lemma X5_onGraphChanged_completes_iff_named_witness :
  NoDup (elements [nodeB; nodeC; edgeBC])
  ∧ (onGraphChanged [nodeB; nodeC; edgeBC]).2 = Ok tt.
Proof.
  assert (Hnd : NoDup (elements [nodeB; nodeC; edgeBC])).
  { apply (bool_decide_unpack _). vm_compute. exact I. }
  split; [exact Hnd|].
  apply (proj1 (X5_onGraphChanged_completes_iff_named _ Hnd)).
  intros e He Hn.
  apply elem_of_cons in He as [->|He];
    [by eexists; split; [reflexivity|]|].
  apply elem_of_cons in He as [->|He];
    [by eexists; split; [reflexivity|]|].
  apply list_elem_of_singleton in He. subst e. discriminate Hn.
Defined.

(** X6: when [onGraphChanged] completes, every node carries its degree (the
    number of its edges that are not loops) in [degree] and, when its name
    is a string, the length of the name, counted in UTF-16 code units, in
    [nameLength]; nothing else changes on a node, and edges are left as
    they are. *)
Theorem X6_onGraphChanged_refreshes (cy : Core) :
  NoDup (elements cy) →
  (onGraphChanged cy).2 = Ok tt →
  (onGraphChanged cy).1 = refreshed (λ i, degree i cy) <$> cy
  ∧ ∀ e, e ∈ cy →
      same_but_metrics e (refreshed (λ i, degree i cy) e)
      ∧ (isNode e = false → refreshed (λ i, degree i cy) e = e)
      ∧ (isNode e = true →
         e_data (refreshed (λ i, degree i cy) e) !! "degree"
         = Some (JNum (degree (e_id e) cy))
         ∧ ∀ s, e_data e !! "name" = Some (JStr s) →
                e_data (refreshed (λ i, degree i cy) e) !! "nameLength"
                = Some (JNum (Z.of_nat (Js.length s)))).
Proof.
  intros Hnd Hok. rewrite (onGraphChanged_metrics cy Hnd) in *.
  cbn [fst snd] in *. split; [by apply metrics_refreshed|].
  intros e He.
  assert (Hnamed : isNode e = true → named e).
  { intros Hn. by apply (proj1 (metrics_completes _ cy) Hok). }
  unfold refreshed. destruct (isNode e) eqn:Hnode.
  - destruct (proj2 (jsLength_Ok_named e) (Hnamed eq_refl)) as [len Hlen].
    rewrite Hlen. split; [|split; [done|]].
    + eapply same_but_metrics_trans; [apply same_but_metrics_with_degree|].
      apply same_but_metrics_with_nameLength.
    + intros _. split.
      * destruct len as [v|]; simpl.
        -- rewrite lookup_insert_ne by done. by rewrite lookup_insert_eq.
        -- by rewrite lookup_insert_eq.
      * intros s Hs. rewrite Hs in Hlen. simpl in Hlen. injection Hlen as <-.
        simpl. by rewrite lookup_insert_eq.
  - split; [done|]. split; [done|]. intros H. discriminate H.
Qed.

Lemma X6_onGraphChanged_refreshes_witness :
  NoDup (elements [nodeB; nodeC; edgeBC])
  ∧ (onGraphChanged [nodeB; nodeC; edgeBC]).2 = Ok tt
  ∧ (e_data <$> (onGraphChanged [nodeB; nodeC; edgeBC]).1)
    = [ {["name" := JStr "B"; "degree" := JNum 1; "nameLength" := JNum 1]};
        {["name" := JStr "C"; "degree" := JNum 1; "nameLength" := JNum 1]};
        ∅ ]
  ∧ Js.length "Café" = 4.
Proof.
  assert (Hnd : NoDup (elements [nodeB; nodeC; edgeBC])).
  { apply (bool_decide_unpack _). vm_compute. exact I. }
  assert (Hok : (onGraphChanged [nodeB; nodeC; edgeBC]).2 = Ok tt)
    by reflexivity.
  split; [exact Hnd|]. split; [exact Hok|]. split; [|reflexivity].
  rewrite (proj1 (X6_onGraphChanged_refreshes _ Hnd Hok)).
  apply (bool_decide_unpack _). vm_compute. exact I.
Defined.

Lemma refreshed_node deg e len :
  isNode e = true → jsLength (e_data e !! "name") = Ok len →
  refreshed deg e = with_nameLength len (with_degree (deg (e_id e)) e).
Proof. intros Hn Hl. unfold refreshed. by rewrite Hn, Hl. Qed.

Lemma refreshed_edge deg e : isNode e = false → refreshed deg e = e.
Proof. intros Hn. unfold refreshed. by rewrite Hn. Qed.

Lemma metrics_stops deg (pre suf : Core) e :
  (∀ a, a ∈ pre → isNode a = true → named a) →
  isNode e = true → ¬ named e →
  metrics deg (pre ++ e :: suf)
  = ((refreshed deg <$> pre) ++ with_degree (deg (e_id e)) e :: suf,
     Thrown TypeError)%list.
Proof.
  intros Hpre Hnode Hun. induction pre as [|a pre IH].
  - simpl. rewrite Hnode. rewrite lookup_insert_ne by done.
    destruct (e_data e !! "name") as [[]|] eqn:E; simpl; try done;
      exfalso; apply Hun; eexists; (split; [exact E|done]).
  - rewrite <- app_comm_cons. cbn [metrics]. rewrite fmap_cons.
    rewrite IH by (intros b Hb; apply Hpre; by right). cbn [fst snd].
    destruct (isNode a) eqn:Ha.
    + rewrite name_with_degree.
      destruct (proj2 (jsLength_Ok_named a) (Hpre a (list_elem_of_here _ _) Ha))
        as [len Hlen].
      rewrite Hlen. by rewrite (refreshed_node deg a len Ha Hlen).
    + by rewrite (refreshed_edge deg a Ha).
Qed.

(** X7: a node without a measurable name stops [onGraphChanged] with a
    [TypeError]: the nodes before it have been refreshed, the node itself
    has its degree written, and every element after it is left as it was. *)
Theorem X7_onGraphChanged_stops_at_unnamed_node (pre suf : Core) (e : Ele) :
  NoDup (elements (pre ++ e :: suf)%list) →
  (∀ a, a ∈ pre → isNode a = true → named a) →
  isNode e = true →
  ¬ named e →
  onGraphChanged (pre ++ e :: suf)%list
  = (((refreshed (λ i, degree i (pre ++ e :: suf)%list) <$> pre)
        ++ with_degree (degree (e_id e) (pre ++ e :: suf)%list) e :: suf)%list,
     Thrown TypeError).
Proof.
  intros Hnd Hpre Hnode Hun. rewrite (onGraphChanged_metrics _ Hnd).
  by rewrite (metrics_stops _ pre suf e Hpre Hnode Hun).
Qed.

Lemma X7_onGraphChanged_stops_at_unnamed_node_witness :
  NoDup (elements ([nodeB] ++ mkEle "core:Q" None ∅ ∅ false :: [nodeC])%list)
  ∧ (onGraphChanged ([nodeB] ++ mkEle "core:Q" None ∅ ∅ false :: [nodeC])%list).2
    = Thrown TypeError
  ∧ (e_data <$> (onGraphChanged
                   ([nodeB] ++ mkEle "core:Q" None ∅ ∅ false :: [nodeC])%list).1)
    = [ {["name" := JStr "B"; "degree" := JNum 0; "nameLength" := JNum 1]};
        {["degree" := JNum 0]};
        {["name" := JStr "C"]} ].
Proof.
  assert (Hnd : NoDup (elements ([nodeB] ++ mkEle "core:Q" None ∅ ∅ false :: [nodeC])%list)).
  { apply (bool_decide_unpack _). vm_compute. exact I. }
  split; [exact Hnd|].
  rewrite (X7_onGraphChanged_stops_at_unnamed_node
             [nodeB] [nodeC] (mkEle "core:Q" None ∅ ∅ false) Hnd).
  - split; [reflexivity|]. apply (bool_decide_unpack _). vm_compute. exact I.
  - intros a Ha _. apply list_elem_of_singleton in Ha. subst a.
    eexists. split; [reflexivity|done].
  - reflexivity.
  - intros (v & Hv & _). discriminate Hv.
Defined.

End MetricsExtras.

(** ** Further properties: the graph stays well-formed *)

Section InvariantExtras.

Import Cy View PerElement Invariants Preservation Examples.

Implicit Types (cy : Core) (e : Ele).

Lemma closed_same_shape cy cy' :
  elements cy = elements cy' → e_ends <$> cy = e_ends <$> cy' →
  closed cy → closed cy'.
Proof.
  intros Hel Hen Hc e' s t He' Hends.
  assert (Hin : Some (s, t) ∈ e_ends <$> cy).
  { rewrite Hen, <- Hends. by apply list_elem_of_fmap_2. }
  apply list_elem_of_fmap in Hin as (e & He & Hin).
  rewrite <- (nodes_same_shape cy cy' Hel Hen). by apply (Hc e).
Qed.

Lemma wf_same_shape cy cy' :
  elements cy = elements cy' → e_ends <$> cy = e_ends <$> cy' →
  wf cy → wf cy'.
Proof.
  intros Hel Hen [Hnd Hc]. split; [by rewrite <- Hel|].
  by apply (closed_same_shape cy).
Qed.

Lemma ends_update coll f cy :
  keeps_shape f → e_ends <$> update coll f cy = e_ends <$> cy.
Proof.
  intros Hf. unfold update. rewrite <- list_fmap_compose.
  apply list_fmap_ext. intros i e _. simpl.
  case_decide; [apply Hf|done].
Qed.

Lemma wf_update coll f cy : keeps_shape f → wf cy → wf (update coll f cy).
Proof.
  intros Hf. apply wf_same_shape.
  - symmetry. apply elements_update. intros e. apply Hf.
  - symmetry. by apply ends_update.
Qed.

Lemma wf_addClass coll c cy : wf cy → wf (addClass coll c cy).
Proof. by apply wf_update. Qed.

Lemma wf_removeClass coll cs cy : wf cy → wf (removeClass coll cs cy).
Proof. by apply wf_update. Qed.

Lemma wf_select coll cy : wf cy → wf (select coll cy).
Proof. by apply wf_update. Qed.

Lemma wf_unselect coll cy : wf cy → wf (unselect coll cy).
Proof. by apply wf_update. Qed.

Lemma touches_end e s t :
  e_ends e = Some (s, t) → touches s e = true ∧ touches t e = true.
Proof.
  intros Hends. unfold touches. rewrite Hends.
  rewrite (bool_decide_eq_true_2 (s = s)), (bool_decide_eq_true_2 (t = t))
    by done.
  by rewrite orb_true_r.
Qed.

(** A node that is an end point of an edge that stays in the graph stays
    too. *)
Lemma remove_keeps_end coll cy e i :
  NoDup (elements cy) → e ∈ cy → e_id e ∉ elesToRemove coll cy →
  touches i e = true → i ∈ nodes cy → i ∈ nodes (remove coll cy).
Proof.
  intros Hnd He Hnot Ht Hi. pose proof Hi as Hi'.
  apply nodes_elem in Hi as (a & Ha & Hida & Hna).
  apply nodes_elem. exists a. split; [|done].
  unfold remove. apply list_elem_of_filter. split; [|done].
  rewrite Hida. intros Hrem.
  apply (elem_of_elesToRemove cy coll i Hnd) in Hrem
    as [[Hin _]|(j & e0 & _ & _ & He0 & Hid0 & Ht0)].
  - apply Hnot. apply (elem_of_elesToRemove cy coll (e_id e) Hnd).
    right. by exists i, e.
  - by apply (node_is_no_edge cy i e0 j).
Qed.

Lemma wf_remove coll cy : wf cy → wf (remove coll cy).
Proof.
  intros [Hnd Hc]. split.
  - unfold remove, elements. by apply NoDup_fmap_filter.
  - intros e s t He Hends. unfold remove in He.
    apply list_elem_of_filter in He as [Hnot He].
    destruct (Hc e s t He Hends) as [Hs Ht].
    destruct (touches_end e s t Hends) as [Hts Htt].
    split; by apply (remove_keeps_end coll cy e).
Qed.

Lemma preserves_ret {A} (a : A) : preserves (ret a).
Proof. by intros cy. Qed.

Lemma preserves_get : preserves get.
Proof. by intros cy. Qed.

Lemma preserves_modify (f : Core → Core) :
  (∀ cy, wf cy → wf (f cy)) → preserves (modify f).
Proof. intros Hf cy Hwf. by apply Hf. Qed.

Lemma preserves_bind {A B} (m : M A) (k : A → M B) :
  preserves m → (∀ a, preserves (k a)) → preserves (bind m k).
Proof.
  intros Hm Hk cy Hwf. unfold bind. specialize (Hm cy Hwf).
  destruct (m cy) as [cy1 [a|err]]; [by apply Hk|done].
Qed.

Lemma preserves_updateActiveFile node b : preserves (updateActiveFile node b).
Proof.
  apply preserves_modify. intros cy Hwf. cbv zeta.
  by apply wf_addClass, wf_addClass, wf_addClass, wf_addClass, wf_removeClass.
Qed.

Lemma preserves_onGraphChanged : preserves onGraphChanged.
Proof.
  intros cy Hwf. pose proof Hwf as [Hnd _].
  rewrite (onGraphChanged_metrics cy Hnd). cbn [fst].
  pose proof (metrics_same (λ i, degree i cy) cy) as Hsame.
  apply (wf_same_shape cy); [| |done].
  - symmetry. by apply same_but_metrics_elements.
  - symmetry. by apply same_but_metrics_ends.
Qed.

Lemma preserves_removeNodes removed : preserves (removeNodes removed).
Proof.
  unfold removeNodes.
  apply preserves_bind; [apply preserves_get|]. intros cy0.
  apply preserves_bind.
  { apply preserves_modify. intros cy. apply wf_removeClass. }
  intros _. apply preserves_bind; [apply preserves_get|]. intros cy1.
  apply preserves_bind.
  { apply preserves_modify. intros cy. apply wf_remove. }
  intros _. apply preserves_ret.
Qed.

Lemma unique_ret {A} (a : A) : unique (ret a).
Proof. by intros cy. Qed.

Lemma unique_get : unique get.
Proof. by intros cy. Qed.

Lemma unique_await {A} (p : Outcome A) : unique (await p).
Proof. by intros cy. Qed.

Lemma unique_modify (f : Core → Core) :
  (∀ cy, NoDup (elements cy) → NoDup (elements (f cy))) → unique (modify f).
Proof. intros Hf cy Hnd. by apply Hf. Qed.

Lemma unique_update coll f :
  keeps_shape f → unique (modify (update coll f)).
Proof.
  intros Hf. apply unique_modify. intros cy Hnd.
  rewrite elements_update; [done|]. intros e. apply Hf.
Qed.

Lemma unique_bind {A B} (m : M A) (k : A → M B) :
  unique m → (∀ a, unique (k a)) → unique (bind m k).
Proof.
  intros Hm Hk cy Hnd. unfold bind. specialize (Hm cy Hnd).
  destruct (m cy) as [cy1 [a|err]]; [by apply Hk|done].
Qed.

Lemma unique_add ds : unique (add ds).
Proof. intros cy. apply NoDup_add. Qed.

Lemma unique_mergeToGraph l : unique (mergeToGraph l).
Proof. intros cy. apply NoDup_mergeToGraph. Qed.

Lemma unique_neighbourhood stores ids : unique (neighbourhood stores ids).
Proof.
  intros cy Hnd. unfold neighbourhood. by rewrite neighbourhood_from_state.
Qed.

Lemma unique_buildEdges stores newNodes : unique (buildEdges stores newNodes).
Proof.
  intros cy Hnd. unfold buildEdges. by rewrite buildEdges_from_state.
Qed.

Lemma unique_updateActiveFile node b : unique (updateActiveFile node b).
Proof. intros cy Hnd. by rewrite elements_updateActiveFile. Qed.

Lemma unique_onGraphChanged : unique onGraphChanged.
Proof.
  intros cy Hnd. rewrite (onGraphChanged_metrics cy Hnd). cbn [fst].
  rewrite (same_but_metrics_elements cy); [done|apply metrics_same].
Qed.

Lemma unique_expand stores toExpand : unique (expand stores toExpand).
Proof.
  unfold expand.
  apply unique_bind; [apply unique_neighbourhood|]. intros nbh.
  apply unique_bind; [apply unique_mergeToGraph|]. intros _.
  apply unique_bind; [apply unique_get|]. intros cy1. cbv zeta.
  apply unique_bind; [apply unique_buildEdges|]. intros edges.
  apply unique_bind; [apply unique_mergeToGraph|]. intros eig.
  apply unique_bind; [by apply unique_update|].
  intros _. apply unique_bind; [apply unique_updateActiveFile|].
  intros _. apply unique_ret.
Qed.

Lemma unique_removeNodes removed : unique (removeNodes removed).
Proof.
  unfold removeNodes.
  apply unique_bind; [apply unique_get|]. intros cy0.
  apply unique_bind; [by apply unique_update|].
  intros _. apply unique_bind; [apply unique_get|]. intros cy1.
  apply unique_bind; [|intros _; apply unique_ret].
  apply unique_modify. intros cy Hnd. unfold remove, elements.
  by apply NoDup_fmap_filter.
Qed.

(** X8: every operation of the view keeps the identities of the graph
    unique, also when it throws or a store rejects: merging, expanding,
    hiding, recomputing the metrics, marking the active file and the three
    selection commands.  The operations that add nothing (all but merging
    and expanding) also keep every edge between two nodes of the graph. *)
Theorem X8_operations_keep_identities_unique
    (stores : list IDataStore) (l : list ElementDefinition)
    (coll : Collection) (b : bool) :
  (unique (mergeToGraph l)
   ∧ unique (expand stores coll)
   ∧ unique (expandSelection stores)
   ∧ unique (removeNodes coll)
   ∧ unique removeSelection
   ∧ unique onGraphChanged
   ∧ unique (updateActiveFile coll b)
   ∧ unique selectAll
   ∧ unique invertSelection
   ∧ unique selectNeighbourhood)
  ∧ (preserves (removeNodes coll)
     ∧ preserves removeSelection
     ∧ preserves onGraphChanged
     ∧ preserves (updateActiveFile coll b)
     ∧ preserves selectAll
     ∧ preserves invertSelection
     ∧ preserves selectNeighbourhood).
Proof.
  split; repeat apply conj.
  - apply unique_mergeToGraph.
  - apply unique_expand.
  - apply unique_bind; [apply unique_get|]. intros cy.
    apply unique_expand.
  - apply unique_removeNodes.
  - apply unique_bind; [apply unique_get|]. intros cy.
    apply unique_removeNodes.
  - apply unique_onGraphChanged.
  - apply unique_updateActiveFile.
  - apply unique_modify. intros cy Hnd. unfold select.
    by rewrite elements_update.
  - apply unique_modify. intros cy Hnd. cbv zeta. unfold select, unselect.
    by rewrite !elements_update.
  - apply unique_modify. intros cy Hnd. cbv zeta. unfold select, unselect.
    by rewrite !elements_update.
  - apply preserves_removeNodes.
  - apply preserves_bind; [apply preserves_get|]. intros cy.
    apply preserves_removeNodes.
  - apply preserves_onGraphChanged.
  - apply preserves_updateActiveFile.
  - apply preserves_modify. intros cy. apply wf_select.
  - apply preserves_modify. intros cy Hwf. cbv zeta.
    by apply wf_select, wf_unselect.
  - apply preserves_modify. intros cy Hwf. cbv zeta.
    by apply wf_select, wf_unselect.
Qed.

End InvariantExtras.

(** ** Further properties: what a merge adds and returns *)

Section MergeExtras.

Import Cy View PerElement Refresh Invariants Examples.

Implicit Types (cy : Core) (e : Ele) (n d : ElementDefinition)
  (l : list ElementDefinition).

Lemma named_merged_ele n e : keepsName n → named e → named (merged_ele n e).
Proof.
  intros Hk (v & Hv & Hnn). unfold named. simpl. unfold data_fields.
  destruct (filter (λ kv, kv.1 ∉ immutableKeys) (def_data n) !! "name")
    as [w|] eqn:E.
  - exists w. split; [by apply lookup_union_Some_raw; left|].
    apply map_lookup_filter_Some in E as [E _]. intros ->. by apply Hk.
  - exists v. split; [|done]. apply lookup_union_Some_raw. right. done.
Qed.

Lemma named_merge_all l e :
  (∀ n, n ∈ l → keepsName n) → named e → named (merge_all l e).
Proof.
  revert e. induction l as [|n l IH]; intros e Hl He; [done|].
  rewrite merge_all_cons. apply IH.
  - intros m Hm. apply Hl. by right.
  - case_decide; [|done]. apply named_merged_ele; [|done]. apply Hl. by left.
Qed.

Lemma named_same_but_metrics e e' : same_but_metrics e e' → named e → named e'.
Proof.
  intros (_ & _ & _ & _ & Hd) (v & Hv & Hnn). exists v. split; [|done].
  by rewrite Hd.
Qed.

Lemma mergeToGraph_outcome l cy :
  NoDup (elements cy) →
  completes (mergeToGraph l cy)
  ↔ (∃ added, (add (staged l cy) (merge_all l <$> cy)).2 = Ok added)
    ∧ (metrics (λ i, degree i (merged_store l cy)) (merged_store l cy)).2
      = Ok tt.
Proof.
  intros Hnd. unfold completes.
  destruct (mergeToGraph_run l cy Hnd) as (M' & _ & ->).
  unfold merged_store.
  destruct (add (staged l cy) (merge_all l <$> cy)) as [X [added|err]];
    cbn [fst snd].
  - destruct (metrics _ X).2 as [[]|err]; split; try done.
    + intros _. split; [by exists added|done].
    + by intros [_ H].
  - split; [done|]. by intros [[added H] _].
Qed.

(** Records that are new, with distinct identities, none of them empty,
    and with known end points, are all taken by [cy.add]. *)
Lemma add_staged_completes l cy :
  NoDup (elements cy) → NoDup (def_id <$> l) →
  (∀ n, n ∈ l → def_id n ∉ elements cy → restorable l cy n) →
  ∃ added, (add (staged l cy) (merge_all l <$> cy)).2 = Ok added.
Proof.
  intros Hnd Hl Hr.
  assert (Hfree : ∀ d, d ∈ staged l cy → def_id d ∉ elements (merge_all l <$> cy)).
  { intros d Hd. apply list_elem_of_filter in Hd as [Hd _].
    by rewrite elements_merge_all. }
  pose proof (NoDup_staged l cy Hl) as HndS.
  unfold add. rewrite (created_all _ _ HndS Hfree).
  pose proof (NoDup_nodes_first _ HndS) as HndF.
  unfold nodesFirst in *. rewrite fmap_app in HndF.
  apply NoDup_app in HndF as (HndN & Hdisj & HndE).
  rewrite foldl_app.
  rewrite (restore_fold_completes _ _ _ HndN).
  - rewrite (restore_fold_completes _ _ _ HndE); [by eexists| |].
    + intros d Hd. apply list_elem_of_filter in Hd as [Hedge Hd].
      pose proof Hd as Hd'. apply list_elem_of_filter in Hd' as [Hout Hdl].
      split; [by destruct (Hr d Hdl Hout)|].
      rewrite elements_app, elements_merge_all, elements_of_defs.
      intros Hin. apply elem_of_app in Hin as [Hin|Hin]; [done|].
      apply (Hdisj _ Hin). apply list_elem_of_fmap_2.
      by apply list_elem_of_filter.
    + intros d s t Hd Hends. apply list_elem_of_filter in Hd as [Hedge Hd].
      apply list_elem_of_filter in Hd as [Hout Hdl].
      destruct (Hr d Hdl Hout) as [_ Hk]. rewrite Hends in Hk.
      destruct Hk as [[Hs Hks] [Ht Hkt]].
      assert (Hknown : ∀ i, (i ∈ elements cy
                   ∨ ∃ n, n ∈ l ∧ def_id n = i ∧ def_ends n = None) →
                i ∈ elements ((merge_all l <$> cy)
                   ++ (ele_of_def <$> filter (λ d, defIsNode d = true)
                                             (staged l cy)))%list).
      { intros i Hi. rewrite elements_app, elements_merge_all, elements_of_defs.
        apply elem_of_app.
        destruct (decide (i ∈ elements cy)) as [|Hni]; [by left|right].
        destruct Hi as [Hi|(n & Hn & <- & Hnode)]; [done|].
        apply list_elem_of_fmap_2. apply list_elem_of_filter.
        split; [unfold defIsNode; by apply bool_decide_eq_true_2|].
        by apply list_elem_of_filter. }
      repeat split; try done; by apply Hknown.
  - intros d Hd. apply list_elem_of_filter in Hd as [_ Hd].
    pose proof Hd as Hd'. apply list_elem_of_filter in Hd' as [Hout Hdl].
    split; [by destruct (Hr d Hdl Hout)|by apply Hfree].
  - intros d s t Hd Hends. apply list_elem_of_filter in Hd as [Hnode _].
    unfold defIsNode in Hnode. apply bool_decide_eq_true in Hnode.
    congruence.
Qed.

Lemma merged_store_named l cy :
  (∀ e, e ∈ cy → isNode e = true → named e) →
  (∀ n, n ∈ l → keepsName n) →
  (∀ n, n ∈ l → defIsNode n = true → def_id n ∉ elements cy → namedDef n) →
  ∀ e, e ∈ merged_store l cy → isNode e = true → named e.
Proof.
  intros Hcy Hkeep Hnew e He Hn. unfold merged_store in He.
  destruct (add_extends (staged l cy) (merge_all l <$> cy)) as (new & Heq & Hall).
  rewrite Heq in He. apply elem_of_app in He as [He|He].
  - apply list_elem_of_fmap in He as (e0 & -> & He0).
    apply named_merge_all; [done|]. apply Hcy; [done|].
    by rewrite isNode_merge_all in Hn.
  - destruct (proj1 (Forall_forall _ _) Hall e He) as (d & Hd & ->).
    apply list_elem_of_filter in Hd as [Hfree Hd].
    destruct (Hnew d Hd Hn Hfree) as (v & Hv & Hnn). by exists v.
Qed.

(** X9: merging completes when the records have pairwise distinct
    identities, every record that is new to the graph has an identity that
    is not empty and, if it is an edge record, end points that are in the
    graph or are node records of the list, every node of the graph has a
    name, no record sets a name to [null], and every new node record
    carries a name; every node of the graph has a name afterwards. *)
Theorem X9_merge_of_named_records_completes
    (cy : Core) (l : list ElementDefinition) :
  NoDup (elements cy) →
  NoDup (def_id <$> l) →
  (∀ n, n ∈ l → def_id n ∉ elements cy → restorable l cy n) →
  (∀ e, e ∈ cy → isNode e = true → named e) →
  (∀ n, n ∈ l → keepsName n) →
  (∀ n, n ∈ l → defIsNode n = true → def_id n ∉ elements cy → namedDef n) →
  completes (mergeToGraph l cy)
  ∧ ∀ e, e ∈ (mergeToGraph l cy).1 → isNode e = true → named e.
Proof.
  intros Hnd Hl Hr Hcy Hkeep Hnew.
  pose proof (merged_store_named l cy Hcy Hkeep Hnew) as Hnamed.
  split.
  - apply mergeToGraph_outcome; [done|]. split.
    + by apply add_staged_completes.
    + by apply metrics_completes.
  - intros e' He' Hn'.
    pose proof (mergeToGraph_same l cy Hnd) as Hsame.
    apply list_elem_of_lookup_1 in He' as [k Hk].
    destruct (Forall2_lookup_r _ _ _ _ _ Hsame Hk) as (e & Hke & Hrel).
    apply (named_same_but_metrics e e' Hrel). apply Hnamed.
    + by apply list_elem_of_lookup_2 in Hke.
    + destruct Hrel as (_ & Hends & _). unfold isNode in *.
      by rewrite <- Hends.
Qed.

Lemma X9_merge_of_named_records_completes_witness :
  NoDup (elements [nodeHome])
  ∧ NoDup (def_id <$> [recHome; recB; recHomeB])
  ∧ completes (mergeToGraph [recHome; recB; recHomeB] [nodeHome]).
Proof.
  assert (Hnd : NoDup (elements [nodeHome])) by apply NoDup_singleton.
  assert (Hl : NoDup (def_id <$> [recHome; recB; recHomeB])).
  { apply (bool_decide_unpack _). vm_compute. exact I. }
  split; [exact Hnd|]. split; [exact Hl|].
  apply (X9_merge_of_named_records_completes
           [nodeHome] [recHome; recB; recHomeB] Hnd Hl).
  - intros n Hn Hout.
    apply elem_of_cons in Hn as [->|Hn].
    { exfalso. apply Hout. by left. }
    apply elem_of_cons in Hn as [->|Hn]; [by split|].
    apply list_elem_of_singleton in Hn. subst n.
    split; [discriminate|]. simpl. split.
    + split; [discriminate|]. left. by left.
    + split; [discriminate|]. right. exists recB.
      split; [|done]. right. by left.
  - intros e He _. apply list_elem_of_singleton in He. subst e.
    eexists. split; [reflexivity|done].
  - intros n Hn.
    repeat (apply elem_of_cons in Hn as [->|Hn]; [done|]).
    by apply elem_of_nil in Hn.
  - intros n Hn Hnode _.
    apply elem_of_cons in Hn as [->|Hn];
      [eexists; split; [reflexivity|done]|].
    apply elem_of_cons in Hn as [->|Hn];
      [eexists; split; [reflexivity|done]|].
    apply list_elem_of_singleton in Hn. subst n. discriminate Hnode.
Defined.

(** X10: when a merge of records with pairwise distinct identities
    completes, a record whose identity was new is in the graph with exactly
    its classes, its end points and its data, the recomputed metrics apart,
    and not selected. *)
Theorem X10_merge_adds_new_record
    (cy : Core) (l : list ElementDefinition) (d : ElementDefinition)
    (r : Collection) :
  NoDup (elements cy) →
  NoDup (def_id <$> l) →
  d ∈ l →
  def_id d ∉ elements cy →
  (mergeToGraph l cy).2 = Ok r →
  ∃ e', getElementById (def_id d) (mergeToGraph l cy).1 = Some e'
        ∧ same_but_metrics (ele_of_def d) e'.
Proof.
  intros Hnd Hl Hd Hfree Hok.
  assert (Hst : d ∈ staged l cy) by (by apply list_elem_of_filter).
  assert (Hele : ele_of_def d ∈ merged_store l cy).
  { destruct (mergeToGraph l cy) as [cy' o] eqn:Hm. simpl in Hok. subst o.
    destruct (mergeToGraph_Ok_add l cy cy' r Hnd Hm) as (X & added & Hadd & _).
    unfold merged_store. rewrite Hadd. cbn [fst].
    apply add_ok in Hadd as [-> _]. apply elem_of_app. right.
    apply list_elem_of_fmap_2. apply elem_of_nodes_first.
    rewrite created_all; [done|by apply NoDup_staged|].
    intros d' Hd'. apply list_elem_of_filter in Hd' as [Hd' _].
    by rewrite elements_merge_all. }
  pose proof (mergeToGraph_same l cy Hnd) as Hsame.
  apply list_elem_of_lookup_1 in Hele as [k Hk].
  destruct (Forall2_lookup_l _ _ _ _ _ Hsame Hk) as (e' & Hk' & Hrel).
  exists e'. split; [|done].
  destruct Hrel as (Hid & _). simpl in Hid. rewrite <- Hid.
  apply getElementById_unique; [by apply NoDup_mergeToGraph|].
  by apply list_elem_of_lookup_2 in Hk'.
Qed.

Lemma X10_merge_adds_new_record_witness :
  NoDup (elements [nodeA])
  ∧ NoDup (def_id <$> [recA; recX1])
  ∧ (def_id recX1 ∉ elements [nodeA])
  ∧ (mergeToGraph [recA; recX1] [nodeA]).2 = Ok ["core:A"; "core:X"]
  ∧ ∃ e', getElementById "core:X" (mergeToGraph [recA; recX1] [nodeA]).1 = Some e'
          ∧ e_classes e' = {["draft"]}.
Proof.
  assert (Hnd : NoDup (elements [nodeA])) by apply NoDup_singleton.
  assert (Hl : NoDup (def_id <$> [recA; recX1])).
  { apply (bool_decide_unpack _). vm_compute. exact I. }
  assert (Hfree : def_id recX1 ∉ elements [nodeA]).
  { intros H. apply list_elem_of_singleton in H. discriminate H. }
  assert (Hok : (mergeToGraph [recA; recX1] [nodeA]).2 = Ok ["core:A"; "core:X"])
    by (vm_compute; reflexivity).
  split; [exact Hnd|]. split; [exact Hl|]. split; [exact Hfree|].
  split; [exact Hok|].
  destruct (X10_merge_adds_new_record [nodeA] [recA; recX1] recX1
              ["core:A"; "core:X"] Hnd Hl)
    as (e' & Hget & Hsame).
  - right. by left.
  - exact Hfree.
  - exact Hok.
  - exists e'. split; [exact Hget|].
    destruct Hsame as (_ & _ & Hcls & _). rewrite Hcls.
    apply (bool_decide_unpack _). vm_compute. exact I.
Defined.

(** A record that cannot be restored makes the merge throw in [add], with
    the graph as the loop and the restored records left it. *)
Lemma mergeToGraph_refused
    (cy : Core) (l : list ElementDefinition) (d : ElementDefinition) :
  NoDup (elements cy) →
  NoDup (def_id <$> l) →
  d ∈ l →
  def_id d ∉ elements cy →
  (def_id d = ""
   ∨ ∃ s t, def_ends d = Some (s, t)
            ∧ (((s ∉ elements cy) ∧ (s ∉ (def_id <$> l)))
               ∨ ((t ∉ elements cy) ∧ (t ∉ (def_id <$> l))))) →
  ∃ why,
    (mergeToGraph l cy).2 = Thrown (CannotCreate why)
    ∧ (mergeToGraph l cy).1 = merged_store l cy
    ∧ ∀ e, e ∈ cy → merge_all l e ∈ (mergeToGraph l cy).1.
Proof.
  intros Hnd Hl Hd Hfree Hbad.
  assert (Hst : d ∈ staged l cy) by (by apply list_elem_of_filter).
  destruct (mergeToGraph_run l cy Hnd) as (M' & _ & Hrun).
  destruct (merged_store_extends l cy) as [new Hnew].
  unfold merged_store in *.
  destruct (add (staged l cy) (merge_all l <$> cy)) as [X [added|err]] eqn:E.
  - exfalso. pose proof E as E'. apply add_ok in E' as [HX _].
    unfold add in E. rewrite created_all in E, HX.
    2,4: by apply NoDup_staged.
    2,3: intros d' Hd'; apply list_elem_of_filter in Hd' as [Hd' _];
         by rewrite elements_merge_all.
    destruct (restore_fold_ok_each _ _ _ _ _ d E) as [Hid Hends].
    { by apply elem_of_nodes_first. }
    destruct Hbad as [Hbad|(s & t & He & Hbad)]; [done|].
    destruct (Hends s t He) as [Hs Ht].
    assert (Hsub : ∀ i, i ∈ elements X → i ∈ elements cy ∨ i ∈ def_id <$> l).
    { intros i Hi. rewrite HX, elements_app, elements_merge_all in Hi.
      apply elem_of_app in Hi as [Hi|Hi]; [by left|right].
      rewrite elements_of_defs in Hi.
      apply list_elem_of_fmap in Hi as (n & -> & Hn).
      apply (proj1 (elem_of_nodes_first _ _)) in Hn.
      apply list_elem_of_filter in Hn as [_ Hn].
      by apply list_elem_of_fmap_2. }
    destruct Hbad as [[H1 H2]|[H1 H2]].
    + destruct (Hsub s Hs); done.
    + destruct (Hsub t Ht); done.
  - unfold add in E. rewrite created_all in E.
    2: by apply NoDup_staged.
    2: intros d' Hd'; apply list_elem_of_filter in Hd' as [Hd' _];
       by rewrite elements_merge_all.
    pose proof E as E'.
    apply restore_fold_refused in E' as (pre & d0 & suf & why & _ & _ & _ & ->).
    exists why. rewrite Hrun. cbn [fst snd]. split; [done|]. split; [done|].
    intros e He. simpl in Hnew. rewrite Hnew. apply elem_of_app. left.
    by apply list_elem_of_fmap_2.
Qed.

(** X11: a merge of records with pairwise distinct identities throws the
    error of the library when a record that is new to the graph has the
    empty identity, or is an edge record with an end point that is neither
    in the graph nor the identity of a record of the list.  The elements
    that were in the graph have been merged by then, and nothing has left
    the graph; the metrics have not been recomputed. *)
Theorem X11_merge_throws_on_refused_record
    (cy : Core) (l : list ElementDefinition) (d : ElementDefinition) :
  NoDup (elements cy) →
  NoDup (def_id <$> l) →
  d ∈ l →
  def_id d ∉ elements cy →
  (def_id d = ""
   ∨ ∃ s t, def_ends d = Some (s, t)
            ∧ (((s ∉ elements cy) ∧ (s ∉ (def_id <$> l)))
               ∨ ((t ∉ elements cy) ∧ (t ∉ (def_id <$> l))))) →
  ∃ why,
    (mergeToGraph l cy).2 = Thrown (CannotCreate why)
    ∧ (mergeToGraph l cy).1 = merged_store l cy
    ∧ ∀ e, e ∈ cy → merge_all l e ∈ (mergeToGraph l cy).1.
Proof. apply mergeToGraph_refused. Qed.

Lemma X11_merge_throws_on_refused_record_witness :
  NoDup (elements [nodeHome; nodeB])
  ∧ NoDup (def_id <$> [recHomeB; recHomeZ])
  ∧ (∃ why, (mergeToGraph [recHomeB; recHomeZ] [nodeHome; nodeB]).2
            = Thrown (CannotCreate why))
  ∧ (mergeToGraph [recHomeB; recHomeZ] [nodeHome; nodeB]).2
    = Thrown (CannotCreate (NonexistentEnd "core:Home->core:Z" "core:Z"))
  ∧ elements (mergeToGraph [recHomeB; recHomeZ] [nodeHome; nodeB]).1
    = ["core:Home"; "core:B"; "core:Home->core:B"].
Proof.
  assert (Hnd : NoDup (elements [nodeHome; nodeB])).
  { apply (bool_decide_unpack _). vm_compute. exact I. }
  assert (Hl : NoDup (def_id <$> [recHomeB; recHomeZ])).
  { apply (bool_decide_unpack _). vm_compute. exact I. }
  split; [exact Hnd|]. split; [exact Hl|].
  destruct (X11_merge_throws_on_refused_record
              [nodeHome; nodeB] [recHomeB; recHomeZ] recHomeZ Hnd Hl)
    as (why & Hthrown & _).
  - right. by left.
  - intros H. repeat (apply elem_of_cons in H as [H|H]; [discriminate H|]).
    by apply elem_of_nil in H.
  - right. exists "core:Home", "core:Z". split; [reflexivity|]. right.
    split; intros H;
      repeat (apply elem_of_cons in H as [H|H]; [discriminate H|]);
      by apply elem_of_nil in H.
  - split; [by exists why|]. split; reflexivity.
Defined.

(** X29: a class list that names only classes the element has, in as many
    entries as the element has classes, leaves the classes of the element
    as they are: the library sees nothing to change.  So a list that
    repeats a name can leave a class that it does not list. *)
Theorem X29_class_list_that_changes_nothing
    (cy : Core) (n : ElementDefinition) (e : Ele) (cs : list string) :
  NoDup (elements cy) →
  e ∈ cy →
  def_id n = e_id e →
  def_classes n = Some cs →
  (∀ c, c ∈ cs → c ∈ e_classes e) →
  size (e_classes e) = length cs →
  ∃ e', getElementById (e_id e) (mergeToGraph [n] cy).1 = Some e'
        ∧ e_classes e' = e_classes e.
Proof.
  intros Hnd He Hid Hcs Hall Hsize.
  destruct (mergeToGraph_existing [n] cy e Hnd He) as (e' & Hget & Hsame).
  exists e'. split; [done|].
  destruct Hsame as (_ & _ & Hcls & _). rewrite Hcls.
  unfold merge_all. simpl. rewrite decide_True by done.
  unfold merged_ele, merged_classes, protected. simpl. rewrite Hcs.
  unfold classesAfter, classesChanged.
  assert (Hex : existsb (λ c, negb (bool_decide (c ∈ e_classes e))) cs = false).
  { apply not_true_is_false. intros H.
    apply existsb_exists in H as (c & Hc & Hneg).
    apply negb_true_iff, bool_decide_eq_false in Hneg.
    apply Hneg, Hall. by apply list_elem_of_In. }
  rewrite Hex, bool_decide_eq_true_2 by done. simpl. set_solver.
Qed.

Lemma X29_class_list_that_changes_nothing_witness :
  NoDup (elements [nodeT])
  ∧ nodeT ∈ [nodeT]
  ∧ def_classes recT = Some ["note"; "note"]
  ∧ ∃ e', getElementById "core:T" (mergeToGraph [recT] [nodeT]).1 = Some e'
          ∧ e_classes e' = {["note"; "draft"]}.
Proof.
  assert (Hnd : NoDup (elements [nodeT])) by apply NoDup_singleton.
  assert (Hin : nodeT ∈ [nodeT]) by apply list_elem_of_here.
  split; [exact Hnd|]. split; [exact Hin|]. split; [reflexivity|].
  apply (X29_class_list_that_changes_nothing
           [nodeT] recT nodeT ["note"; "note"] Hnd Hin eq_refl eq_refl).
  - intros c Hc.
    repeat (apply elem_of_cons in Hc as [->|Hc]; [set_solver|]).
    by apply elem_of_nil in Hc.
  - vm_compute. reflexivity.
Defined.

Lemma elem_of_merge (a b : Collection) i : i ∈ merge a b ↔ i ∈ a ∨ i ∈ b.
Proof.
  unfold merge. rewrite elem_of_app, list_elem_of_filter, elem_of_remove_dups.
  destruct (decide (i ∈ a)); tauto.
Qed.

Lemma NoDup_merge (a b : Collection) : NoDup a → NoDup (merge a b).
Proof.
  intros Ha. unfold merge. apply NoDup_app. split; [done|]. split.
  - intros x Hx Hin. by apply list_elem_of_filter in Hin as [Hn _].
  - apply NoDup_filter, NoDup_remove_dups.
Qed.

Lemma merge_loop_collection l cy A M i :
  NoDup (elements cy) →
  i ∈ (foldl merge_element (cy, A, M) l).2
  ↔ i ∈ M ∨ (i ∈ elements cy ∧ ∃ n, n ∈ l ∧ def_id n = i).
Proof.
  revert cy A M. induction l as [|n l IH]; intros cy A M Hnd.
  - simpl. split; [by left|]. intros [H|(_ & n & Hn & _)]; [done|].
    by apply elem_of_nil in Hn.
  - cbn [foldl]. destruct (getElementById (def_id n) cy) as [g|] eqn:Hget.
    + rewrite (merge_element_found _ _ _ _ _ Hnd Hget).
      rewrite IH by (by apply NoDup_elements_update).
      rewrite elements_update by done. rewrite elem_of_merge.
      rewrite list_elem_of_singleton.
      apply getElementById_Some in Hget as [Hg Hid].
      assert (Hin : def_id n ∈ elements cy).
      { rewrite <- Hid. by apply list_elem_of_fmap_2. }
      split.
      * intros [[H | ->] | (Hi & m & Hm & Hmi)].
        -- by left.
        -- right. split; [done|]. exists n. split; [by left|done].
        -- right. split; [done|]. exists m. split; [by right|done].
      * intros [H|(Hi & m & Hm & Hmi)]; [by left; left|].
        apply elem_of_cons in Hm as [->|Hm].
        -- left. right. done.
        -- right. split; [done|]. by exists m.
    + rewrite (merge_element_new _ _ _ _ Hget). rewrite IH by done.
      apply getElementById_None in Hget. split.
      * intros [H|(Hi & m & Hm & Hmi)]; [by left|].
        right. split; [done|]. exists m. split; [by right|done].
      * intros [H|(Hi & m & Hm & Hmi)]; [by left|].
        apply elem_of_cons in Hm as [->|Hm]; [by subst i|].
        right. split; [done|]. by exists m.
Qed.

Lemma NoDup_merge_loop_collection l cy A M :
  NoDup (elements cy) → NoDup M →
  NoDup (foldl merge_element (cy, A, M) l).2.
Proof.
  revert cy A M. induction l as [|n l IH]; intros cy A M Hnd HM; [done|].
  cbn [foldl]. destruct (getElementById (def_id n) cy) as [g|] eqn:Hget.
  - rewrite (merge_element_found _ _ _ _ _ Hnd Hget). apply IH.
    + by apply NoDup_elements_update.
    + by apply NoDup_merge.
  - rewrite (merge_element_new _ _ _ _ Hget). by apply IH.
Qed.

Lemma mergeToGraph_returns
    (cy cy' : Core) (l : list ElementDefinition) (r : Collection) :
  NoDup (elements cy) →
  mergeToGraph l cy = (cy', Ok r) →
  NoDup r
  ∧ ∀ i, i ∈ r ↔ i ∈ elements cy' ∧ ∃ n, n ∈ l ∧ def_id n = i.
Proof.
  intros Hnd Hm.
  destruct (mergeToGraph_run l cy Hnd) as (M' & Hloop & Hrun).
  pose proof (λ i, merge_loop_collection l cy [] [] i Hnd) as HM.
  pose proof (NoDup_merge_loop_collection l cy [] [] Hnd (NoDup_nil_2)) as HndM.
  rewrite Hloop in HM, HndM. simpl in HM, HndM.
  rewrite Hrun in Hm.
  destruct (add (staged l cy) (merge_all l <$> cy)) as [X [added|err]] eqn:E;
    [|discriminate Hm].
  destruct (metrics (λ i, degree i X) X).2 as [[]|err] eqn:Em;
    [|discriminate Hm].
  injection Hm as <- <-.
  assert (Hel : elements (metrics (λ i, degree i X) X).1 = elements X)
    by apply same_but_metrics_elements, metrics_same.
  apply add_ok in E as [HX Hadded]. cbv zeta in HX, Hadded.
  rewrite Hel, HX, elements_app, elements_of_defs, <- Hadded.
  rewrite elements_merge_all.
  split; [by apply NoDup_merge|].
  intros i. rewrite elem_of_merge, (HM i), elem_of_app. split.
  - intros [[H|(Hi & n & Hn & Hid)]|Hi].
    + by apply elem_of_nil in H.
    + split; [by left|]. by exists n.
    + split; [by right|]. rewrite Hadded in Hi.
      apply list_elem_of_fmap in Hi as (d & -> & Hd).
      exists d. split; [|done].
      apply (proj1 (elem_of_nodes_first _ _)) in Hd.
      apply created_sub in Hd as [Hd _].
      by apply list_elem_of_filter in Hd as [_ Hd].
  - intros [[Hi|Hi] (n & Hn & Hid)].
    + left. right. split; [done|]. by exists n.
    + by right.
Qed.

(** X12: when a merge completes, the collection it returns has no
    duplicates and consists of exactly the identities of the incoming
    records that are in the graph afterwards: the elements that were
    updated and the elements that were added. *)
Theorem X12_merge_returns_merged_elements
    (cy cy' : Core) (l : list ElementDefinition) (r : Collection) :
  NoDup (elements cy) →
  mergeToGraph l cy = (cy', Ok r) →
  NoDup r
  ∧ ∀ i, i ∈ r ↔ i ∈ elements cy' ∧ ∃ n, n ∈ l ∧ def_id n = i.
Proof.
  apply mergeToGraph_returns.
Qed.

Lemma X12_merge_returns_merged_elements_witness :
  NoDup (elements [nodeA])
  ∧ mergeToGraph [recA; recX1] [nodeA]
    = ((mergeToGraph [recA; recX1] [nodeA]).1, Ok ["core:A"; "core:X"])
  ∧ NoDup ["core:A"; "core:X"].
Proof.
  assert (Hnd : NoDup (elements [nodeA])) by apply NoDup_singleton.
  assert (Hm : mergeToGraph [recA; recX1] [nodeA]
               = ((mergeToGraph [recA; recX1] [nodeA]).1, Ok ["core:A"; "core:X"])).
  { assert (H2 : (mergeToGraph [recA; recX1] [nodeA]).2 = Ok ["core:A"; "core:X"])
      by (vm_compute; reflexivity).
    destruct (mergeToGraph [recA; recX1] [nodeA]) as [c o]. simpl in *.
    by rewrite H2. }
  split; [exact Hnd|]. split; [exact Hm|].
  exact (proj1 (X12_merge_returns_merged_elements _ _ _ _ Hnd Hm)).
Defined.

End MergeExtras.

(** ** Further properties: hiding and selecting *)

Section RemoveExtras.

Import Cy View PerElement Examples.

Implicit Types (cy : Core) (e : Ele).

Lemma elem_of_remove e coll cy :
  e ∈ remove coll cy ↔ (e_id e ∉ elesToRemove coll cy) ∧ e ∈ cy.
Proof.
  unfold remove.
  exact (list_elem_of_filter (λ e, e_id e ∉ elesToRemove coll cy) cy e).
Qed.

Lemma elesToRemove_in_graph coll cy x :
  NoDup (elements cy) → x ∈ elesToRemove coll cy → x ∈ elements cy.
Proof.
  intros Hnd Hx.
  apply (elem_of_elesToRemove cy coll x Hnd) in Hx
    as [[_ H]|(i & e & _ & _ & He & <- & _)]; [done|].
  by apply list_elem_of_fmap_2.
Qed.

Lemma touches_keeps_shape f i e :
  keeps_shape f → touches i (f e) = touches i e.
Proof. intros Hf. unfold touches. by destruct (Hf e) as [_ ->]. Qed.

Lemma touched_update coll f cy i x :
  keeps_shape f →
  (∃ e, e ∈ update coll f cy ∧ e_id e = x ∧ touches i e = true)
  ↔ (∃ e, e ∈ cy ∧ e_id e = x ∧ touches i e = true).
Proof.
  intros Hf. split.
  - intros (e' & He' & Hid & Ht).
    apply elem_of_update in He' as (e & He & ->). exists e.
    split; [done|]. case_decide.
    + rewrite touches_keeps_shape in Ht by done.
      by destruct (Hf e) as [<- _].
    + done.
  - intros (e & He & Hid & Ht).
    exists (if decide (e_id e ∈ coll) then f e else e).
    split; [apply elem_of_update; by exists e|]. case_decide.
    + rewrite touches_keeps_shape by done. by destruct (Hf e) as [-> _].
    + done.
Qed.

(** What [removeNodes] returns, in terms of the graph before the call. *)
Lemma keeps_shape_drop_classes (cs : gset string) :
  keeps_shape (λ e, set_classes (e_classes e ∖ cs) e).
Proof. by intros e. Qed.

Lemma removeNodes_result removed cy x :
  NoDup (elements cy) →
  x ∈ elesToRemove removed
        (removeClass (intersection (getExpanded cy) (neighborhood removed cy))
                     ["expanded"] cy)
  ↔ (x ∈ removed ∧ x ∈ elements cy)
    ∨ (∃ i e, i ∈ removed ∧ i ∈ nodes cy ∧ e ∈ cy ∧ e_id e = x
              ∧ touches i e = true).
Proof.
  intros Hnd. unfold removeClass.
  set (coll := intersection (getExpanded cy) (neighborhood removed cy)).
  set (f := λ e, set_classes (e_classes e ∖ list_to_set ["expanded"]) e).
  assert (Hf : keeps_shape f) by apply keeps_shape_drop_classes.
  assert (Hel : elements (update coll f cy) = elements cy)
    by (apply elements_update; by intros e).
  rewrite elem_of_elesToRemove by (by rewrite Hel).
  rewrite Hel, (nodes_update coll f cy Hf).
  split.
  - intros [H|(i & e & Hi & Hn & H)]; [by left|right].
    exists i.
    destruct (proj1 (touched_update coll f cy i x Hf) (ex_intro _ e H))
      as (e0 & H0).
    by exists e0.
  - intros [H|(i & e & Hi & Hn & H)]; [by left|right].
    exists i.
    destruct (proj2 (touched_update coll f cy i x Hf) (ex_intro _ e H))
      as (e0 & H0).
    by exists e0.
Qed.

(** X13: [removeNodes] returns what [nodes.remove()] returns: without
    repetition, the elements of the collection that are in the graph and
    the edges connected to the nodes among them; these are exactly the
    elements that left the graph.  Every other element is still there with
    its end points, data and selection untouched (the derived [degree] is
    not recomputed) and its classes as they were, the class [expanded]
    possibly taken away. *)
Theorem X13_removeNodes_effect (cy : Core) (removed : Collection) :
  NoDup (elements cy) →
  ∃ r, (removeNodes removed cy).2 = Ok r
    ∧ NoDup r
    ∧ (∀ x, x ∈ r ↔
         (x ∈ removed ∧ x ∈ elements cy)
         ∨ (∃ i e, i ∈ removed ∧ i ∈ nodes cy ∧ e ∈ cy ∧ e_id e = x
                   ∧ touches i e = true))
    ∧ (∀ x, x ∈ r ↔
         x ∈ elements cy ∧ x ∉ elements (removeNodes removed cy).1)
    ∧ (∀ e, e ∈ cy → e_id e ∉ r →
         ∃ e', e' ∈ (removeNodes removed cy).1
               ∧ e_id e' = e_id e ∧ e_ends e' = e_ends e
               ∧ e_data e' = e_data e ∧ e_selected e' = e_selected e
               ∧ (e_classes e' = e_classes e
                  ∨ e_classes e' = e_classes e ∖ {["expanded"]})).
Proof.
  intros Hnd.
  set (coll := intersection (getExpanded cy) (neighborhood removed cy)).
  set (cy1 := removeClass coll ["expanded"] cy).
  assert (Hel : elements cy1 = elements cy).
  { unfold cy1, removeClass. apply elements_update. by intros e. }
  assert (Hnd1 : NoDup (elements cy1)) by (by rewrite Hel).
  exists (elesToRemove removed cy1).
  split; [done|]. split; [apply NoDup_elesToRemove|].
  split; [intros x; by apply removeNodes_result|].
  rewrite removeNodes_store. fold coll. fold cy1. split.
  - intros x. split.
    + intros Hx. split; [rewrite <- Hel; by apply (elesToRemove_in_graph removed)|].
      intros Hin. apply list_elem_of_fmap in Hin as (e & -> & He).
      by apply elem_of_remove in He as [He _].
    + intros [Hx Hout].
      destruct (decide (x ∈ elesToRemove removed cy1)) as [|Hno]; [done|].
      exfalso. apply Hout. rewrite <- Hel in Hx.
      apply list_elem_of_fmap in Hx as (e & -> & He).
      apply list_elem_of_fmap_2. by apply elem_of_remove.
  - intros e He Hid.
    exists (if decide (e_id e ∈ coll)
            then set_classes (e_classes e ∖ list_to_set ["expanded"]) e else e).
    split.
    + apply elem_of_remove. split.
      * by case_decide.
      * unfold cy1, removeClass. apply elem_of_update. by exists e.
    + destruct (decide (e_id e ∈ coll)) as [Hin|Hout]; simpl.
      * split; [done|]. split; [done|]. split; [done|]. split; [done|].
        right. reflexivity.
      * split; [done|]. split; [done|]. split; [done|]. split; [done|].
        by left.
Qed.

Lemma X13_removeNodes_effect_witness :
  NoDup (elements [nodeB; nodeC; edgeBC])
  ∧ (removeNodes ["core:C"] [nodeB; nodeC; edgeBC]).2
    = Ok ["core:B->core:C"; "core:C"]
  ∧ ∃ r, (removeNodes ["core:C"] [nodeB; nodeC; edgeBC]).2 = Ok r ∧ NoDup r.
Proof.
  assert (Hnd : NoDup (elements [nodeB; nodeC; edgeBC])).
  { apply (bool_decide_unpack _). vm_compute. exact I. }
  split; [exact Hnd|]. split; [reflexivity|].
  destruct (X13_removeNodes_effect [nodeB; nodeC; edgeBC] ["core:C"] Hnd)
    as (r & Hr & Hndr & _).
  exists r. split; [exact Hr|exact Hndr].
Defined.

End RemoveExtras.

Section ShapeFacts.

Import Cy View PerElement Shape.

Implicit Types (cy : Core) (e : Ele).

Lemma sameShape_refl cy : sameShape cy cy.
Proof. apply Forall_Forall2_diag. by apply Forall_true. Qed.

Lemma sameShape_trans cy1 cy2 cy3 :
  sameShape cy1 cy2 → sameShape cy2 cy3 → sameShape cy1 cy3.
Proof.
  unfold sameShape. intros H1 H2. revert cy3 H2.
  induction H1 as [|a b l1 l2 [Hi He] _ IH]; intros cy3 H2.
  - by inversion H2.
  - inversion H2 as [|b' c l2' l3 [Hi' He'] Hrest]; subst.
    constructor; [split; congruence|]. by apply IH.
Qed.

Lemma sameShape_update coll f cy :
  keeps_shape f → sameShape cy (update coll f cy).
Proof.
  intros Hf. unfold sameShape, update. apply Forall2_fmap_r.
  apply Forall_Forall2_diag. apply Forall_true. intros e. simpl.
  destruct (decide (e_id e ∈ coll)); [apply Hf|done].
Qed.

Lemma sameShape_elements cy cy' : sameShape cy cy' → elements cy' = elements cy.
Proof.
  unfold sameShape. induction 1 as [|a b l1 l2 [Hi He] _ IH]; [done|].
  unfold elements in *. rewrite !fmap_cons. by rewrite Hi, IH.
Qed.

Lemma sameShape_ends cy cy' : sameShape cy cy' → e_ends <$> cy' = e_ends <$> cy.
Proof.
  unfold sameShape. induction 1 as [|a b l1 l2 [Hi He] _ IH]; [done|].
  rewrite !fmap_cons. by rewrite He, IH.
Qed.

Lemma sameShape_nodes cy cy' : sameShape cy cy' → nodes cy' = nodes cy.
Proof.
  intros H. apply nodes_same_shape;
    [by apply sameShape_elements|by apply sameShape_ends].
Qed.

(** A filter and a continuation that look at identity and end points only
    give the same on graphs of the same shape. *)
Lemma bind_filter_sameShape {B} (P : Ele → Prop) `{∀ e, Decision (P e)}
      (k : Ele → list B) cy cy' :
  sameShape cy cy' →
  (∀ e e', e_id e' = e_id e → e_ends e' = e_ends e → (P e ↔ P e') ∧ k e = k e') →
  filter P cy' ≫= k = filter P cy ≫= k.
Proof.
  intros Hs Hk. unfold sameShape in Hs.
  induction Hs as [|a b l1 l2 [Hi He] _ IH]; [done|].
  destruct (Hk a b Hi He) as [HP Hka]. rewrite !filter_cons.
  destruct (decide (P a)) as [Ha|Ha], (decide (P b)) as [Hb|Hb];
    try tauto; rewrite ?bind_cons, ?IH, ?Hka; done.
Qed.

Lemma fmap_as_bind {A B} (f : A → B) (l : list A) :
  f <$> l = l ≫= (λ x, [f x]).
Proof.
  induction l as [|x l IH]; [done|]. rewrite fmap_cons, bind_cons. by rewrite IH.
Qed.

Lemma touches_shape i e e' : e_ends e' = e_ends e → touches i e' = touches i e.
Proof. intros H. unfold touches. by rewrite H. Qed.

Lemma otherEnd_shape i e e' : e_ends e' = e_ends e → otherEnd i e' = otherEnd i e.
Proof. intros H. unfold otherEnd. by rewrite H. Qed.

Lemma connectedEdges_sameShape coll cy cy' :
  sameShape cy cy' → connectedEdges coll cy' = connectedEdges coll cy.
Proof.
  intros Hs. unfold connectedEdges.
  rewrite !(fmap_as_bind e_id).
  apply bind_filter_sameShape; [done|]. intros e e' Hi He. split.
  - assert (E : existsb (λ i, touches i e) coll = existsb (λ i, touches i e') coll).
    { induction coll as [|i coll IH]; [done|]. simpl.
      by rewrite IH, (touches_shape i e e' He). }
    by rewrite E.
  - by rewrite Hi.
Qed.

Lemma neighborhood_sameShape coll cy cy' :
  sameShape cy cy' → neighborhood coll cy' = neighborhood coll cy.
Proof.
  intros Hs. unfold neighborhood, hasNodeWithId, hasElementWithId.
  rewrite (sameShape_elements _ _ Hs), (sameShape_nodes _ _ Hs).
  f_equal. apply list_bind_ext; [|done]. intros i.
  apply bind_filter_sameShape; [done|]. intros e e' Hi He.
  by rewrite (touches_shape i e e' He), (otherEnd_shape i e e' He), Hi.
Qed.

Lemma closedNeighborhood_sameShape coll cy cy' :
  sameShape cy cy' → closedNeighborhood coll cy' = closedNeighborhood coll cy.
Proof.
  intros Hs. unfold closedNeighborhood. by rewrite (neighborhood_sameShape _ _ _ Hs).
Qed.

Lemma connectedNodes_sameShape coll cy cy' :
  sameShape cy cy' → connectedNodes coll cy' = connectedNodes coll cy.
Proof.
  intros Hs. unfold connectedNodes, hasElementWithId.
  rewrite (sameShape_elements _ _ Hs). f_equal.
  apply bind_filter_sameShape; [done|]. intros e e' Hi He.
  by rewrite Hi, He.
Qed.

End ShapeFacts.

Section SelectionExtras.

Import Cy View PerElement Shape Examples.

Implicit Types (cy : Core) (e : Ele).

Lemma selectAll_store cy : (selectAll cy).1 = select (nodes cy) cy.
Proof. done. Qed.

Lemma selectedNodes_select_all (N : Collection) (l : Core) :
  (∀ e, e ∈ l → isNode e = true → e_id e ∈ N) →
  selectedNodes (select N l) = nodes l.
Proof.
  unfold selectedNodes, nodes, select, update.
  induction l as [|e l IH]; intros H; [done|].
  rewrite fmap_cons, !filter_cons.
  assert (IH' := IH (λ a Ha, H a (list_elem_of_further _ _ _ Ha))).
  destruct (decide (isNode e = true)) as [Hn|Hn].
  - assert (Hin : e_id e ∈ N) by (apply H; [by left|done]).
    destruct (decide (e_id e ∈ N)) as [_|Hc]; [|done].
    rewrite decide_True by (split; [exact Hn|done]).
    rewrite !fmap_cons. simpl. by rewrite IH'.
  - rewrite decide_False; [exact IH'|].
    intros [Hn' _]. apply Hn. by destruct (decide (e_id e ∈ N)).
Qed.

(** X14: after [selectAll] the selected nodes are exactly the nodes of the
    graph, in order; selecting all twice is selecting all once; in a graph
    with unique identities the edges are left as they were. *)
Theorem X14_selectAll (cy : Core) :
  selectedNodes (selectAll cy).1 = nodes cy
  ∧ (selectAll (selectAll cy).1).1 = (selectAll cy).1
  ∧ (NoDup (elements cy) → ∀ e, e ∈ cy → isNode e = false → e ∈ (selectAll cy).1).
Proof.
  rewrite !selectAll_store. split; [|split].
  - apply selectedNodes_select_all. intros e He Hn. apply nodes_elem. by exists e.
  - unfold select. rewrite nodes_update by done. rewrite update_update by done.
    apply update_ext_in. intros e _ _. by destruct e.
  - intros Hnd e He Hn. unfold select. apply elem_of_update. exists e.
    split; [done|]. rewrite decide_False; [done|].
    intros Hin. apply nodes_elem in Hin as (a & Ha & Hid & Hna).
    assert (a = e) as -> by (by apply (same_id_same_ele cy)). congruence.
Qed.

Lemma selectNeighbourhood_store cy :
  (selectNeighbourhood cy).1
  = select (neighborhood (selectedNodes cy) cy)
           (unselect (selectedNodes cy) cy).
Proof.
  unfold selectNeighbourhood, modify, openNeighborhood. simpl.
  unfold unselect at 1.
  by rewrite (neighborhood_sameShape _ _ _
                (sameShape_update (selectedNodes cy) (set_selected false) cy
                   (keeps_shape_set_selected false))).
Qed.

(** X15: after [selectNeighbourhood] an element is selected exactly when it
    is in the open neighbourhood of the nodes that were selected, or was
    selected without being one of those nodes (a selected edge); classes
    and data are untouched.  A selected node with an edge to itself is in
    its own neighbourhood and so stays selected. *)
Theorem X15_selectNeighbourhood (cy : Core) :
  (selectNeighbourhood cy).1
  = (λ e, set_selected
            (bool_decide (e_id e ∈ neighborhood (selectedNodes cy) cy)
             || (e_selected e && bool_decide (e_id e ∉ selectedNodes cy))) e)
    <$> cy
  ∧ (∀ i loop, i ∈ selectedNodes cy → loop ∈ cy → e_ends loop = Some (i, i) →
       ∀ e', e' ∈ (selectNeighbourhood cy).1 → e_id e' = i →
             e_selected e' = true).
Proof.
  assert (Heq : (selectNeighbourhood cy).1
    = (λ e, set_selected
              (bool_decide (e_id e ∈ neighborhood (selectedNodes cy) cy)
               || (e_selected e && bool_decide (e_id e ∉ selectedNodes cy))) e)
      <$> cy).
  { rewrite selectNeighbourhood_store. unfold select, unselect, update.
    rewrite <- list_fmap_compose. apply list_fmap_ext. intros k e _. simpl.
    destruct (decide (e_id e ∈ selectedNodes cy)) as [Hs|Hs]; simpl;
      destruct (decide (e_id e ∈ neighborhood (selectedNodes cy) cy)) as [Hn|Hn];
      simpl.
    - rewrite (bool_decide_eq_true_2 _ Hn). done.
    - rewrite (bool_decide_eq_false_2 _ Hn).
      rewrite bool_decide_eq_false_2 by (by intros H). by rewrite andb_false_r.
    - rewrite (bool_decide_eq_true_2 _ Hn). done.
    - rewrite (bool_decide_eq_false_2 _ Hn).
      rewrite (bool_decide_eq_true_2 _ Hs). rewrite andb_true_r. simpl.
      by destruct e. }
  split; [exact Heq|].
  intros i loop Hi Hloop Hends e' He' Hid. rewrite Heq in He'.
  apply list_elem_of_fmap in He' as (e & -> & He). simpl in *.
  assert (Hnode : i ∈ nodes cy).
  { unfold selectedNodes in Hi. apply list_elem_of_fmap in Hi as (a & -> & Ha).
    apply list_elem_of_filter in Ha as [[Hn _] Ha]. apply nodes_elem. by exists a. }
  rewrite bool_decide_eq_true_2; [done|]. rewrite Hid.
  apply (neighborhood_other_end cy _ loop i i); try done.
  - by left.
  - rewrite <- Hid. by apply list_elem_of_fmap_2.
Qed.

End SelectionExtras.

(** ** Further properties: the active file *)

Section ActiveFileExtras.

Import Cy View PerElement Shape Examples.

Implicit Types (cy : Core) (e : Ele).

Lemma sameShape_addClass coll c cy : sameShape cy (addClass coll c cy).
Proof. by apply sameShape_update. Qed.

Lemma sameShape_removeClass coll cs cy : sameShape cy (removeClass coll cs cy).
Proof. by apply sameShape_update. Qed.

(** The class changes of [updateActiveFile], with every collection taken on
    the graph as it was. *)
Lemma updateActiveFile_store node b cy :
  (updateActiveFile node b cy).1
  = addClass (connectedNodes (connectedEdges node cy) cy) "connected-active-file"
      (addClass (connectedEdges node cy) "connected-active-file"
         (addClass node "active-file"
            (addClass (difference (elements cy) (closedNeighborhood node cy))
               "inactive-file"
               (removeClass (elements cy)
                  ["connected-active-file"; "active-file"; "inactive-file"] cy)))).
Proof.
  unfold updateActiveFile, modify. cbn [fst]. cbv zeta.
  set (c0 := removeClass (elements cy) _ cy).
  assert (S0 : sameShape cy c0) by apply sameShape_removeClass.
  rewrite (sameShape_elements _ _ S0), (closedNeighborhood_sameShape _ _ _ S0).
  set (c1 := addClass (difference _ _) "inactive-file" c0).
  assert (S1 : sameShape cy c1).
  { eapply sameShape_trans; [exact S0|apply sameShape_addClass]. }
  set (c2 := addClass node "active-file" c1).
  assert (S2 : sameShape cy c2).
  { eapply sameShape_trans; [exact S1|apply sameShape_addClass]. }
  rewrite (connectedEdges_sameShape _ _ _ S2).
  set (c3 := addClass (connectedEdges node cy) "connected-active-file" c2).
  assert (S3 : sameShape cy c3).
  { eapply sameShape_trans; [exact S2|apply sameShape_addClass]. }
  by rewrite (connectedEdges_sameShape _ _ _ S3),
    (connectedNodes_sameShape _ _ _ S3).
Qed.

Lemma elem_of_addClass coll c cy e' :
  e' ∈ addClass coll c cy →
  ∃ e, e ∈ cy ∧ e_id e' = e_id e ∧ e_ends e' = e_ends e
       ∧ e_data e' = e_data e ∧ e_selected e' = e_selected e
       ∧ ∀ x, x ∈ e_classes e' ↔ x ∈ e_classes e ∨ (x = c ∧ e_id e ∈ coll).
Proof.
  unfold addClass. intros H. apply elem_of_update in H as (e & H & ->).
  exists e. split; [done|]. destruct (decide (e_id e ∈ coll)) as [Hin|Hout]; simpl.
  - repeat split; try done; rewrite ?elem_of_union, ?elem_of_singleton; tauto.
  - repeat split; try done; tauto.
Qed.

Lemma updateActiveFile_classes
    (node : Collection) (followImmediate : bool) (cy : Core) (e' : Ele) :
  e' ∈ (updateActiveFile node followImmediate cy).1 →
  ∃ e, e ∈ cy
    ∧ e_id e' = e_id e ∧ e_ends e' = e_ends e ∧ e_data e' = e_data e
    ∧ e_selected e' = e_selected e
    ∧ ("active-file" ∈ e_classes e' ↔ e_id e ∈ node)
    ∧ ("inactive-file" ∈ e_classes e' ↔ e_id e ∉ closedNeighborhood node cy)
    ∧ ("connected-active-file" ∈ e_classes e'
       ↔ e_id e ∈ connectedEdges node cy
         ∨ e_id e ∈ connectedNodes (connectedEdges node cy) cy)
    ∧ (∀ c, c ∉ ["connected-active-file"; "active-file"; "inactive-file"] →
            (c ∈ e_classes e' ↔ c ∈ e_classes e)).
Proof.
  rewrite updateActiveFile_store. intros H.
  apply elem_of_addClass in H as (e4 & H & I4 & E4 & D4 & S4 & C4).
  apply elem_of_addClass in H as (e3 & H & I3 & E3 & D3 & S3 & C3).
  apply elem_of_addClass in H as (e2 & H & I2 & E2 & D2 & S2 & C2).
  apply elem_of_addClass in H as (e1 & H & I1 & E1 & D1 & S1 & C1).
  unfold removeClass in H. apply elem_of_update in H as (e & H & ->).
  assert (Hel : e_id e ∈ elements cy) by (by apply list_elem_of_fmap_2).
  rewrite (decide_True (P := e_id e ∈ elements cy)) in * by done.
  cbn [e_id e_ends e_data e_selected e_classes set_classes] in *.
  exists e. split; [exact H|].
  split; [congruence|]. split; [congruence|]. split; [congruence|].
  split; [congruence|].
  assert (Hc : ∀ c, c ∈ e_classes e' ↔
     (c ∈ e_classes e
      ∧ c ∉ ["connected-active-file"; "active-file"; "inactive-file"])
     ∨ (c = "inactive-file" ∧ e_id e ∉ closedNeighborhood node cy)
     ∨ (c = "active-file" ∧ e_id e ∈ node)
     ∨ (c = "connected-active-file"
        ∧ (e_id e ∈ connectedEdges node cy
           ∨ e_id e ∈ connectedNodes (connectedEdges node cy) cy))).
  { intros c. rewrite C4, C3, C2, C1. rewrite I3, I2, I1.
    rewrite elem_of_difference, elem_of_list_to_set.
    unfold difference. rewrite list_elem_of_filter. tauto. }
  split; [|split; [|split]].
  - rewrite Hc. split.
    + intros [[_ Hn]|[[Hd _]|[[_ Hn]|[Hd _]]]]; try discriminate Hd; [|done].
      exfalso. apply Hn. right. by left.
    + intros Hn. right. right. left. done.
  - rewrite Hc. split.
    + intros [[_ Hn]|[[_ Hn]|[[Hd _]|[Hd _]]]]; try discriminate Hd; [|done].
      exfalso. apply Hn. right. right. by left.
    + intros Hn. right. left. done.
  - rewrite Hc. split.
    + intros [[_ Hn]|[[Hd _]|[[Hd _]|[_ Hn]]]]; try discriminate Hd; [|done].
      exfalso. apply Hn. by left.
    + intros Hn. right. right. right. done.
  - intros c Hnot. rewrite Hc. split.
    + intros [[Hin _]|[[-> _]|[[-> _]|[-> _]]]]; [done| | |];
        exfalso; apply Hnot.
      * right. right. by left.
      * right. by left.
      * by left.
    + intros Hin. left. done.
Qed.

(** X16: [updateActiveFile] changes classes only.  Afterwards an element
    carries [active-file] exactly when it is in the given collection,
    [inactive-file] exactly when it is outside the closed neighbourhood of
    the collection, [connected-active-file] exactly when it is an edge
    connected to the collection or an end point of such an edge; every
    other class, [pinned] and [expanded] among them, is as it was. *)
Theorem X16_updateActiveFile_classes
    (node : Collection) (followImmediate : bool) (cy : Core) (e' : Ele) :
  e' ∈ (updateActiveFile node followImmediate cy).1 →
  ∃ e, e ∈ cy
    ∧ e_id e' = e_id e ∧ e_ends e' = e_ends e ∧ e_data e' = e_data e
    ∧ e_selected e' = e_selected e
    ∧ ("active-file" ∈ e_classes e' ↔ e_id e ∈ node)
    ∧ ("inactive-file" ∈ e_classes e' ↔ e_id e ∉ closedNeighborhood node cy)
    ∧ ("connected-active-file" ∈ e_classes e'
       ↔ e_id e ∈ connectedEdges node cy
         ∨ e_id e ∈ connectedNodes (connectedEdges node cy) cy)
    ∧ (∀ c, c ∉ ["connected-active-file"; "active-file"; "inactive-file"] →
            (c ∈ e_classes e' ↔ c ∈ e_classes e)).
Proof. apply updateActiveFile_classes. Qed.

Lemma X16_updateActiveFile_classes_witness :
  let e' := mkEle "core:B" None {["name" := JStr "B"]}
                  {["expanded"; "active-file"; "connected-active-file"]} false in
  e' ∈ (updateActiveFile ["core:B"] false [nodeB; nodeC; edgeBC]).1
  ∧ ∃ e, e ∈ [nodeB; nodeC; edgeBC] ∧ e_id e' = e_id e
         ∧ ("active-file" ∈ e_classes e' ↔ e_id e ∈ ["core:B"])
         ∧ ("expanded" ∈ e_classes e' ↔ "expanded" ∈ e_classes e).
Proof.
  intros e'.
  assert (H : e' ∈ (updateActiveFile ["core:B"] false [nodeB; nodeC; edgeBC]).1).
  { apply (bool_decide_unpack _). vm_compute. exact I. }
  split; [exact H|].
  destruct (X16_updateActiveFile_classes _ _ _ _ H)
    as (e & He & Hid & _ & _ & _ & Hact & _ & _ & Hother).
  exists e. split; [exact He|]. split; [exact Hid|]. split; [exact Hact|].
  apply Hother. intros Hin.
  repeat (apply elem_of_cons in Hin as [Hin|Hin]; [discriminate Hin|]).
  by apply elem_of_nil in Hin.
Defined.

End ActiveFileExtras.

(** ** Further properties: pinning and locks *)

Section PinExtras.

Import Cy View PerElement Shape Session Examples.

Implicit Types (cy : Core) (e : Ele) (s : Session.t).

Lemma selectedNodes_elem i cy :
  i ∈ selectedNodes cy
  ↔ ∃ e, e ∈ cy ∧ e_id e = i ∧ isNode e = true ∧ e_selected e = true.
Proof.
  unfold selectedNodes. rewrite list_elem_of_fmap. split.
  - intros (e & -> & He). apply list_elem_of_filter in He as [[Hn Hs] He].
    by exists e.
  - intros (e & He & <- & Hn & Hs). exists e. split; [done|].
    by apply list_elem_of_filter.
Qed.

Lemma getPinned_addClass coll cy i :
  i ∈ getPinned (addClass coll CLASS_PINNED cy)
  ↔ i ∈ getPinned cy ∨ (i ∈ coll ∧ i ∈ nodes cy).
Proof.
  unfold getPinned. rewrite !nodesWithClass_elem, nodes_elem. split.
  - intros (e' & He' & Hid & Hn & Hc).
    apply elem_of_addClass in He' as (e & He & Hi & Hen & _ & _ & Hcls).
    assert (Hne : isNode e = true) by (unfold isNode in *; by rewrite <- Hen).
    unfold hasClass in Hc. apply bool_decide_eq_true in Hc.
    apply Hcls in Hc as [Hc|[_ Hc]].
    + left. exists e. split; [done|]. split; [congruence|]. split; [done|].
      by apply bool_decide_eq_true_2.
    + right. split; [congruence|]. exists e. split; [done|].
      split; [congruence|done].
  - intros [(e & He & Hid & Hn & Hc)|(Hin & e & He & Hid & Hn)].
    + exists (if decide (e_id e ∈ coll)
              then set_classes (e_classes e ∪ {[CLASS_PINNED]}) e else e).
      split; [unfold addClass; apply elem_of_update; by exists e|].
      unfold hasClass in *. apply bool_decide_eq_true in Hc.
      case_decide; simpl; repeat split; try done;
        apply bool_decide_eq_true; set_solver.
    + exists (set_classes (e_classes e ∪ {[CLASS_PINNED]}) e).
      split.
      * unfold addClass. apply elem_of_update. exists e. split; [done|].
        rewrite decide_True; [done|]. by rewrite Hid.
      * simpl. repeat split; try done. unfold hasClass. simpl.
        apply bool_decide_eq_true. set_solver.
Qed.

Lemma getPinned_removeClass coll cy i :
  NoDup (elements cy) →
  i ∈ getPinned (removeClass coll [CLASS_PINNED] cy)
  ↔ i ∈ getPinned cy ∧ i ∉ coll.
Proof.
  intros Hnd. unfold getPinned. rewrite !nodesWithClass_elem. split.
  - intros (e' & He' & Hid & Hn & Hc). unfold removeClass in He'.
    apply elem_of_update in He' as (e & He & ->).
    destruct (decide (e_id e ∈ coll)) as [Hin|Hout]; simpl in *.
    + unfold hasClass in Hc. simpl in Hc. apply bool_decide_eq_true in Hc.
      exfalso. set_solver.
    + split; [by exists e|]. by rewrite <- Hid.
  - intros [(e & He & Hid & Hn & Hc) Hout]. exists e. split; [|done].
    unfold removeClass. apply elem_of_update. exists e. split; [done|].
    rewrite decide_False; [done|]. by rewrite Hid.
Qed.

Lemma ids_filter_fmap (P : Ele → Prop) `{∀ e, Decision (P e)}
      (f : Ele → Ele) (l : Core) :
  (∀ e, (P (f e) ↔ P e) ∧ e_id (f e) = e_id e) →
  e_id <$> filter P (f <$> l) = e_id <$> filter P l.
Proof.
  intros Hf. induction l as [|e l IH]; [done|].
  rewrite fmap_cons, !filter_cons. destruct (Hf e) as [HP Hid].
  destruct (decide (P (f e))) as [H1|H1], (decide (P e)) as [H2|H2];
    try tauto; rewrite ?fmap_cons, ?IH, ?Hid; done.
Qed.

Lemma selectedNodes_update_classes coll (g : Ele → gset string) cy :
  selectedNodes (update coll (λ e, set_classes (g e) e) cy) = selectedNodes cy.
Proof.
  unfold selectedNodes, update. apply ids_filter_fmap.
  intros e. by destruct (decide (e_id e ∈ coll)).
Qed.

(** X17: [pinSelection] pins and locks the selected nodes and nothing else:
    the pinned nodes afterwards are those pinned before and those selected,
    the locks grow by the selection, the selection itself is unchanged.
    [unpinSelection] takes exactly the selected nodes out of the pinned
    nodes and out of the locks.  Both keep the locked elements equal to the
    pinned nodes. *)
Theorem X17_pin_and_unpin (s : Session.t) :
  NoDup (elements (viz s)) →
  (∀ i, i ∈ getPinned (viz (pinSelection s))
        ↔ i ∈ getPinned (viz s) ∨ i ∈ selectedNodes (viz s))
  ∧ locks (pinSelection s) = locks s ∪ list_to_set (selectedNodes (viz s))
  ∧ selectedNodes (viz (pinSelection s)) = selectedNodes (viz s)
  ∧ (∀ i, i ∈ getPinned (viz (unpinSelection s))
          ↔ i ∈ getPinned (viz s) ∧ i ∉ selectedNodes (viz s))
  ∧ locks (unpinSelection s) = locks s ∖ list_to_set (selectedNodes (viz s))
  ∧ selectedNodes (viz (unpinSelection s)) = selectedNodes (viz s)
  ∧ (locksArePins s →
     locksArePins (pinSelection s) ∧ locksArePins (unpinSelection s)).
Proof.
  intros Hnd.
  assert (Hpin : ∀ i, i ∈ getPinned (viz (pinSelection s))
                      ↔ i ∈ getPinned (viz s) ∨ i ∈ selectedNodes (viz s)).
  { intros i. unfold pinSelection, onViz, lock. simpl.
    rewrite getPinned_addClass. split; [tauto|].
    intros [H|H]; [by left|]. right. split; [done|].
    apply selectedNodes_elem in H as (e & He & Hid & Hn & _).
    apply nodes_elem. by exists e. }
  assert (Hunpin : ∀ i, i ∈ getPinned (viz (unpinSelection s))
                        ↔ i ∈ getPinned (viz s) ∧ i ∉ selectedNodes (viz s)).
  { intros i. unfold unpinSelection, onViz, unlock. simpl.
    by apply getPinned_removeClass. }
  split; [exact Hpin|]. split; [done|].
  split; [apply selectedNodes_update_classes|].
  split; [exact Hunpin|]. split; [done|].
  split; [apply selectedNodes_update_classes|].
  intros Hinv. split; intros i.
  - rewrite Hpin. unfold pinSelection, onViz, lock. simpl.
    rewrite elem_of_union, elem_of_list_to_set. by rewrite (Hinv i).
  - rewrite Hunpin. unfold unpinSelection, onViz, unlock. simpl.
    rewrite elem_of_difference, elem_of_list_to_set. by rewrite (Hinv i).
Qed.

Lemma X17_pin_and_unpin_witness :
  NoDup (elements [nodeB; nodeC; edgeBC])
  ∧ getPinned (viz (pinSelection (Session.mk [nodeB; nodeC; edgeBC] ∅)))
    = ["core:C"]
  ∧ locks (pinSelection (Session.mk [nodeB; nodeC; edgeBC] ∅))
    = ∅ ∪ list_to_set (selectedNodes [nodeB; nodeC; edgeBC]).
Proof.
  assert (Hnd : NoDup (elements [nodeB; nodeC; edgeBC])).
  { apply (bool_decide_unpack _). vm_compute. exact I. }
  split; [exact Hnd|]. split; [reflexivity|].
  exact (proj1 (proj2 (X17_pin_and_unpin (Session.mk [nodeB; nodeC; edgeBC] ∅) Hnd))).
Defined.

End PinExtras.

(** ** Further properties: hovering and dragging *)

Section HoverClassExtras.

Import Cy View PerElement Shape Session Examples.

Implicit Types (cy : Core) (e : Ele) (s : Session.t).

Lemma strip_addClass coll c (H : list string) cy :
  c ∈ H →
  removeClass (elements (addClass coll c cy)) H (addClass coll c cy)
  = removeClass (elements cy) H cy.
Proof.
  intros Hc. unfold addClass at 1. rewrite elements_update by done.
  unfold removeClass, addClass, update. rewrite <- list_fmap_compose.
  apply list_fmap_ext. intros k e Hk. simpl.
  apply list_elem_of_lookup_2 in Hk.
  assert (Hin : e_id e ∈ elements cy) by (by apply list_elem_of_fmap_2).
  destruct (decide (e_id e ∈ coll)); simpl; rewrite !decide_True by done;
    [|done].
  unfold set_classes. simpl. f_equal.
  apply set_eq. intros x.
  rewrite !elem_of_difference, elem_of_union, elem_of_singleton,
    elem_of_list_to_set.
  split; [|tauto]. intros [[Hx | ->] Hn]; [done|]. by destruct Hn.
Qed.

Lemma strip_clean (H : list string) cy :
  (∀ e c, e ∈ cy → c ∈ H → c ∉ e_classes e) →
  removeClass (elements cy) H cy = cy.
Proof.
  intros Hclean. unfold removeClass. apply update_fix. intros e He _.
  destruct e as [i en d cl sel]. unfold set_classes. simpl. f_equal.
  apply set_eq. intros x. rewrite elem_of_difference, elem_of_list_to_set.
  split; [tauto|]. intros Hx. split; [done|]. intros Hin.
  by apply (Hclean _ x He).
Qed.

Lemma viz_mouseout target s :
  viz (mouseout target s)
  = removeClass (elements (viz s)) hoverClasses (viz s).
Proof.
  unfold mouseout. cbv zeta.
  destruct (getElementById target _) as [e|]; [|done].
  by destruct (hasClass CLASS_PINNED e).
Qed.

Lemma hover_in_hoverClasses :
  "hover" ∈ hoverClasses ∧ "unhover" ∈ hoverClasses
  ∧ "connected-hover" ∈ hoverClasses.
Proof.
  unfold hoverClasses. repeat split.
  - by left.
  - right. by left.
  - right. right. by left.
Qed.

Lemma hover_round_trip (s : Session.t) (i target : string) :
  (∀ e' c, e' ∈ viz (mouseout target s) → c ∈ hoverClasses → c ∉ e_classes e')
  ∧ viz (mouseout target (mouseoverNode i s)) = viz (mouseout target s)
  ∧ viz (mouseout target (mouseoverEdge i s)) = viz (mouseout target s)
  ∧ ((∀ e c, e ∈ viz s → c ∈ hoverClasses → c ∉ e_classes e) →
     viz (mouseout target (mouseoverNode i s)) = viz s
     ∧ viz (mouseout target (mouseoverEdge i s)) = viz s).
Proof.
  destruct hover_in_hoverClasses as (Hh & Hu & Hc).
  assert (HN : viz (mouseout target (mouseoverNode i s)) = viz (mouseout target s)).
  { rewrite !viz_mouseout. unfold mouseoverNode, onViz, unlock. cbn [viz]. cbv zeta.
    by rewrite !strip_addClass. }
  assert (HE : viz (mouseout target (mouseoverEdge i s)) = viz (mouseout target s)).
  { rewrite !viz_mouseout. unfold mouseoverEdge, onViz. cbn [viz]. cbv zeta.
    by rewrite !strip_addClass. }
  split; [|split; [exact HN|split; [exact HE|]]].
  - intros e' c He' Hcin Hin. rewrite viz_mouseout in He'.
    unfold removeClass in He'. apply elem_of_update in He' as (e & He & ->).
    rewrite decide_True in Hin by (by apply list_elem_of_fmap_2).
    cbn [e_classes set_classes] in Hin.
    apply elem_of_difference in Hin as [_ Hn]. apply Hn.
    by apply elem_of_list_to_set.
  - intros Hclean. rewrite HN, HE, viz_mouseout.
    by rewrite (strip_clean _ _ Hclean).
Qed.

(** X18: the hover classes are transient: after [mouseout] no element
    carries [hover], [unhover] or [connected-hover], and a [mouseover] on a
    node or an edge followed by [mouseout] leaves the graph as [mouseout]
    alone would, that is, untouched when no hover class was around. *)
Theorem X18_hover_classes_are_transient (s : Session.t) (i target : string) :
  (∀ e' c, e' ∈ viz (mouseout target s) → c ∈ hoverClasses → c ∉ e_classes e')
  ∧ viz (mouseout target (mouseoverNode i s)) = viz (mouseout target s)
  ∧ viz (mouseout target (mouseoverEdge i s)) = viz (mouseout target s)
  ∧ ((∀ e c, e ∈ viz s → c ∈ hoverClasses → c ∉ e_classes e) →
     viz (mouseout target (mouseoverNode i s)) = viz s
     ∧ viz (mouseout target (mouseoverEdge i s)) = viz s).
Proof. apply hover_round_trip. Qed.

End HoverClassExtras.

Section LockExtras.

Import Cy View PerElement Shape Session Examples.

Implicit Types (cy : Core) (e : Ele) (s : Session.t).

Lemma getPinned_found i cy e :
  NoDup (elements cy) → getElementById i cy = Some e →
  i ∈ getPinned cy ↔ isNode e = true ∧ hasClass CLASS_PINNED e = true.
Proof.
  intros Hnd Hget. apply getElementById_Some in Hget as [He Hid].
  unfold getPinned. rewrite nodesWithClass_elem. split.
  - intros (a & Ha & Hida & Hn & Hc).
    assert (a = e) as -> by (apply (same_id_same_ele cy); congruence). done.
  - intros [Hn Hc]. by exists e.
Qed.

Lemma getPinned_strip_hover cy :
  getPinned (removeClass (elements cy) hoverClasses cy) = getPinned cy.
Proof.
  unfold getPinned, nodesWithClass, removeClass, update.
  apply ids_filter_fmap. intros e.
  destruct (decide (e_id e ∈ elements cy)); [|done]. split; [|done].
  unfold hasClass, isNode. simpl.
  assert (Hiff : CLASS_PINNED ∈ e_classes e ∖ list_to_set hoverClasses
                 ↔ CLASS_PINNED ∈ e_classes e).
  { rewrite elem_of_difference, elem_of_list_to_set. split; [tauto|].
    intros H. split; [done|]. unfold hoverClasses, CLASS_PINNED. intros Hin.
    repeat (apply elem_of_cons in Hin as [Hin|Hin]; [discriminate Hin|]).
    by apply elem_of_nil in Hin. }
  by rewrite (bool_decide_ext _ _ Hiff).
Qed.

Lemma locks_mouseout_mouseover i s :
  locks (mouseout i (mouseoverNode i s))
  = (locks s ∖ {[i]})
    ∪ (match getElementById i (viz (mouseout i s)) with
       | Some e => if hasClass CLASS_PINNED e then {[i]} else ∅
       | None => ∅
       end).
Proof.
  pose proof (proj1 (proj2 (hover_round_trip s i i))) as HN.
  rewrite !viz_mouseout in HN.
  unfold mouseout at 1. cbv zeta.
  change (viz (onViz _ (mouseoverNode i s)))
    with (removeClass (elements (viz (mouseoverNode i s))) hoverClasses
            (viz (mouseoverNode i s))).
  rewrite HN. rewrite viz_mouseout.
  destruct (getElementById i _) as [e|]; simpl.
  - destruct (hasClass CLASS_PINNED e); simpl; set_solver.
  - set_solver.
Qed.

Lemma found_node i cy :
  NoDup (elements cy) → i ∈ nodes cy →
  ∃ e, getElementById i cy = Some e ∧ isNode e = true.
Proof.
  intros Hnd Hi. apply nodes_elem in Hi as (e & He & Hid & Hn).
  exists e. split; [|done]. rewrite <- Hid. by apply getElementById_unique.
Qed.

(** X19: hovering a node and dragging a node end with the locks where the
    pins are: when the locked elements are the pinned nodes, they still are
    after [mouseover] and [mouseout] on a node (which unlocks it for the
    time of the hover), and after [dragfree] and the stop of the layout
    (which locks it for the time of the layout). *)
Theorem X19_locks_return_to_the_pins (s : Session.t) (i : string) :
  NoDup (elements (viz s)) →
  i ∈ nodes (viz s) →
  locksArePins s →
  locksArePins (mouseout i (mouseoverNode i s))
  ∧ locksArePins (layoutstopAfterDrag i (dragfree i s)).
Proof.
  intros Hnd Hi Hinv. split.
  - intros j. rewrite locks_mouseout_mouseover.
    rewrite (proj1 (proj2 (hover_round_trip s i i))), viz_mouseout.
    rewrite getPinned_strip_hover.
    set (cyS := removeClass (elements (viz s)) hoverClasses (viz s)).
    assert (HndS : NoDup (elements cyS))
      by (unfold cyS, removeClass; by rewrite elements_update).
    assert (HiS : i ∈ nodes cyS)
      by (unfold cyS, removeClass; by rewrite nodes_update).
    destruct (found_node i cyS HndS HiS) as (e & Hget & Hn).
    pose proof (getPinned_found i cyS e HndS Hget) as Hp.
    unfold cyS in Hp. rewrite getPinned_strip_hover in Hp.
    rewrite Hget. rewrite elem_of_union, elem_of_difference, elem_of_singleton.
    destruct (decide (j = i)) as [->|Hne].
    + rewrite Hp. destruct (hasClass CLASS_PINNED e).
      * rewrite elem_of_singleton. tauto.
      * rewrite elem_of_empty. split; [tauto|]. intros [_ H]. discriminate H.
    + rewrite <- (Hinv j). destruct (hasClass CLASS_PINNED e).
      * rewrite elem_of_singleton. tauto.
      * rewrite elem_of_empty. tauto.
  - intros j. unfold layoutstopAfterDrag, dragfree, lock. cbn [viz].
    destruct (found_node i (viz s) Hnd Hi) as (e & Hget & Hn).
    pose proof (getPinned_found i (viz s) e Hnd Hget) as Hp.
    rewrite Hget. destruct (hasClass CLASS_PINNED e) eqn:Hc; cbn [viz locks].
    + rewrite elem_of_union, elem_of_list_to_set, list_elem_of_singleton.
      rewrite (Hinv j). split; [|tauto]. intros [H | ->]; [done|].
      by apply Hp.
    + unfold unlock. cbn [viz locks].
      rewrite elem_of_difference, elem_of_union, !elem_of_list_to_set,
        list_elem_of_singleton.
      rewrite (Hinv j). split; [tauto|]. intros Hj.
      assert (j ≠ i).
      { intros ->. apply Hp in Hj as [_ Hj]. discriminate Hj. }
      tauto.
Qed.

Lemma X19_locks_return_to_the_pins_witness :
  NoDup (elements (viz (Session.mk [nodeA; nodeC] {["core:A"]})))
  ∧ "core:A" ∈ nodes (viz (Session.mk [nodeA; nodeC] {["core:A"]}))
  ∧ locksArePins (Session.mk [nodeA; nodeC] {["core:A"]})
  ∧ locksArePins
      (mouseout "core:A" (mouseoverNode "core:A"
                            (Session.mk [nodeA; nodeC] {["core:A"]}))).
Proof.
  assert (Hnd : NoDup (elements (viz (Session.mk [nodeA; nodeC] {["core:A"]})))).
  { apply (bool_decide_unpack _). vm_compute. exact I. }
  assert (Hi : "core:A" ∈ nodes (viz (Session.mk [nodeA; nodeC] {["core:A"]})))
    by (by left).
  assert (Hinv : locksArePins (Session.mk [nodeA; nodeC] {["core:A"]})).
  { intros j. cbn [locks viz].
    change (getPinned [nodeA; nodeC]) with ["core:A"].
    by rewrite elem_of_singleton, list_elem_of_singleton. }
  split; [exact Hnd|]. split; [exact Hi|]. split; [exact Hinv|].
  exact (proj1 (X19_locks_return_to_the_pins _ "core:A" Hnd Hi Hinv)).
Defined.

End LockExtras.

(** ** Further properties: context menu and keys *)

Section MenuExtras.

Import Cy View PerElement Shape Session Examples.

Implicit Types (cy : Core) (e : Ele) (s : Session.t).

Lemma length_pos_elem {A} (l : list A) : 0 < length l ↔ ∃ x, x ∈ l.
Proof.
  destruct l as [|x l]; simpl.
  - split; [lia|]. intros [x Hx]. by apply elem_of_nil in Hx.
  - split; [|lia]. intros _. exists x. by left.
Qed.

Ltac closed_membership :=
  match goal with
  | |- (?x ∈ ?l) ↔ ?Q =>
      first
        [ assert (bool_decide (x ∈ l) = true) as Hmem%bool_decide_eq_true
            by (vm_compute; reflexivity);
          split; [intros _; repeat split; reflexivity | intros _; exact Hmem]
        | assert (bool_decide (x ∈ l) = false) as Hmem%bool_decide_eq_false
            by (vm_compute; reflexivity);
          split; [intros Hin; destruct (Hmem Hin)
                 | intros Hq;
                   first [ discriminate Hq
                         | destruct Hq as [Hq1 Hq2];
                           first [discriminate Hq1 | discriminate Hq2] ] ] ]
  end.

(** The items of the menu, by what decides them. *)
Lemma menu_items (bs bd bi : bool) :
  let items :=
    ((if bs
      then ["Expand selection (E)"; "Hide selection (H)"; "Select all (A)";
            "Invert selection (I)"]
      else [])
     ++ (if bs
         then ["Select neighbors (N)"]
              ++ (if bd then ["Pin selection (P)"] else [])
              ++ (if bi then ["Unpin selection (U)"] else [])
         else []))%list in
  (∀ item, item ∈ ["Expand selection (E)"; "Hide selection (H)";
                   "Select all (A)"; "Invert selection (I)";
                   "Select neighbors (N)"] →
           (item ∈ items ↔ bs = true))
  ∧ ("Pin selection (P)" ∈ items ↔ bs = true ∧ bd = true)
  ∧ ("Unpin selection (U)" ∈ items ↔ bs = true ∧ bi = true).
Proof.
  cbv zeta. split; [|split].
  - intros item Hitem.
    repeat (apply elem_of_cons in Hitem as [->|Hitem];
            [destruct bs, bd, bi; closed_membership|]).
    by apply elem_of_nil in Hitem.
  - destruct bs, bd, bi; closed_membership.
  - destruct bs, bd, bi; closed_membership.
Qed.

Lemma cxttap_menu target s :
  let s' := (cxttap target s).1 in
  let selection := selectedNodes (viz s') in
  let pinned := getPinned (viz s') in
  (∀ item, item ∈ ["Expand selection (E)"; "Hide selection (H)";
                   "Select all (A)"; "Invert selection (I)";
                   "Select neighbors (N)"] →
           (item ∈ (cxttap target s).2 ↔ ∃ j, j ∈ selection))
  ∧ ("Pin selection (P)" ∈ (cxttap target s).2
     ↔ ∃ j, j ∈ selection ∧ j ∉ pinned)
  ∧ ("Unpin selection (U)" ∈ (cxttap target s).2
     ↔ ∃ j, j ∈ selection ∧ j ∈ pinned).
Proof.
  unfold cxttap. cbv zeta. cbn [fst snd].
  set (s' := match target with
             | OnCore => s
             | OnElement i => if hasNodeWithId i (viz s) then onViz (select [i]) s else s
             end).
  set (selection := selectedNodes (viz s')). set (pinned := getPinned (viz s')).
  assert (Hd : bool_decide (0 < length (difference selection pinned)) = true
               ↔ ∃ j, j ∈ selection ∧ j ∉ pinned).
  { rewrite bool_decide_eq_true, length_pos_elem. unfold difference.
    split; [intros [j Hj]; apply list_elem_of_filter in Hj as [H1 H2]; by exists j
           |intros (j & H1 & H2); exists j; by apply list_elem_of_filter]. }
  assert (Hi : bool_decide (0 < length (intersection selection pinned)) = true
               ↔ ∃ j, j ∈ selection ∧ j ∈ pinned).
  { rewrite bool_decide_eq_true, length_pos_elem. unfold intersection.
    split; [intros [j Hj]; apply list_elem_of_filter in Hj as [H1 H2]; by exists j
           |intros (j & H1 & H2); exists j; by apply list_elem_of_filter]. }
  assert (Hs : bool_decide (0 < length selection) = true ↔ ∃ j, j ∈ selection).
  { rewrite bool_decide_eq_true. apply length_pos_elem. }
  destruct (menu_items (bool_decide (0 < length selection))
              (bool_decide (0 < length (difference selection pinned)))
              (bool_decide (0 < length (intersection selection pinned))))
    as (H5 & HP & HU).
  cbv zeta in H5, HP, HU. split; [|split].
  - intros item Hitem. rewrite (H5 item Hitem). exact Hs.
  - rewrite HP, Hs, Hd. split; [tauto|]. intros (j & Hj & Hn).
    split; [by exists j|by exists j].
  - rewrite HU, Hs, Hi. split; [tauto|]. intros (j & Hj & Hn).
    split; [by exists j|by exists j].
Qed.

(** X20: the context menu offers Expand, Hide, Select all, Invert and
    Select neighbors exactly when some node is selected, Pin exactly when a
    selected node is not pinned, Unpin exactly when a selected node is
    pinned.  A right-click on a node selects it first, so its menu has the
    five commands and at least one of Pin and Unpin; a right-click on the
    background with no node selected gives an empty menu and changes
    nothing. *)
Theorem X20_context_menu (target : Target) (s : Session.t) :
  let s' := (cxttap target s).1 in
  let selection := selectedNodes (viz s') in
  let pinned := getPinned (viz s') in
  (∀ item, item ∈ ["Expand selection (E)"; "Hide selection (H)";
                   "Select all (A)"; "Invert selection (I)";
                   "Select neighbors (N)"] →
           (item ∈ (cxttap target s).2 ↔ ∃ j, j ∈ selection))
  ∧ ("Pin selection (P)" ∈ (cxttap target s).2
     ↔ ∃ j, j ∈ selection ∧ j ∉ pinned)
  ∧ ("Unpin selection (U)" ∈ (cxttap target s).2
     ↔ ∃ j, j ∈ selection ∧ j ∈ pinned)
  ∧ (∀ i, target = OnElement i → i ∈ nodes (viz s) →
          i ∈ selection
          ∧ ("Pin selection (P)" ∈ (cxttap target s).2
             ∨ "Unpin selection (U)" ∈ (cxttap target s).2))
  ∧ (target = OnCore → selectedNodes (viz s) = [] → cxttap target s = (s, [])).
Proof.
  pose proof (cxttap_menu target s) as (H5 & HP & HU).
  cbv zeta in *. split; [exact H5|]. split; [exact HP|]. split; [exact HU|].
  split.
  - intros i -> Hi.
    assert (Hsel : i ∈ selectedNodes (viz (cxttap (OnElement i) s).1)).
    { unfold cxttap. cbv zeta. cbn [fst]. unfold hasNodeWithId.
      rewrite (bool_decide_eq_true_2 _ Hi). cbn [viz onViz].
      apply nodes_elem in Hi as (e & He & Hid & Hn).
      apply selectedNodes_elem. exists (set_selected true e).
      split; [|done]. unfold select. apply elem_of_update. exists e.
      split; [done|]. rewrite decide_True; [done|].
      by apply list_elem_of_singleton. }
    split; [exact Hsel|].
    destruct (decide (i ∈ getPinned (viz (cxttap (OnElement i) s).1))) as [Hp|Hp].
    + right. apply HU. by exists i.
    + left. apply HP. by exists i.
  - intros -> Hnone. unfold cxttap. cbv zeta. by rewrite Hnone.
Qed.

End MenuExtras.

Section KeyExtras.

Import Cy View PerElement Session Examples.

(** X21: a key pressed while the view is not the active leaf does nothing,
    and neither does a key other than [e], [h], [Backspace], [i], [a], [n],
    [p], [u]; [Backspace] does what [h] does; only [p] and [u] move the
    locks. *)
Theorem X21_keydown (stores : list IDataStore) (key : string) (s : Session.t) :
  keydown stores key false s = s
  ∧ (key ∉ ["e"; "h"; "Backspace"; "i"; "a"; "n"; "p"; "u"] →
     keydown stores key true s = s)
  ∧ keydown stores "Backspace" true s = keydown stores "h" true s
  ∧ (key ≠ "p" → key ≠ "u" → locks (keydown stores key true s) = locks s).
Proof.
  split; [done|]. split; [|split; [done|]].
  - intros Hk. rewrite !not_elem_of_cons in Hk.
    destruct Hk as (He & Hh & Hb & Hi & Ha & Hn & Hp & Hu & _).
    unfold keydown. simpl.
    by rewrite !bool_decide_eq_false_2 by done.
  - intros Hp Hu. unfold keydown. simpl.
    rewrite (bool_decide_eq_false_2 (key = "p")) by done.
    rewrite (bool_decide_eq_false_2 (key = "u")) by done.
    by repeat (case_bool_decide; simpl; try done).
Qed.

End KeyExtras.

(** ** Further properties: fetching *)

Section FetchExtras.

Import Cy View PerElement Examples.

Lemma neighbourhood_from_concat stores ids acc answers (cy : Core) :
  Forall2 (λ s got, getNeighbourhood s ids = Ok got) stores answers →
  neighbourhood_from stores ids acc cy = (cy, Ok (acc ++ concat answers)%list).
Proof.
  intros H. revert acc. induction H as [|s got stores answers Hs _ IH]; intros acc.
  - simpl. by rewrite app_nil_r.
  - simpl. unfold bind, await. simpl. rewrite Hs, IH. by rewrite app_assoc.
Qed.

Lemma buildEdges_from_concat stores newNodes acc answers (cy : Core) :
  Forall2 (λ s got, connectNodes s (eles_of (nodes cy) cy) (eles_of newNodes cy)
                    = Ok got) stores answers →
  buildEdges_from stores newNodes acc cy = (cy, Ok (acc ++ concat answers)%list).
Proof.
  intros H. revert acc. induction H as [|s got stores answers Hs _ IH]; intros acc.
  - simpl. by rewrite app_nil_r.
  - simpl. unfold bind, await, get. simpl. rewrite Hs, IH. by rewrite app_assoc.
Qed.

(** X22: when every store answers, [neighbourhood] returns the answers of
    the stores one after the other in the order of registration, and
    [buildEdges] does the same with the answers of [connectNodes]; neither
    touches the graph. *)
Theorem X22_fetch_concatenates_answers
    (stores : list IDataStore) (ids : list VizId.t) (newNodes : Collection)
    (nodeAnswers edgeAnswers : list (list ElementDefinition)) (cy : Core) :
  Forall2 (λ s got, getNeighbourhood s ids = Ok got) stores nodeAnswers →
  Forall2 (λ s got, connectNodes s (eles_of (nodes cy) cy) (eles_of newNodes cy)
                    = Ok got) stores edgeAnswers →
  neighbourhood stores ids cy = (cy, Ok (concat nodeAnswers))
  ∧ buildEdges stores newNodes cy = (cy, Ok (concat edgeAnswers)).
Proof.
  intros Hn He. split.
  - unfold neighbourhood. by rewrite (neighbourhood_from_concat _ _ _ _ _ Hn).
  - unfold buildEdges. by rewrite (buildEdges_from_concat _ _ _ _ _ He).
Qed.

Lemma X22_fetch_concatenates_answers_witness :
  neighbourhood [goodStore; danglingStore] [] [nodeHome]
  = ([nodeHome], Ok [recHome; recB; recHome; recB])
  ∧ buildEdges [goodStore; danglingStore] [] [nodeHome]
    = ([nodeHome], Ok [recHomeB; recHomeB; recHomeZ]).
Proof.
  apply (X22_fetch_concatenates_answers [goodStore; danglingStore] [] []
           [[recHome; recB]; [recHome; recB]]
           [[recHomeB]; [recHomeB; recHomeZ]] [nodeHome]).
  - repeat constructor.
  - repeat constructor.
Defined.

End FetchExtras.

(** ** Further properties: the preview timers *)

Section TimerExtras.

Import Cy Hover.

Implicit Types (st : State) (h : Timeout) (i : string).

(** X23: the handlers arm a preview only for what can be previewed: a
    [mouseover] on a node outside the [core] store, or on a node that does
    not resolve to a markdown file, or on an edge without a [context]
    field, leaves the timers as they are.  A [mouseout] on an element for
    which nothing is recorded leaves them as they are too; otherwise it
    leaves [undefined] recorded, so a second [mouseout] changes nothing. *)
Theorem X23_what_arms_and_what_does_not (st : State) (i : string) (edge : Ele) :
  (VizId.storeId (VizId.fromId i) ≠ "core" → ∀ b, mouseover_node i b st = st)
  ∧ mouseover_node i false st = st
  ∧ (e_data edge !! "context" = None → mouseover_edge edge st = st)
  ∧ (hoverTimeout st !! i = None → mouseout i st = st)
  ∧ (is_Some (hoverTimeout st !! i) →
     hoverTimeout (mouseout i st) !! i = Some None)
  ∧ mouseout i (mouseout i st) = mouseout i st.
Proof.
  repeat apply conj.
  - intros Hs b. unfold mouseover_node.
    by rewrite bool_decide_eq_false_2.
  - unfold mouseover_node. by rewrite andb_false_r.
  - intros Hc. unfold mouseover_edge. rewrite Hc.
    rewrite bool_decide_eq_false_2; [done|]. by intros [x Hx].
  - intros Hn. unfold mouseout. by rewrite Hn.
  - intros [oh Hoh]. unfold mouseout. rewrite Hoh.
    destruct oh; simpl; by rewrite lookup_insert_eq.
  - unfold mouseout at 2.
    destruct (hoverTimeout st !! i) as [oh|] eqn:E.
    + unfold mouseout.
      assert (Hrec : hoverTimeout (record i None (clearTimeout oh st)) !! i
                     = Some None).
      { destruct oh; simpl; by rewrite lookup_insert_eq. }
      rewrite Hrec. unfold clearTimeout at 1. unfold record.
      rewrite E. destruct oh; simpl; by rewrite insert_insert_eq.
    + unfold mouseout. by rewrite E.
Qed.

(** The element was hovered with a preview to show. *)
Lemma popovers_were_armed evs st t :
  t ∈ popovers (run evs st) →
  t ∈ popovers st
  ∨ (∃ p, p ∈ pending st ∧ p.2 = t)
  ∨ t ∈ reading st
  ∨ MouseoverNode t true ∈ evs
  ∨ (∃ edge, MouseoverEdge edge ∈ evs ∧ e_id edge = t
             ∧ is_Some (e_data edge !! "context")).
Proof.
  revert st. induction evs as [|ev evs IH]; intros st Ht; [by left|].
  simpl in Ht.
  apply IH in Ht as [Ht|[(p & Hp & Hpt)|[Ht|[Ht|(edge & He & Hid & Hc)]]]].
  - destruct ev as [i b|k|edge|i|h]; simpl in Ht.
    + unfold mouseover_node in Ht. destruct (_ && _); by left.
    + unfold readDone in Ht. destruct (reading st !! k); by left.
    + unfold mouseover_edge in Ht. case_bool_decide; by left.
    + unfold mouseout in Ht. destruct (hoverTimeout st !! i) as [[h|]|];
        by left.
    + unfold fire in Ht.
      destruct (filter (λ p, p.1 = h) (pending st)) as [|[h' t'] rest] eqn:E;
        [by left|].
      simpl in Ht. apply elem_of_app in Ht as [Ht|Ht]; [by left|].
      apply list_elem_of_singleton in Ht. subst t'.
      right. left. exists (h', t). split; [|done].
      assert (Hin : (h', t) ∈ filter (λ p, p.1 = h) (pending st))
        by (rewrite E; by left).
      by apply list_elem_of_filter in Hin as [_ Hin].
  - destruct ev as [i b|k|edge|i|h]; simpl in Hp.
    + unfold mouseover_node in Hp.
      destruct (bool_decide _ && b); right; left; by exists p.
    + unfold readDone in Hp. destruct (reading st !! k) as [i|] eqn:E.
      * rewrite pending_arm in Hp. simpl in Hp.
        apply elem_of_app in Hp as [Hp|Hp].
        -- right. left. by exists p.
        -- apply list_elem_of_singleton in Hp. subst p. simpl in Hpt. subst t.
           right. right. left. by apply list_elem_of_lookup_2 in E.
      * right. left. by exists p.
    + unfold mouseover_edge in Hp. case_bool_decide as Hc.
      * rewrite pending_arm in Hp. apply elem_of_app in Hp as [Hp|Hp].
        -- right. left. by exists p.
        -- apply list_elem_of_singleton in Hp. subst p. simpl in Hpt.
           right. right. right. right. exists edge. split; [by left|done].
      * right. left. by exists p.
    + unfold mouseout in Hp. destruct (hoverTimeout st !! i) as [[h|]|];
        simpl in Hp; try (right; left; by exists p).
      apply list_elem_of_filter in Hp as [_ Hp]. right. left. by exists p.
    + unfold fire in Hp.
      destruct (filter (λ p, p.1 = h) (pending st)) as [|[h' t'] rest];
        simpl in Hp; [right; left; by exists p|].
      apply list_elem_of_filter in Hp as [_ Hp]. right. left. by exists p.
  - destruct ev as [i b|k|edge|i|h]; simpl in Ht.
    + unfold mouseover_node in Ht.
      destruct (bool_decide _ && b) eqn:Hb.
      * simpl in Ht. apply elem_of_app in Ht as [Ht|Ht].
        -- right. right. by left.
        -- apply list_elem_of_singleton in Ht. subst t.
           apply andb_true_iff in Hb as [_ ->].
           right. right. right. left. by left.
      * right. right. by left.
    + unfold readDone in Ht. destruct (reading st !! k) as [i|] eqn:E.
      * simpl in Ht. apply list_elem_of_delete_inv in Ht.
        right. right. by left.
      * right. right. by left.
    + unfold mouseover_edge in Ht. case_bool_decide; right; right; by left.
    + unfold mouseout in Ht. destruct (hoverTimeout st !! i) as [[h|]|];
        right; right; by left.
    + unfold fire in Ht.
      destruct (filter (λ p, p.1 = h) (pending st)) as [|[h' t'] rest];
        right; right; by left.
  - right. right. right. left. by right.
  - right. right. right. right. exists edge. split; [by right|done].
Qed.

(** X24: a popover opens only for an element that was hovered with
    something to preview: whatever the events, every popover that has
    opened belongs to a node that got a [mouseover] with a markdown file
    resolved, or to an edge with a [context] field that got one. *)
Theorem X24_popovers_only_for_hovered_elements (evs : list Event) (t : string) :
  t ∈ popovers (run evs initial) →
  MouseoverNode t true ∈ evs
  ∨ (∃ edge, MouseoverEdge edge ∈ evs ∧ e_id edge = t
             ∧ is_Some (e_data edge !! "context")).
Proof.
  intros Ht. apply popovers_were_armed in Ht as [Ht|[(p & Hp & _)|[Ht|Ht]]].
  - by apply elem_of_nil in Ht.
  - by apply elem_of_nil in Hp.
  - by apply elem_of_nil in Ht.
  - exact Ht.
Qed.

Lemma X24_popovers_only_for_hovered_elements_witness :
  "core:A" ∈ popovers (run [MouseoverNode "core:A" true; ReadDone 0; Fire 0]
                           initial)
  ∧ MouseoverNode "core:A" true
    ∈ [MouseoverNode "core:A" true; ReadDone 0; Fire 0].
Proof.
  assert (H : "core:A" ∈ popovers (run [MouseoverNode "core:A" true;
                                        ReadDone 0; Fire 0] initial)).
  { vm_compute. by left. }
  split; [exact H|].
  destruct (X24_popovers_only_for_hovered_elements _ _ H) as [Hn|(edge & He & _)].
  - exact Hn.
  - by left.
Defined.

(** X28: pointer-leave cancels the task whose handle is recorded for the
    element: whatever happens afterwards, that task is not pending again
    and its firing changes nothing, so it opens no popover. *)
Theorem X28_leave_cancels_the_recorded_task
    (st : State) (i : string) (h : Timeout) :
  wf st →
  hoverTimeout st !! i = Some (Some h) →
  (∀ evs p, p ∈ pending (run evs (mouseout i st)) → p.1 ≠ h)
  ∧ (∀ evs, run (evs ++ [Fire h]) (mouseout i st) = run evs (mouseout i st)).
Proof.
  intros Hwf Hi.
  pose proof (mouseout_cancels i h st Hwf Hi) as Hc.
  split.
  - intros evs p Hp. by apply (cancelled_run h evs _ Hc).
  - intros evs. unfold run. rewrite foldl_app. simpl.
    apply fire_cancelled. by apply cancelled_run.
Qed.

Lemma X28_leave_cancels_the_recorded_task_witness :
  wf (run [MouseoverNode "core:A" true; ReadDone 0] initial)
  ∧ hoverTimeout (run [MouseoverNode "core:A" true; ReadDone 0] initial)
      !! "core:A"
    = Some (Some 0)
  ∧ popovers (run [MouseoverNode "core:A" true; ReadDone 0;
                   Mouseout "core:A"; Fire 0] initial)
    = [].
Proof.
  assert (Hwf : wf (run [MouseoverNode "core:A" true; ReadDone 0] initial))
    by (apply wf_run, wf_initial).
  split; [exact Hwf|]. split; [reflexivity|].
  destruct (X28_leave_cancels_the_recorded_task
              (run [MouseoverNode "core:A" true; ReadDone 0] initial)
              "core:A" 0 Hwf eq_refl)
    as (_ & Hfire).
  specialize (Hfire []).
  change (run [MouseoverNode "core:A" true; ReadDone 0;
               Mouseout "core:A"; Fire 0] initial)
    with (run ([] ++ [Fire 0])
              (mouseout "core:A"
                 (run [MouseoverNode "core:A" true; ReadDone 0] initial))).
  rewrite Hfire. reflexivity.
Defined.

End TimerExtras.

(** ** Further properties: the result of expanding *)

Section ExpandExtras.

Import Cy View PerElement Examples.

(** X25: when [expand] completes, the collection it returns has no
    duplicates and consists of exactly the identities of the records
    [buildEdges] returned that are in the graph afterwards; [buildEdges]
    was asked with the graph after the merge of the neighbourhood and the
    fetched nodes in it.  The neighbourhood itself is not returned. *)
Theorem X25_expand_returns_merged_edges
    (stores : list IDataStore) (toExpand : Collection) (cy cy' : Core)
    (r : Collection) :
  NoDup (elements cy) →
  expand stores toExpand cy = (cy', Ok r) →
  ∃ nbh edges,
    neighbourhood stores (VizId.fromId <$> toExpand) cy = (cy, Ok nbh)
    ∧ let cy1 := (mergeToGraph nbh cy).1 in
      buildEdges stores (fetchedNodes nbh cy1) cy1 = (cy1, Ok edges)
      ∧ NoDup r
      ∧ ∀ i, i ∈ r ↔ i ∈ elements cy' ∧ ∃ n, n ∈ edges ∧ def_id n = i.
Proof.
  intros Hnd H. unfold expand in H.
  apply bind_Ok_inv in H as (c0 & nbh & Hn & H).
  assert (c0 = cy) as ->.
  { pose proof (neighbourhood_from_state stores (VizId.fromId <$> toExpand) [] cy) as E.
    unfold neighbourhood in Hn. by rewrite Hn in E. }
  apply bind_Ok_inv in H as (c1 & u1 & Hm1 & H).
  apply bind_Ok_inv in H as (c1' & cyv & Hg & H).
  unfold get in Hg. injection Hg as <- <-. cbv zeta in H.
  apply bind_Ok_inv in H as (c2 & edges & Hb & H).
  assert (c2 = c1) as ->.
  { pose proof (buildEdges_from_state stores (fetchedNodes nbh c1) [] c1) as E.
    unfold buildEdges in Hb. by rewrite Hb in E. }
  apply bind_Ok_inv in H as (c3 & eig & Hm2 & H).
  apply bind_Ok_inv in H as (c4 & u4 & Hmod & H).
  unfold modify in Hmod. injection Hmod as <- _.
  apply bind_Ok_inv in H as (c5 & u5 & Hu & H).
  unfold ret in H. injection H as <- <-.
  assert (Hc1 : c1 = (mergeToGraph nbh cy).1) by (by rewrite Hm1).
  assert (Hc5 : c5 = (updateActiveFile toExpand false
                        (addClass toExpand CLASS_EXPANDED c3)).1)
    by (by rewrite Hu).
  assert (Hnd1 : NoDup (elements c1)) by (subst c1; by apply NoDup_mergeToGraph).
  assert (Hel5 : elements c5 = elements c3).
  { rewrite Hc5, elements_updateActiveFile. unfold addClass.
    by rewrite elements_update. }
  exists nbh, edges. split; [done|]. cbv zeta. rewrite <- Hc1.
  split; [done|]. rewrite Hel5.
  by apply (mergeToGraph_returns c1 c3 edges eig).
Qed.

Lemma X25_expand_returns_merged_edges_witness :
  NoDup (elements [nodeHome])
  ∧ ∃ cy',
      expand [goodStore] ["core:Home"] [nodeHome]
      = (cy', Ok ["core:Home->core:B"])
      ∧ "core:Home->core:B" ∈ elements cy'.
Proof.
  assert (Hnd : NoDup (elements [nodeHome])) by apply NoDup_singleton.
  split; [exact Hnd|].
  assert (He : expand [goodStore] ["core:Home"] [nodeHome]
               = ((expand [goodStore] ["core:Home"] [nodeHome]).1,
                  Ok ["core:Home->core:B"])).
  { assert (H2 : (expand [goodStore] ["core:Home"] [nodeHome]).2
                 = Ok ["core:Home->core:B"]) by (vm_compute; reflexivity).
    destruct (expand [goodStore] ["core:Home"] [nodeHome]) as [c o].
    simpl in *. by rewrite H2. }
  eexists. split; [exact He|].
  destruct (X25_expand_returns_merged_edges _ _ _ _ _ Hnd He)
    as (nbh & edges & _ & _ & _ & Hr).
  apply (proj1 (Hr "core:Home->core:B")). by left.
Defined.

(** X30: [expand] is rejected with the error of [viz.add] when the stores
    return, among edge records with pairwise distinct identities, a record
    that is new to the graph and has the empty identity or an end point
    that is neither in the graph nor the identity of a returned record.
    The graph is then as the second merge left it: the neighbourhood has
    been merged, and the expanded collection has not been tagged. *)
Theorem X30_expand_rejected_by_bad_edge_record
    (stores : list IDataStore) (toExpand : Collection) (cy cy1 : Core)
    (nbh edges : list ElementDefinition) (r1 : Collection)
    (d : ElementDefinition) :
  neighbourhood stores (VizId.fromId <$> toExpand) cy = (cy, Ok nbh) →
  mergeToGraph nbh cy = (cy1, Ok r1) →
  buildEdges stores (fetchedNodes nbh cy1) cy1 = (cy1, Ok edges) →
  NoDup (elements cy1) →
  NoDup (def_id <$> edges) →
  d ∈ edges →
  def_id d ∉ elements cy1 →
  (def_id d = ""
   ∨ ∃ s t, def_ends d = Some (s, t)
            ∧ (((s ∉ elements cy1) ∧ (s ∉ (def_id <$> edges)))
               ∨ ((t ∉ elements cy1) ∧ (t ∉ (def_id <$> edges))))) →
  ∃ why,
    expand stores toExpand cy
    = (merged_store edges cy1, Thrown (CannotCreate why)).
Proof.
  intros Hn Hm1 Hb Hnd1 Hl Hd Hfree Hbad.
  destruct (mergeToGraph_refused cy1 edges d Hnd1 Hl Hd Hfree Hbad)
    as (why & Hthrown & Hstore & _).
  exists why. unfold expand.
  unfold bind at 1. rewrite Hn.
  unfold bind at 1. rewrite Hm1.
  unfold bind at 1. unfold get at 1. cbv zeta.
  unfold bind at 1. rewrite Hb.
  unfold bind at 1.
  destruct (mergeToGraph edges cy1) as [c o]. simpl in Hthrown, Hstore.
  by rewrite Hthrown, Hstore.
Qed.

Lemma X30_expand_rejected_by_bad_edge_record_witness :
  (expand [danglingStore] ["core:Home"] [nodeHome]).2
  = Thrown (CannotCreate (NonexistentEnd "core:Home->core:Z" "core:Z"))
  ∧ getExpanded (expand [danglingStore] ["core:Home"] [nodeHome]).1 = []
  ∧ ∃ why cy',
      expand [danglingStore] ["core:Home"] [nodeHome]
      = (cy', Thrown (CannotCreate why)).
Proof.
  split; [vm_compute; reflexivity|]. split; [vm_compute; reflexivity|].
  set (cy1 := (mergeToGraph [recHome; recB] [nodeHome]).1).
  assert (Hm1 : mergeToGraph [recHome; recB] [nodeHome]
                = (cy1, Ok ["core:Home"; "core:B"])).
  { assert (H2 : (mergeToGraph [recHome; recB] [nodeHome]).2
                 = Ok ["core:Home"; "core:B"]) by (vm_compute; reflexivity).
    unfold cy1.
    destruct (mergeToGraph [recHome; recB] [nodeHome]) as [c o].
    simpl in *. by rewrite H2. }
  assert (Hel : elements cy1 = ["core:Home"; "core:B"])
    by (vm_compute; reflexivity).
  destruct (X30_expand_rejected_by_bad_edge_record
              [danglingStore] ["core:Home"] [nodeHome] cy1
              [recHome; recB] [recHomeB; recHomeZ] ["core:Home"; "core:B"]
              recHomeZ)
    as (why & Hexp).
  - reflexivity.
  - exact Hm1.
  - reflexivity.
  - rewrite Hel. apply (bool_decide_unpack _). vm_compute. exact I.
  - apply (bool_decide_unpack _). vm_compute. exact I.
  - right. by left.
  - rewrite Hel. apply (bool_decide_unpack _). vm_compute. exact I.
  - right. exists "core:Home", "core:Z". split; [reflexivity|]. right.
    rewrite Hel. split; apply (bool_decide_unpack _); vm_compute; exact I.
  - exists why. eexists. exact Hexp.
Defined.

End ExpandExtras.

(** ** Further properties: opening a file *)

Section FileOpenExtras.

Import Cy View PerElement Shape Invariants Preservation Files FileOpen Examples.

Lemma sameShape_updateActiveFile node b cy :
  sameShape cy (updateActiveFile node b cy).1.
Proof.
  rewrite updateActiveFile_store.
  eapply sameShape_trans; [|apply sameShape_addClass].
  eapply sameShape_trans; [|apply sameShape_addClass].
  eapply sameShape_trans; [|apply sameShape_addClass].
  eapply sameShape_trans; [|apply sameShape_addClass].
  apply sameShape_removeClass.
Qed.

Lemma addFromCore_no_core stores get_node all id cy :
  Forall (λ s, storeId s ≠ "core") all →
  addFromCore stores get_node all id cy = (cy, Ok true).
Proof.
  induction 1 as [|s all Hs _ IH]; [done|].
  simpl. by rewrite bool_decide_eq_false_2.
Qed.

Lemma addFromCore_first stores get_node pre s post id :
  Forall (λ s, storeId s ≠ "core") pre → storeId s = "core" →
  addFromCore stores get_node (pre ++ s :: post) id
  = addFromCore stores get_node [s] id.
Proof.
  intros Hpre Hs. induction Hpre as [|p pre Hp _ IH].
  - simpl. by rewrite !bool_decide_eq_true_2.
  - simpl. rewrite (bool_decide_eq_false_2 _ Hp). exact IH.
Qed.

Lemma unique_addFromCore stores get_node all id :
  unique (addFromCore stores get_node all id).
Proof.
  induction all as [|s all IH]; [by intros cy|].
  simpl. case_bool_decide; [|exact IH].
  apply unique_bind; [apply unique_await|]. intros node.
  apply unique_bind; [apply unique_add|].
  intros _. apply unique_bind; [apply unique_buildEdges|]. intros edges.
  apply unique_bind; [apply unique_add|].
  intros _. apply unique_bind; [apply unique_onGraphChanged|].
  intros _. apply unique_ret.
Qed.

Lemma toId_not_empty v : VizId.toId v ≠ "".
Proof.
  unfold VizId.toId, VizId.toString. destruct (VizId.storeId v); discriminate.
Qed.

(** X26: the [file-open] handler does nothing when the host reports no file
    or when [autoAddNodes] is off.  When the node of the file, identified
    by the base name in the [core] store, is in the graph, no store is
    asked and the handler is [updateActiveFile] on that node; when it is
    not and no store calls itself [core], the handler is [updateActiveFile]
    on the empty collection, which marks every element [inactive-file] and
    none [active-file].  In every case, also when the handler is rejected,
    no two elements of the graph share an identity afterwards if none did
    before. *)
Theorem X26_fileOpen
    (stores : list IDataStore)
    (get_node : IDataStore → VizId.t → Outcome ElementDefinition)
    (file : TFile) (autoAddNodes : bool) (cy : Core) :
  let i := VizId.toId (VizId.mk (basename file) "core") in
  fileOpen stores get_node None autoAddNodes cy = (cy, Ok tt)
  ∧ fileOpen stores get_node (Some file) false cy = (cy, Ok tt)
  ∧ (i ∈ elements cy →
     fileOpen stores get_node (Some file) true cy = updateActiveFile [i] true cy)
  ∧ (i ∉ elements cy → Forall (λ s, storeId s ≠ "core") stores →
     fileOpen stores get_node (Some file) true cy = updateActiveFile [] true cy
     ∧ ∀ e', e' ∈ (fileOpen stores get_node (Some file) true cy).1 →
             "inactive-file" ∈ e_classes e' ∧ "active-file" ∉ e_classes e')
  ∧ unique (fileOpen stores get_node (Some file) autoAddNodes).
Proof.
  intros i. split; [done|]. split; [done|]. split; [|split].
  - intros Hi. unfold fileOpen. cbv zeta. fold i.
    unfold bind at 1. unfold get at 1.
    unfold hasElementWithId at 1. rewrite bool_decide_eq_true_2 by done.
    unfold bind, ret, get, byId, hasElementWithId.
    by rewrite bool_decide_eq_true_2.
  - intros Hi Hno.
    assert (E : fileOpen stores get_node (Some file) true cy
                = updateActiveFile [] true cy).
    { unfold fileOpen. cbv zeta. fold i.
      unfold bind at 1. unfold get at 1.
      unfold hasElementWithId at 1. rewrite bool_decide_eq_false_2 by done.
      unfold bind at 1. rewrite addFromCore_no_core by done.
      unfold bind, get, byId, hasElementWithId.
      by rewrite bool_decide_eq_false_2. }
    split; [exact E|]. rewrite E. intros e' He'.
    apply updateActiveFile_classes in He'
      as (e & He & Hid & _ & _ & _ & Hact & Hin & _).
    split.
    + apply Hin. unfold closedNeighborhood. rewrite elem_of_merge.
      intros [H|H]; [|by apply elem_of_nil in H].
      unfold neighborhood in H. simpl in H. by apply elem_of_nil in H.
    + rewrite Hact. apply not_elem_of_nil.
  - unfold fileOpen. destruct autoAddNodes; [|apply unique_ret].
    cbv zeta. apply unique_bind; [apply unique_get|]. intros c0.
    apply unique_bind.
    + destruct (hasElementWithId _ c0); [apply unique_ret|].
      apply unique_addFromCore.
    + intros b. apply unique_bind; [apply unique_get|]. intros c1.
      apply unique_updateActiveFile.
Qed.

Lemma X26_fileOpen_witness :
  let file := mkFile "B" "md" "B.md" "notes/B.md" in
  "core:B" ∈ elements [nodeB; nodeC; edgeBC]
  ∧ fileOpen [goodStore] (λ _ _, Thrown TypeError) (Some file) true
             [nodeB; nodeC; edgeBC]
    = updateActiveFile ["core:B"] true [nodeB; nodeC; edgeBC]
  ∧ ("core:B" ∉ elements [nodeC])
  ∧ Forall (λ s, storeId s ≠ "core") []
  ∧ fileOpen [] (λ _ _, Thrown TypeError) (Some file) true [nodeC]
    = updateActiveFile [] true [nodeC].
Proof.
  intros file.
  assert (Hin : "core:B" ∈ elements [nodeB; nodeC; edgeBC]) by (by left).
  assert (Hout : "core:B" ∉ elements [nodeC]).
  { intros H. apply list_elem_of_singleton in H. discriminate H. }
  split; [exact Hin|]. split; [|split; [exact Hout|split; [constructor|]]].
  - exact (proj1 (proj2 (proj2
      (X26_fileOpen [goodStore] (λ _ _, Thrown TypeError) file true
                    [nodeB; nodeC; edgeBC]))) Hin).
  - exact (proj1 (proj1 (proj2 (proj2 (proj2
      (X26_fileOpen [] (λ _ _, Thrown TypeError) file true [nodeC]))))
      Hout (Forall_nil_2 _))).
Defined.

Lemma add_node n cy cy' added :
  add [n] cy = (cy', Ok added) →
  def_ends n = None → def_id n ∉ elements cy →
  def_id n ∈ nodes cy'.
Proof.
  intros Hadd Hends Hout.
  assert (Hin : def_id n ∈ elements cy').
  { apply (add_ok_present [n] cy cy' added n Hadd). by left. }
  apply add_ok in Hadd as [-> _].
  rewrite elements_app in Hin. apply elem_of_app in Hin as [Hin|Hin]; [done|].
  rewrite elements_of_defs in Hin.
  apply list_elem_of_fmap in Hin as (d & Hid & Hd).
  apply (proj1 (elem_of_nodes_first _ _)) in Hd.
  apply created_sub in Hd as [Hd _].
  apply list_elem_of_singleton in Hd. subst d.
  rewrite nodes_app. apply elem_of_app. right.
  apply nodes_elem. exists (ele_of_def n). split.
  - apply list_elem_of_fmap_2. apply elem_of_nodes_first.
    simpl. rewrite decide_False by done. by left.
  - split; [done|]. unfold isNode. simpl. by rewrite Hends.
Qed.

(** X27: when the node of the opened file is not in the graph, the first
    store that calls itself [core] is asked for it.  If that store
    rejects, the handler is rejected and the graph is as it was.  If it
    answers with a node record of the expected identity and the handler
    completes, the node is in the graph, nothing has left the graph, and
    the node is the one element marked [active-file]. *)
Theorem X27_fileOpen_fetches_from_first_core_store
    (stores pre post : list IDataStore) (s : IDataStore)
    (get_node : IDataStore → VizId.t → Outcome ElementDefinition)
    (file : TFile) (cy : Core) :
  let id := VizId.mk (basename file) "core" in
  let i := VizId.toId id in
  NoDup (elements cy) → i ∉ elements cy →
  stores = (pre ++ s :: post)%list →
  Forall (λ s, storeId s ≠ "core") pre → storeId s = "core" →
  (∀ err, get_node s id = Thrown err →
          fileOpen stores get_node (Some file) true cy = (cy, Thrown err))
  ∧ (∀ n cy', get_node s id = Ok n → def_id n = i → def_ends n = None →
       fileOpen stores get_node (Some file) true cy = (cy', Ok tt) →
       i ∈ nodes cy'
       ∧ (∀ j, j ∈ elements cy → j ∈ elements cy')
       ∧ ∀ e', e' ∈ cy' → ("active-file" ∈ e_classes e' ↔ e_id e' = i)).
Proof.
  intros id i Hnd Hout Hst Hpre Hs. split.
  - intros err Hget. unfold fileOpen. cbv zeta. fold id i.
    unfold bind at 1. unfold get at 1.
    unfold hasElementWithId at 1. rewrite bool_decide_eq_false_2 by done.
    unfold bind at 1. rewrite Hst at 2.
    rewrite (addFromCore_first stores get_node pre s post id Hpre Hs).
    cbn [addFromCore]. rewrite bool_decide_eq_true_2 by done.
    unfold bind at 1. unfold await. by rewrite Hget.
  - intros n cy' Hget Hid Hends H. unfold fileOpen in H. cbv zeta in H.
    fold id i in H.
    apply bind_Ok_inv in H as (c0 & cyv & Hg & H).
    unfold get in Hg. injection Hg as <- <-.
    unfold hasElementWithId at 1 in H.
    rewrite bool_decide_eq_false_2 in H by done.
    apply bind_Ok_inv in H as (c5 & b & Ha & H).
    rewrite Hst in Ha at 2.
    rewrite (addFromCore_first stores get_node pre s post id Hpre Hs) in Ha.
    cbn [addFromCore] in Ha. rewrite bool_decide_eq_true_2 in Ha by done.
    apply bind_Ok_inv in Ha as (c1 & n' & Hgn & Ha).
    unfold await in Hgn. rewrite Hget in Hgn. injection Hgn as <- <-.
    apply bind_Ok_inv in Ha as (c2 & added1 & Hadd1 & Ha).
    apply bind_Ok_inv in Ha as (c3 & edges & Hb & Ha).
    assert (c3 = c2) as ->.
    { pose proof (f_equal fst Hb) as E. unfold buildEdges in E.
      by rewrite buildEdges_from_state in E. }
    apply bind_Ok_inv in Ha as (cy2 & added2 & Hadd2 & Ha).
    apply bind_Ok_inv in Ha as (c6 & u6 & Hog & Ha).
    unfold ret in Ha. injection Ha as <- <-.
    apply bind_Ok_inv in H as (c7 & cyv & Hg & H).
    unfold get in Hg. injection Hg as <- <-.
    assert (Hc2 : c2 = (add [n] cy).1) by (by rewrite Hadd1).
    assert (Hcy2 : cy2 = (add edges c2).1) by (by rewrite Hadd2).
    assert (Hnd2 : NoDup (elements cy2)).
    { rewrite Hcy2, Hc2. by apply NoDup_add, NoDup_add. }
    assert (Hc6 : c6 = (metrics (λ j, degree j cy2) cy2).1).
    { rewrite (onGraphChanged_metrics cy2 Hnd2) in Hog. by injection Hog as <- _. }
    pose proof (metrics_same (λ j, degree j cy2) cy2) as Hsame.
    rewrite <- Hc6 in Hsame.
    assert (Hel6 : elements c6 = elements cy2)
      by (by apply same_but_metrics_elements).
    assert (Hno6 : nodes c6 = nodes cy2).
    { symmetry. apply nodes_same_shape; [done|].
      symmetry. by apply same_but_metrics_ends. }
    assert (Hi2 : i ∈ nodes cy2).
    { rewrite Hcy2. apply add_keeps_nodes. rewrite <- Hid.
      apply (add_node n cy c2 added1 Hadd1 Hends). by rewrite Hid. }
    assert (Hi6 : i ∈ elements c6).
    { rewrite Hel6. apply nodes_elem in Hi2 as (e & He & <- & _).
      by apply list_elem_of_fmap_2. }
    unfold byId, hasElementWithId in H.
    rewrite bool_decide_eq_true_2 in H by done.
    assert (Hcy' : cy' = (updateActiveFile [i] false c6).1) by (by rewrite H).
    pose proof (sameShape_updateActiveFile [i] false c6) as Hsh.
    rewrite <- Hcy' in Hsh.
    split; [|split].
    + rewrite (sameShape_nodes _ _ Hsh). by rewrite Hno6.
    + intros j Hj. rewrite (sameShape_elements _ _ Hsh), Hel6.
      rewrite Hcy2, Hc2. by apply add_keeps_elements, add_keeps_elements.
    + intros e' He'. rewrite Hcy' in He'.
      apply updateActiveFile_classes in He'
        as (e & He & Hide & _ & _ & _ & Hact & _).
      rewrite Hact, Hide. by rewrite list_elem_of_singleton.
Qed.

Lemma X27_fileOpen_fetches_from_first_core_store_witness :
  let file := mkFile "B" "md" "B.md" "notes/B.md" in
  let getB := λ (_ : IDataStore) (_ : VizId.t), Ok recB in
  NoDup (elements [nodeHome])
  ∧ ("core:B" ∉ elements [nodeHome])
  ∧ fileOpen [goodStore] getB (Some file) true [nodeHome]
    = ((fileOpen [goodStore] getB (Some file) true [nodeHome]).1, Ok tt)
  ∧ "core:B" ∈ nodes (fileOpen [goodStore] getB (Some file) true [nodeHome]).1.
Proof.
  intros file getB.
  assert (Hnd : NoDup (elements [nodeHome])) by apply NoDup_singleton.
  assert (Hout : "core:B" ∉ elements [nodeHome]).
  { intros H. apply list_elem_of_singleton in H. discriminate H. }
  assert (Hrun : fileOpen [goodStore] getB (Some file) true [nodeHome]
                 = ((fileOpen [goodStore] getB (Some file) true [nodeHome]).1,
                    Ok tt)).
  { assert (H2 : (fileOpen [goodStore] getB (Some file) true [nodeHome]).2
                 = Ok tt) by (vm_compute; reflexivity).
    destruct (fileOpen [goodStore] getB (Some file) true [nodeHome]) as [c o].
    simpl in *. by rewrite H2. }
  split; [exact Hnd|]. split; [exact Hout|]. split; [exact Hrun|].
  destruct (X27_fileOpen_fetches_from_first_core_store
              [goodStore] [] [] goodStore getB file [nodeHome]
              Hnd Hout eq_refl (Forall_nil_2 _) eq_refl) as [_ Hok].
  exact (proj1 (Hok recB _ eq_refl eq_refl eq_refl Hrun)).
Defined.

End FileOpenExtras.
